(** * Atomic Chess (ChessVar.py): a shallow embedding and its properties

    The Python class [ChessVar] keeps an 8x8 board of one-character strings,
    the player to move and the game state.  The embedding below follows the
    source method by method.  Python's list indexing is modelled with its
    negative-index wrap-around and its [IndexError]; the only unbounded loop
    of the source (the diagonal scan of [is_valid_bishop_move]) takes fuel,
    and eight units are shown to be enough in every well-formed state.
    Methods that only read the object take it as an argument; methods that
    assign to it return the new object.  A call that raises is the bare
    [Raise e]: the properties below are about calls that return. *)

From Stdlib Require Import ZArith List Ascii String Bool Lia.
From stdpp Require Import base list strings.
Import ListNotations.

Local Open Scope Z_scope.

(** ** Outcomes of a Python call *)

Inductive exn : Type :=
| IndexError
| ValueError.

Inductive outcome (A : Type) : Type :=
| Ret (a : A)
| Raise (e : exn)
| OutOfFuel.

Arguments Ret {A} a.
Arguments Raise {A} e.
Arguments OutOfFuel {A}.

Definition outcome_bind {A B : Type} (m : outcome A) (f : A -> outcome B) : outcome B :=
  match m with
  | Ret a => f a
  | Raise e => Raise e
  | OutOfFuel => OutOfFuel
  end.

Notation "'let*' x ':=' m 'in' k" := (outcome_bind m (fun x => k))
  (at level 10, x pattern, m at level 100, k at level 200).

(** A [for] loop whose body updates an accumulator and may raise. *)
Fixpoint for_each {A S : Type} (body : S -> A -> outcome S) (l : list A) (s : S) : outcome S :=
  match l with
  | [] => Ret s
  | x :: rest => let* s' := body s x in for_each body rest s'
  end.

(** ** Python primitives used by the source *)

Module Py.

(** [range(lo, hi)] *)
Definition range (lo hi : Z) : list Z :=
  map (fun k => lo + Z.of_nat k) (seq 0 (Z.to_nat (hi - lo))).

(** [range(start, stop, step)]; the source only uses steps 1 and -1
    (a zero step, which Python refuses, never occurs). *)
Definition range3 (start stop step : Z) : list Z :=
  if 0 <? step then
    map (fun k => start + Z.of_nat k * step)
        (seq 0 (Z.to_nat ((stop - start + step - 1) / step)))
  else if step <? 0 then
    map (fun k => start + Z.of_nat k * step)
        (seq 0 (Z.to_nat ((start - stop - step - 1) / (- step))))
  else [].

(** [l[i]]: indices [-len .. len-1] are valid, negative ones count from
    the end, anything else raises [IndexError]. *)
Definition norm_index (n i : Z) : Z := if i <? 0 then i + n else i.

Definition getitem {A : Type} (l : list A) (i : Z) : outcome A :=
  let n := Z.of_nat (length l) in
  let j := norm_index n i in
  if (j <? 0) || (n <=? j) then Raise IndexError
  else match l !! Z.to_nat j with
       | Some x => Ret x
       | None => Raise IndexError
       end.

(** [l[i] = x] *)
Definition setitem {A : Type} (l : list A) (i : Z) (x : A) : outcome (list A) :=
  let n := Z.of_nat (length l) in
  let j := norm_index n i in
  if (j <? 0) || (n <=? j) then Raise IndexError
  else Ret (<[Z.to_nat j := x]> l).

(** [str.isupper], [str.islower], [str.lower] on a one-character string
    (ASCII letters; the board only ever holds ".pnbrqkPNBRQK").

    A character here is one of the 256 values of [ascii]; a Python string is
    a sequence of Unicode code points.  The two agree on ASCII text (code
    points below 128), and that is the domain on which [ord], [int] and
    [chess_notation_to_index] are the source's: beyond it Python's [ord] is
    not bounded by 255 and its [int] also reads the decimal digits of other
    scripts.  Statements about what a coordinate string decodes to either
    assume the decoded cell or say that the string is ASCII. *)
Definition ord (c : ascii) : Z := Z.of_N (N_of_ascii c).

Definition isupper (c : ascii) : bool := (65 <=? ord c) && (ord c <=? 90).
Definition islower (c : ascii) : bool := (97 <=? ord c) && (ord c <=? 122).
Definition lower (c : ascii) : ascii :=
  if isupper c then ascii_of_N (N_of_ascii c + 32) else c.

(** [int(c)] for a one-character ASCII string *)
Definition int (c : ascii) : outcome Z :=
  if (48 <=? ord c) && (ord c <=? 57) then Ret (ord c - 48) else Raise ValueError.

End Py.

(** ** The game object *)

(** The source keeps the player and the state as the strings 'WHITE',
    'BLACK' and 'UNFINISHED', 'WHITE_WON', 'BLACK_WON'; no other value is
    ever assigned. *)
Inductive player : Type := WHITE | BLACK.

Inductive game_state : Type := UNFINISHED | WHITE_WON | BLACK_WON.

Definition player_eqb (p q : player) : bool :=
  match p, q with
  | WHITE, WHITE | BLACK, BLACK => true
  | _, _ => false
  end.

Definition game_state_eqb (p q : game_state) : bool :=
  match p, q with
  | UNFINISHED, UNFINISHED | WHITE_WON, WHITE_WON | BLACK_WON, BLACK_WON => true
  | _, _ => false
  end.

Abbreviation board := (list (list ascii)) (only parsing).

Record ChessVar : Type := mkChessVar {
  _game_board : board;
  _current_player : player;
  _game_state : game_state
}.

Definition set_board (g : ChessVar) (b : board) : ChessVar :=
  mkChessVar b (_current_player g) (_game_state g).
Definition set_player (g : ChessVar) (p : player) : ChessVar :=
  mkChessVar (_game_board g) p (_game_state g).
Definition set_state (g : ChessVar) (s : game_state) : ChessVar :=
  mkChessVar (_game_board g) (_current_player g) s.

Definition row_of_string (s : string) : list ascii := list_ascii_of_string s.

(** [__init__] *)
Definition init : ChessVar :=
  mkChessVar
    (map row_of_string
       ["rnbqkbnr"; "pppppppp"; "........"; "........";
        "........"; "........"; "PPPPPPPP"; "RNBQKBNR"]%string)
    WHITE UNFINISHED.

Definition get_game_state (g : ChessVar) : game_state := _game_state g.

(** [self._game_board[r][c]] *)
Definition board_get (b : board) (r c : Z) : outcome ascii :=
  let* row := Py.getitem b r in Py.getitem row c.

(** [self._game_board[r][c] = x]: the row object is updated in place; the
    rows of the board are distinct objects, so only row [r] changes. *)
Definition board_set (b : board) (r c : Z) (x : ascii) : outcome board :=
  let* row := Py.getitem b r in
  let* row' := Py.setitem row c x in
  Py.setitem b r row'.

Definition blast_rows (row : Z) : list Z := Py.range (Z.max 0 (row - 1)) (Z.min (row + 2) 8).
Definition blast_cols (col : Z) : list Z := Py.range (Z.max 0 (col - 1)) (Z.min (col + 2) 8).

(** The two flags [white_king_destroyed], [black_king_destroyed]. *)
Definition flags : Type := (bool * bool)%type.

Definition simulate_scan (b : board) (row col : Z) : outcome flags :=
  for_each (fun fl r =>
    for_each (fun (fl : flags) c =>
      let* piece := board_get b r c in
      if (piece =? "K")%char then Ret (true, fl.2)
      else if (piece =? "k")%char then Ret (fl.1, true)
      else Ret fl) (blast_cols col) fl) (blast_rows row) (false, false).

Definition simulate_explosion (g : ChessVar) (row col : Z) : outcome bool :=
  let* fl := simulate_scan (_game_board g) row col in
  Ret (negb (fl.1 && fl.2)).

Definition is_king (piece : ascii) : bool := (Py.lower piece =? "k")%char.

Definition is_on_board (row col : Z) : bool :=
  (0 <=? row) && (row <? 8) && (0 <=? col) && (col <? 8).

(** ** Move legality *)

Definition is_valid_knight_move (start_row start_col end_row end_col : Z) : bool :=
  let row_diff := Z.abs (start_row - end_row) in
  let col_diff := Z.abs (start_col - end_col) in
  ((row_diff =? 2) && (col_diff =? 1)) || ((row_diff =? 1) && (col_diff =? 2)).

Definition is_valid_pawn_move (g : ChessVar) (start_row start_col end_row end_col : Z)
  : outcome bool :=
  let b := _game_board g in
  let* piece := board_get b start_row start_col in
  let direction := if Py.islower piece then 1 else -1 in
  (* regular move; [and] evaluates its right operand only when needed *)
  let* quiet_guard :=
    (if start_col =? end_col
     then let* d := board_get b end_row end_col in Ret (d =? ".")%char
     else Ret false) in
  let* quiet :=
    (if (quiet_guard : bool) then
       if start_row + direction =? end_row then Ret true
       else if (start_row + 2 * direction =? end_row)
                && ((start_row =? 1) || (start_row =? 6))
            then let* m := board_get b (start_row + direction) start_col in Ret (m =? ".")%char
            else Ret false
     else Ret false) in
  if (quiet : bool) then Ret true
  else
    (* capturing move *)
    if (Z.abs (start_col - end_col) =? 1) && (start_row + direction =? end_row) then
      let* d := board_get b end_row end_col in
      if negb (d =? ".")%char
         || (player_eqb (_current_player g) WHITE && Py.islower d)
         || (player_eqb (_current_player g) BLACK && Py.isupper d)
      then Ret true
      else Ret false
    else Ret false.

(** The [while] loop of [is_valid_bishop_move]; one unit of fuel per test of
    the loop condition. *)
Fixpoint bishop_scan (fuel : nat) (b : board) (end_row end_col step_row step_col : Z)
  (current_row current_col : Z) : outcome bool :=
  match fuel with
  | O => OutOfFuel
  | S fuel' =>
      if negb (current_row =? end_row) && negb (current_col =? end_col) then
        let* p := board_get b current_row current_col in
        if negb (p =? ".")%char then Ret false
        else bishop_scan fuel' b end_row end_col step_row step_col
               (current_row + step_row) (current_col + step_col)
      else Ret true
  end.

Definition is_valid_bishop_move (fuel : nat) (g : ChessVar)
  (start_row start_col end_row end_col : Z) : outcome bool :=
  if negb (Z.abs (start_row - end_row) =? Z.abs (start_col - end_col)) then Ret false
  else
    let step_row := if end_row >? start_row then 1 else -1 in
    let step_col := if end_col >? start_col then 1 else -1 in
    bishop_scan fuel (_game_board g) end_row end_col step_row step_col
      (start_row + step_row) (start_col + step_col).

(** A [for] loop over squares that returns [False] at the first occupied one. *)
Fixpoint path_clear (b : board) (cells : list (Z * Z)) : outcome bool :=
  match cells with
  | [] => Ret true
  | (r, c) :: rest =>
      let* p := board_get b r c in
      if negb (p =? ".")%char then Ret false else path_clear b rest
  end.

Definition is_valid_rook_move (g : ChessVar) (start_row start_col end_row end_col : Z)
  : outcome bool :=
  let b := _game_board g in
  if negb (start_row =? end_row) && negb (start_col =? end_col) then Ret false
  else
    let* clear :=
      (if start_row =? end_row then
         let step := if end_col >? start_col then 1 else -1 in
         path_clear b (map (fun col => (start_row, col))
                           (Py.range3 (start_col + step) end_col step))
       else
         let step := if end_row >? start_row then 1 else -1 in
         path_clear b (map (fun row => (row, start_col))
                           (Py.range3 (start_row + step) end_row step))) in
    if negb (clear : bool) then Ret false
    else
      let* destination_piece := board_get b end_row end_col in
      if negb (destination_piece =? ".")%char then
        if (Py.isupper destination_piece && player_eqb (_current_player g) BLACK)
           || (Py.islower destination_piece && player_eqb (_current_player g) WHITE)
        then Ret true
        else Ret false
      else Ret true.

Definition is_valid_queen_move (fuel : nat) (g : ChessVar)
  (start_row start_col end_row end_col : Z) : outcome bool :=
  let* diag := is_valid_bishop_move fuel g start_row start_col end_row end_col in
  if diag then Ret true
  else is_valid_rook_move g start_row start_col end_row end_col.

Definition is_valid_king_move (g : ChessVar) (start_row start_col end_row end_col : Z)
  : outcome bool :=
  let row_diff := Z.abs (start_row - end_row) in
  let col_diff := Z.abs (start_col - end_col) in
  if (row_diff <=? 1) && (col_diff <=? 1) then
    let* dest_piece := board_get (_game_board g) end_row end_col in
    Ret (dest_piece =? ".")%char
  else Ret false.

Definition is_valid_move (fuel : nat) (g : ChessVar)
  (start_row start_col end_row end_col : Z) : outcome bool :=
  if negb ((0 <=? start_row) && (start_row <? 8) && (0 <=? start_col) && (start_col <? 8))
  then Ret false
  else if negb ((0 <=? end_row) && (end_row <? 8) && (0 <=? end_col) && (end_col <? 8))
  then Ret false
  else
    let* piece := board_get (_game_board g) start_row start_col in
    if (piece =? ".")%char then Ret false
    else if (Py.isupper piece && player_eqb (_current_player g) BLACK)
            || (Py.islower piece && player_eqb (_current_player g) WHITE)
    then Ret false
    else if (Py.lower piece =? "p")%char then
      is_valid_pawn_move g start_row start_col end_row end_col
    else if (Py.lower piece =? "n")%char then
      Ret (is_valid_knight_move start_row start_col end_row end_col)
    else if (Py.lower piece =? "b")%char then
      is_valid_bishop_move fuel g start_row start_col end_row end_col
    else if (Py.lower piece =? "r")%char then
      is_valid_rook_move g start_row start_col end_row end_col
    else if (Py.lower piece =? "q")%char then
      is_valid_queen_move fuel g start_row start_col end_row end_col
    else if (Py.lower piece =? "k")%char then
      is_valid_king_move g start_row start_col end_row end_col
    else Ret false.

(** ** Coordinates *)

(** [column, row = notation] needs exactly two characters (on an ASCII
    string, as here, characters are bytes). *)
Definition chess_notation_to_index (notation : string) : outcome (Z * Z) :=
  match notation with
  | String column (String row EmptyString) =>
      let* r := Py.int row in
      Ret (8 - r, Py.ord column - Py.ord "a")
  | _ => Raise ValueError
  end.

(** ** Explosions and the end of the game *)

(** The first pair of loops of [explode]. *)
Definition explode_scan (b : board) (row col : Z) : outcome flags :=
  for_each (fun fl r =>
    for_each (fun (fl : flags) c =>
      let* piece := board_get b r c in
      if (Py.lower piece =? "k")%char then
        let fl1 := if (piece =? "K")%char then (true, fl.2) else fl in
        let fl2 := if (piece =? "k")%char then (fl1.1, true) else fl1 in
        Ret fl2
      else Ret fl) (blast_cols col) fl) (blast_rows row) (false, false).

(** The body of the second pair of loops of [explode]. *)
Definition explode_cell (r : Z) (g : ChessVar) (c : Z) : outcome ChessVar :=
  let* piece := board_get (_game_board g) r c in
  if negb (piece =? ".")%char then
    let g1 :=
      if is_king piece then
        if (piece =? "K")%char then set_state g BLACK_WON else set_state g WHITE_WON
      else g in
    let* b' := board_set (_game_board g1) r c "." in
    Ret (set_board g1 b')
  else Ret g.

Definition explode_apply (g : ChessVar) (row col : Z) : outcome ChessVar :=
  for_each (fun g r => for_each (explode_cell r) (blast_cols col) g) (blast_rows row) g.

Definition explode (g : ChessVar) (row col : Z) : outcome (bool * ChessVar) :=
  let* fl := explode_scan (_game_board g) row col in
  if fl.1 && fl.2 then Ret (false, g)
  else
    let* g' := explode_apply g row col in
    Ret (true, g').

Definition king_scan (b : board) : flags :=
  fold_left (fun fl row =>
    fold_left (fun (fl : flags) piece =>
      let fl1 := if (piece =? "K")%char then (true, fl.2) else fl in
      if (piece =? "k")%char then (fl1.1, true) else fl1) row fl) b (false, false).

Definition update_game_state (g : ChessVar) : ChessVar :=
  let fl := king_scan (_game_board g) in
  if negb fl.1 then set_state g BLACK_WON
  else if negb fl.2 then set_state g WHITE_WON
  else g.

(** ** The controller *)

Definition other (p : player) : player :=
  if player_eqb p WHITE then BLACK else WHITE.

(** The last three statements of [make_move]: they run after a quiet move
    and after an explosion alike. *)
Definition finish_move (g : ChessVar) : outcome (bool * ChessVar) :=
  let g1 := update_game_state g in
  let g2 :=
    if game_state_eqb (_game_state g1) UNFINISHED
    then set_player g1 (other (_current_player g1))
    else g1 in
  Ret (true, g2).

Definition make_move (fuel : nat) (g : ChessVar) (start_square end_square : string)
  : outcome (bool * ChessVar) :=
  if negb (game_state_eqb (_game_state g) UNFINISHED) then Ret (false, g)
  else
    let* (start_row, start_col) := chess_notation_to_index start_square in
    let* (end_row, end_col) := chess_notation_to_index end_square in
    let* valid := is_valid_move fuel g start_row start_col end_row end_col in
    if negb valid then Ret (false, g)
    else
      let* moving_piece := board_get (_game_board g) start_row start_col in
      let* captured_piece := board_get (_game_board g) end_row end_col in
      (* temporarily execute the move *)
      let* b1 := board_set (_game_board g) start_row start_col "." in
      let* b2 := board_set b1 end_row end_col moving_piece in
      let g2 := set_board g b2 in
      if negb (captured_piece =? ".")%char then
        let* ok := simulate_explosion g2 end_row end_col in
        if negb ok then
          (* revert the move *)
          let* b3 := board_set (_game_board g2) start_row start_col moving_piece in
          let* b4 := board_set b3 end_row end_col captured_piece in
          Ret (false, set_board g2 b4)
        else
          (* the value [explode] returns is dropped *)
          let* r := explode g2 end_row end_col in
          finish_move r.2
      else finish_move g2.

(** A sequence of calls; the booleans returned are collected in order. *)
Fixpoint play (fuel : nat) (g : ChessVar) (moves : list (string * string))
  : outcome (list bool * ChessVar) :=
  match moves with
  | [] => Ret ([], g)
  | (a, b) :: rest =>
      let* (r, g') := make_move fuel g a b in
      let* (rs, g'') := play fuel g' rest in
      Ret (r :: rs, g'')
  end.

(** ** Notions used in the statements *)

(** The board read and written at natural-number coordinates. *)
Definition cell (b : board) (r c : nat) : option ascii :=
  match b !! r with
  | Some row => row !! c
  | None => None
  end.

Definition put (b : board) (r c : nat) (x : ascii) : board :=
  match b !! r with
  | Some row => <[r := <[c := x]> row]> b
  | None => b
  end.

Definition shape (b : board) : list nat := map length b.

(** The colour of a piece letter: upper case is White, lower case is Black. *)
Definition color_of (piece : ascii) : option player :=
  if Py.isupper piece then Some WHITE
  else if Py.islower piece then Some BLACK
  else None.

(** Is letter [x] somewhere on the board? *)
Definition has_piece (b : board) (x : ascii) : bool :=
  existsb (existsb (fun piece => (piece =? x)%char)) b.

Definition opposite (p : player) : player :=
  match p with
  | WHITE => BLACK
  | BLACK => WHITE
  end.

(** The ways a call of [make_move] can run to its [return]. *)
Inductive make_move_path (fuel : nat) (g : ChessVar) (a b : string)
  : bool -> ChessVar -> Prop :=
| path_game_over :
    _game_state g <> UNFINISHED ->
    make_move_path fuel g a b false g
| path_illegal sr sc er ec :
    _game_state g = UNFINISHED ->
    chess_notation_to_index a = Ret (sr, sc) ->
    chess_notation_to_index b = Ret (er, ec) ->
    is_valid_move fuel g sr sc er ec = Ret false ->
    make_move_path fuel g a b false g
| path_quiet sr sc er ec moving b1 b2 v g' :
    _game_state g = UNFINISHED ->
    chess_notation_to_index a = Ret (sr, sc) ->
    chess_notation_to_index b = Ret (er, ec) ->
    is_valid_move fuel g sr sc er ec = Ret true ->
    board_get (_game_board g) sr sc = Ret moving ->
    board_get (_game_board g) er ec = Ret "."%char ->
    board_set (_game_board g) sr sc "." = Ret b1 ->
    board_set b1 er ec moving = Ret b2 ->
    finish_move (set_board g b2) = Ret (v, g') ->
    make_move_path fuel g a b v g'
| path_reverted sr sc er ec moving captured b1 b2 b3 b4 :
    _game_state g = UNFINISHED ->
    chess_notation_to_index a = Ret (sr, sc) ->
    chess_notation_to_index b = Ret (er, ec) ->
    is_valid_move fuel g sr sc er ec = Ret true ->
    board_get (_game_board g) sr sc = Ret moving ->
    board_get (_game_board g) er ec = Ret captured ->
    captured <> "."%char ->
    board_set (_game_board g) sr sc "." = Ret b1 ->
    board_set b1 er ec moving = Ret b2 ->
    simulate_explosion (set_board g b2) er ec = Ret false ->
    board_set b2 sr sc moving = Ret b3 ->
    board_set b3 er ec captured = Ret b4 ->
    make_move_path fuel g a b false (set_board (set_board g b2) b4)
| path_exploded sr sc er ec moving captured b1 b2 r v g' :
    _game_state g = UNFINISHED ->
    chess_notation_to_index a = Ret (sr, sc) ->
    chess_notation_to_index b = Ret (er, ec) ->
    is_valid_move fuel g sr sc er ec = Ret true ->
    board_get (_game_board g) sr sc = Ret moving ->
    board_get (_game_board g) er ec = Ret captured ->
    captured <> "."%char ->
    board_set (_game_board g) sr sc "." = Ret b1 ->
    board_set b1 er ec moving = Ret b2 ->
    simulate_explosion (set_board g b2) er ec = Ret true ->
    explode (set_board g b2) er ec = Ret r ->
    finish_move r.2 = Ret (v, g') ->
    make_move_path fuel g a b v g'.


(** A pawn's forward direction and the row it starts the game on. *)
Definition forward (piece : ascii) : Z := if Py.islower piece then 1 else -1.
Definition home_row (piece : ascii) : Z := if Py.islower piece then 1 else 6.

(** Two positions of the games played below: after d2-d4, g7-g5, and after
    e4, e5, Ke2, Ke7, Ke3, Ke6, Kf4, Kf5. *)
Definition position_bishop_takes : ChessVar :=
  mkChessVar
    (map row_of_string
       ["rnbqkbnr"; "pppppp.p"; "........"; "......p.";
        "...P...."; "........"; "PPP.PPPP"; "RNBQKBNR"]%string)
    WHITE UNFINISHED.

Definition position_kings_adjacent : ChessVar :=
  mkChessVar
    (map row_of_string
       ["rnbq.bnr"; "pppp.ppp"; "........"; "....pk..";
        "....PK.."; "........"; "PPPP.PPP"; "RNBQ.BNR"]%string)
    WHITE UNFINISHED.

(** After d2-d4 alone: Black to move, Black's bishop on c8. *)
Definition position_after_d4 : ChessVar :=
  mkChessVar
    (map row_of_string
       ["rnbqkbnr"; "pppppppp"; "........"; "........";
        "...P...."; "........"; "PPP.PPPP"; "RNBQKBNR"]%string)
    BLACK UNFINISHED.


(** The same game two plies later (d2-d4, a7-a6): White's pawn on d4 can
    take the pawn on e5, next to both kings. *)
Definition position_pawn_beside_kings : ChessVar :=
  mkChessVar
    (map row_of_string
       ["rnbq.bnr"; ".ppp.ppp"; "p......."; "....pk..";
        "...PPK.."; "........"; "PPP..PPP"; "RNBQ.BNR"]%string)
    WHITE UNFINISHED.

(** The class invariant: eight rows of eight cells, each cell one of the
    thirteen characters the source writes. *)
Definition is_cell (x : ascii) : bool :=
  existsb (fun y => (x =? y)%char) (list_ascii_of_string ".pnbrqkPNBRQK").

Definition wf_row (row : list ascii) : bool :=
  (length row =? 8)%nat && forallb is_cell row.

Definition wf_board (b : board) : bool :=
  (length b =? 8)%nat && forallb wf_row b.

Definition wf (g : ChessVar) : Prop := wf_board (_game_board g) = true.

(** A square named the usual way: a file from a to h, then a rank from 1 to 8. *)
Definition is_square (s : string) : bool :=
  match s with
  | String file (String rank EmptyString) =>
      (Py.ord "a" <=? Py.ord file) && (Py.ord file <=? Py.ord "h")
      && (Py.ord "1" <=? Py.ord rank) && (Py.ord rank <=? Py.ord "8")
  | _ => false
  end.

(** The states a game can be in: the new game, and whatever a returning call
    of [make_move] leaves. *)
Inductive reachable : ChessVar -> Prop :=
| reachable_init : reachable init
| reachable_move fuel g a b v g' :
    reachable g ->
    make_move fuel g a b = Ret (v, g') ->
    reachable g'.

(** ** Notions used in the further properties *)

(** What [chess_notation_to_index] accepts: two characters, the second a
    decimal digit. *)
Definition is_digit (c : ascii) : bool := (48 <=? Py.ord c) && (Py.ord c <=? 57).

Definition well_formed_notation (s : string) : bool :=
  match s with
  | String _ (String rank EmptyString) => is_digit rank
  | _ => false
  end.

(** The name of the square at a row and a column of the board. *)
Definition square_of_index (r c : Z) : string :=
  String (ascii_of_N (Z.to_N (97 + c)))
    (String (ascii_of_N (Z.to_N (56 - r))) EmptyString).

(** [x] lies strictly between [a] and [b], whichever is the larger. *)
Definition strictly_between (a x b : Z) : Prop := a < x < b \/ b < x < a.

(** [handle_explosion] (no other method calls it) *)
Definition handle_scan (b : board) (row col : Z) : outcome flags :=
  for_each (fun fl r =>
    for_each (fun (fl : flags) c =>
      let* p1 := board_get b r c in
      let fl1 := if (p1 =? "K")%char then (true, fl.2) else fl in
      let* p2 := board_get b r c in
      let fl2 := if (p2 =? "k")%char then (fl1.1, true) else fl1 in
      Ret fl2) (blast_cols col) fl) (blast_rows row) (false, false).

Definition handle_explosion (g : ChessVar) (row col : Z) : outcome (bool * ChessVar) :=
  let* fl := handle_scan (_game_board g) row col in
  if fl.1 && fl.2 then Ret (false, g)
  else
    (* [explode] changes the object; the value it returns is dropped *)
    let* r := explode g row col in
    Ret (true, r.2).

(** Letter [x] stands on a cell of the blast radius of ([row], [col]): the
    3x3 neighbourhood, clipped at the edges of the board. *)
Definition in_blast (row col r c : Z) : Prop :=
  0 <= r < 8 /\ 0 <= c < 8 /\ Z.abs (r - row) <= 1 /\ Z.abs (c - col) <= 1.

Definition piece_in_blast (b : board) (row col : Z) (x : ascii) : Prop :=
  exists r c, in_blast row col r c /\ board_get b r c = Ret x.

Definition unit_if (c : bool) : nat := if c then 1%nat else 0%nat.

(** How many cells of the board hold letter [x]. *)
Definition count_row (row : list ascii) (x : ascii) : nat :=
  length (List.filter (fun p => (p =? x)%char) row).

Definition count_piece (b : board) (x : ascii) : nat :=
  list_sum (map (fun row => count_row row x) b).

(** The state [update_game_state] reads off the board, when exactly the
    kings left on it decide. *)
Definition state_of_kings (b : board) : game_state :=
  if has_piece b "K" then (if has_piece b "k" then UNFINISHED else WHITE_WON)
  else BLACK_WON.

(** The two kings, each with the other king and the state [explode] sets
    when it removes it. *)
Inductive king_pair : ascii -> ascii -> game_state -> Prop :=
| white_king_lost : king_pair "K" "k" BLACK_WON
| black_king_lost : king_pair "k" "K" WHITE_WON.

(** An ASCII string: every character has a code below 128.  On these the
    8-bit characters of the model are Python's characters. *)
Definition is_ascii_string (s : string) : bool :=
  forallb (fun c => Py.ord c <? 128) (list_ascii_of_string s).

(** The index pairs the [while] loop of [is_valid_bishop_move] hands to
    [self._game_board[..][..]], in the order it reads them: the loop of
    [bishop_scan] again, keeping the indices instead of the answer. *)
Fixpoint bishop_scan_reads (fuel : nat) (b : board) (end_row end_col step_row step_col : Z)
  (current_row current_col : Z) : list (Z * Z) :=
  match fuel with
  | O => []
  | S fuel' =>
      if negb (current_row =? end_row) && negb (current_col =? end_col) then
        (current_row, current_col) ::
        match board_get b current_row current_col with
        | Ret p =>
            if negb (p =? ".")%char then []
            else bishop_scan_reads fuel' b end_row end_col step_row step_col
                   (current_row + step_row) (current_col + step_col)
        | _ => []
        end
      else []
  end.

Definition is_valid_bishop_move_reads (fuel : nat) (g : ChessVar)
  (start_row start_col end_row end_col : Z) : list (Z * Z) :=
  if negb (Z.abs (start_row - end_row) =? Z.abs (start_col - end_col)) then []
  else
    let step_row := if end_row >? start_row then 1 else -1 in
    let step_col := if end_col >? start_col then 1 else -1 in
    bishop_scan_reads fuel (_game_board g) end_row end_col step_row step_col
      (start_row + step_row) (start_col + step_col).

(** * Properties *)

(** ** Outcomes *)

Lemma bind_Ret_inv {A B : Type} (m : outcome A) (f : A -> outcome B) (v : B) :
  outcome_bind m f = Ret v -> exists x, m = Ret x /\ f x = Ret v.
Proof. destruct m as [x| |]; simpl; intros H; try discriminate. exists x. auto. Qed.

(** Split a hypothesis [let* x := m in k = Ret v] into its two steps. *)
Ltac bind_inv H :=
  let x := fresh "x" in
  let Hx := fresh "Hx" in
  apply bind_Ret_inv in H; destruct H as (x & Hx & H).

(** ** Lists indexed the Python way *)

Section Indexing.
Context {A : Type}.
Implicit Types (l : list A) (i : Z).

Lemma getitem_nonneg l i :
  0 <= i ->
  Py.getitem l i = match l !! Z.to_nat i with
                   | Some x => Ret x
                   | None => Raise IndexError
                   end.
Proof.
  intros Hi. unfold Py.getitem, Py.norm_index.
  assert (E : (i <? 0) = false) by (apply Z.ltb_ge; lia).
  rewrite !E. simpl.
  destruct (Z.leb_spec (Z.of_nat (length l)) i) as [Hge|Hlt]; [|reflexivity].
  rewrite (proj2 (lookup_ge_None l (Z.to_nat i))); [reflexivity | lia].
Qed.

Lemma setitem_nonneg l i (x : A) :
  0 <= i ->
  Py.setitem l i x = match l !! Z.to_nat i with
                     | Some _ => Ret (<[Z.to_nat i := x]> l)
                     | None => Raise IndexError
                     end.
Proof.
  intros Hi. unfold Py.setitem, Py.norm_index.
  assert (E : (i <? 0) = false) by (apply Z.ltb_ge; lia).
  rewrite !E. simpl.
  destruct (Z.leb_spec (Z.of_nat (length l)) i) as [Hge|Hlt].
  - rewrite (proj2 (lookup_ge_None l (Z.to_nat i))); [reflexivity | lia].
  - destruct (lookup_lt_is_Some_2 l (Z.to_nat i)) as [y ->]; [lia | reflexivity].
Qed.

(** A negative index reads the element [length l] places further on. *)
Lemma getitem_wrap l i :
  - Z.of_nat (length l) <= i < 0 ->
  Py.getitem l i = Py.getitem l (i + Z.of_nat (length l)).
Proof.
  intros Hi. unfold Py.getitem, Py.norm_index.
  assert (E1 : (i <? 0) = true) by (apply Z.ltb_lt; lia).
  assert (E2 : (i + Z.of_nat (length l) <? 0) = false) by (apply Z.ltb_ge; lia).
  rewrite E1, !E2. reflexivity.
Qed.

Lemma getitem_valid l i :
  - Z.of_nat (length l) <= i < Z.of_nat (length l) ->
  exists x, Py.getitem l i = Ret x.
Proof.
  intros Hi. destruct (Z.ltb_spec i 0) as [Hneg|Hpos].
  - rewrite getitem_wrap by lia. rewrite getitem_nonneg by lia.
    destruct (lookup_lt_is_Some_2 l (Z.to_nat (i + Z.of_nat (length l)))) as [y ->];
      [lia | eauto].
  - rewrite getitem_nonneg by lia.
    destruct (lookup_lt_is_Some_2 l (Z.to_nat i)) as [y ->]; [lia | eauto].
Qed.

End Indexing.

(** ** The board as a partial map from squares to cells *)

Lemma board_get_nonneg (b : board) (r c : Z) :
  0 <= r -> 0 <= c ->
  board_get b r c = match cell b (Z.to_nat r) (Z.to_nat c) with
                    | Some x => Ret x
                    | None => Raise IndexError
                    end.
Proof.
  intros Hr Hc. unfold board_get, cell. rewrite getitem_nonneg by assumption.
  destruct (b !! Z.to_nat r) as [row|]; simpl; [|reflexivity].
  apply getitem_nonneg; assumption.
Qed.

Lemma board_set_nonneg (b : board) (r c : Z) (x : ascii) :
  0 <= r -> 0 <= c ->
  board_set b r c x = match cell b (Z.to_nat r) (Z.to_nat c) with
                      | Some _ => Ret (put b (Z.to_nat r) (Z.to_nat c) x)
                      | None => Raise IndexError
                      end.
Proof.
  intros Hr Hc. unfold board_set, cell, put. rewrite getitem_nonneg by assumption.
  destruct (b !! Z.to_nat r) as [row|] eqn:Hrow; simpl; [|reflexivity].
  rewrite setitem_nonneg by assumption.
  destruct (row !! Z.to_nat c); simpl; [|reflexivity].
  rewrite setitem_nonneg by assumption. rewrite Hrow. reflexivity.
Qed.

Lemma cell_put (b : board) (r c r' c' : nat) (x y : ascii) :
  cell b r c = Some y ->
  cell (put b r c x) r' c' =
  if decide (r = r' /\ c = c') then Some x else cell b r' c'.
Proof.
  unfold cell, put. destruct (b !! r) as [row|] eqn:Hrow; [|discriminate].
  intros Hc.
  assert (Hr : (r < length b)%nat) by (apply lookup_lt_is_Some; eauto).
  assert (Hc' : (c < length row)%nat) by (apply lookup_lt_is_Some; eauto).
  destruct (decide (r = r')) as [<-|Hne].
  - rewrite list_lookup_insert_eq by assumption.
    destruct (decide (c = c')) as [<-|Hnc].
    + rewrite list_lookup_insert_eq by assumption.
      rewrite decide_True by auto. reflexivity.
    + rewrite list_lookup_insert_ne by assumption.
      rewrite decide_False by tauto. rewrite Hrow. reflexivity.
  - rewrite list_lookup_insert_ne by assumption.
    rewrite decide_False by tauto. reflexivity.
Qed.


Lemma shape_put (b : board) (r c : nat) (x : ascii) : shape (put b r c x) = shape b.
Proof.
  unfold shape, put. destruct (b !! r) as [row|] eqn:Hrow; [|reflexivity].
  apply list_eq. intros i.
  change (map length ?l) with (length <$> l). rewrite !list_lookup_fmap.
  destruct (decide (r = i)) as [<-|Hne].
  - rewrite list_lookup_insert_eq by (apply lookup_lt_is_Some; eauto).
    rewrite Hrow. simpl. rewrite length_insert. reflexivity.
  - rewrite list_lookup_insert_ne by assumption. reflexivity.
Qed.

Lemma board_ext (b b' : board) :
  shape b = shape b' ->
  (forall r c, cell b r c = cell b' r c) ->
  b = b'.
Proof.
  intros Hs Hc. apply list_eq. intros r.
  assert (Hl : (length <$> b) !! r = (length <$> b') !! r)
    by (unfold shape in Hs; change (map length ?l) with (length <$> l) in Hs; rewrite Hs; reflexivity).
  rewrite !list_lookup_fmap in Hl.
  specialize (Hc r). unfold cell in Hc.
  destruct (b !! r) as [row|], (b' !! r) as [row'|]; simpl in Hl; try discriminate; [|reflexivity].
  f_equal. apply list_eq. intros c. apply Hc.
Qed.

(** ** Loops *)

Lemma for_each_inv {A S : Type} (I : S -> Prop) (body : S -> A -> outcome S) (l : list A) :
  (forall s x s', In x l -> I s -> body s x = Ret s' -> I s') ->
  forall s s', I s -> for_each body l s = Ret s' -> I s'.
Proof.
  induction l as [|x l IH]; simpl; intros Hbody s s' Hs H.
  - injection H as <-. exact Hs.
  - bind_inv H. eapply IH; [ | | exact H].
    + intros s1 y s2 Hy. apply Hbody. right. exact Hy.
    + eapply Hbody; [left; reflexivity | exact Hs | exact Hx].
Qed.

Lemma in_range (lo hi x : Z) : In x (Py.range lo hi) <-> lo <= x < hi.
Proof.
  unfold Py.range. rewrite in_map_iff. split.
  - intros (k & <- & Hk). apply in_seq in Hk. lia.
  - intros Hx. exists (Z.to_nat (x - lo)). split; [lia|]. apply in_seq. lia.
Qed.

Lemma in_blast_rows (row r : Z) : In r (blast_rows row) -> 0 <= r < 8 /\ Z.abs (r - row) <= 1.
Proof. unfold blast_rows. rewrite in_range. lia. Qed.

Lemma in_blast_cols (col c : Z) : In c (blast_cols col) -> 0 <= c < 8 /\ Z.abs (c - col) <= 1.
Proof. unfold blast_cols. rewrite in_range. lia. Qed.

Lemma blast_rows_in (row r : Z) : 0 <= r < 8 -> Z.abs (r - row) <= 1 -> In r (blast_rows row).
Proof. unfold blast_rows. rewrite in_range. lia. Qed.

Lemma blast_cols_in (col c : Z) : 0 <= c < 8 -> Z.abs (c - col) <= 1 -> In c (blast_cols col).
Proof. unfold blast_cols. rewrite in_range. lia. Qed.

(** ** Characters *)

Lemma char_eqb_true (x y : ascii) : (x =? y)%char = true <-> x = y.
Proof. apply Ascii.eqb_eq. Qed.

Lemma char_eqb_false (x y : ascii) : (x =? y)%char = false <-> x <> y.
Proof. apply Ascii.eqb_neq. Qed.

Lemma lower_is_k (p : ascii) :
  (Py.lower p =? "k")%char = ((p =? "K")%char || (p =? "k")%char).
Proof. destruct p as [[] [] [] [] [] [] [] []]; reflexivity. Qed.



Lemma king_scan_row (row : list ascii) (fl : flags) :
  fold_left (fun (fl : flags) piece =>
      let fl1 := if (piece =? "K")%char then (true, fl.2) else fl in
      if (piece =? "k")%char then (fl1.1, true) else fl1) row fl
  = (fl.1 || existsb (fun piece => (piece =? "K")%char) row,
     fl.2 || existsb (fun piece => (piece =? "k")%char) row).
Proof.
  revert fl. induction row as [|p row IH]; intros [w k]; simpl.
  - rewrite !orb_false_r. reflexivity.
  - rewrite IH.
    destruct (p =? "K")%char eqn:EK, (p =? "k")%char eqn:Ek; simpl;
      rewrite ?orb_true_r, ?orb_false_r; try reflexivity;
      try (apply char_eqb_true in EK, Ek; congruence);
      destruct w, k; reflexivity.
Qed.

Lemma king_scan_has (b : board) : king_scan b = (has_piece b "K", has_piece b "k").
Proof.
  unfold king_scan, has_piece.
  enough (G : forall fl : flags,
    fold_left (fun fl row =>
      fold_left (fun (fl : flags) piece =>
        let fl1 := if (piece =? "K")%char then (true, fl.2) else fl in
        if (piece =? "k")%char then (fl1.1, true) else fl1) row fl) b fl
    = (fl.1 || existsb (existsb (fun piece => (piece =? "K")%char)) b,
       fl.2 || existsb (existsb (fun piece => (piece =? "k")%char)) b))
    by (rewrite G; reflexivity).
  induction b as [|row b IH]; intros [w k]; simpl.
  - rewrite !orb_false_r. reflexivity.
  - rewrite king_scan_row, IH. simpl. rewrite !orb_assoc. reflexivity.
Qed.

Lemma update_game_state_spec (g : ChessVar) :
  update_game_state g =
  if negb (has_piece (_game_board g) "K") then set_state g BLACK_WON
  else if negb (has_piece (_game_board g) "k") then set_state g WHITE_WON
  else g.
Proof. unfold update_game_state. rewrite king_scan_has. reflexivity. Qed.

Lemma update_game_state_board (g : ChessVar) :
  _game_board (update_game_state g) = _game_board g.
Proof.
  unfold update_game_state.
  destruct (negb (king_scan (_game_board g)).1); [reflexivity|].
  destruct (negb (king_scan (_game_board g)).2); reflexivity.
Qed.

Lemma update_game_state_player (g : ChessVar) :
  _current_player (update_game_state g) = _current_player g.
Proof.
  unfold update_game_state.
  destruct (negb (king_scan (_game_board g)).1); [reflexivity|].
  destruct (negb (king_scan (_game_board g)).2); reflexivity.
Qed.

(** ** The explosion keeps the player to move *)

Lemma explode_cell_player (r c : Z) (g g' : ChessVar) :
  explode_cell r g c = Ret g' -> _current_player g' = _current_player g.
Proof.
  unfold explode_cell. intros H. bind_inv H.
  destruct (negb (x =? ".")%char).
  - bind_inv H. injection H as <-. simpl.
    destruct (is_king x); [destruct (x =? "K")%char|]; reflexivity.
  - injection H as <-. reflexivity.
Qed.

Lemma explode_apply_player (g g' : ChessVar) (row col : Z) :
  explode_apply g row col = Ret g' -> _current_player g' = _current_player g.
Proof.
  unfold explode_apply.
  apply (for_each_inv (fun s => _current_player s = _current_player g)); [|reflexivity].
  intros s r s' _ Hs.
  apply (for_each_inv (fun s => _current_player s = _current_player g)); [|exact Hs].
  intros s1 c s2 _ Hs1 Hc. rewrite <- Hs1. eapply explode_cell_player, Hc.
Qed.

Lemma explode_player (g g' : ChessVar) (row col : Z) (v : bool) :
  explode g row col = Ret (v, g') -> _current_player g' = _current_player g.
Proof.
  unfold explode. intros H. bind_inv H.
  destruct (x.1 && x.2).
  - injection H as _ <-. reflexivity.
  - bind_inv H. injection H as _ <-. eapply explode_apply_player, Hx0.
Qed.

(** ** Fuel: once the diagonal scan has an answer, more fuel gives the same *)

Lemma bishop_scan_mono (f f' : nat) (b : board) (er ec step_row step_col cr cc : Z)
  (o : outcome bool) :
  bishop_scan f b er ec step_row step_col cr cc = o ->
  o <> OutOfFuel ->
  (f <= f')%nat ->
  bishop_scan f' b er ec step_row step_col cr cc = o.
Proof.
  revert f' cr cc. induction f as [|f IH]; intros f' cr cc H Ho Hle.
  - simpl in H. congruence.
  - destruct f' as [|f']; [lia|]. simpl in *.
    destruct (negb (cr =? er) && negb (cc =? ec)); [|exact H].
    destruct (board_get b cr cc) as [p| |]; simpl in *; try exact H.
    destruct (negb (p =? ".")%char); [exact H|].
    apply IH; [exact H | exact Ho | lia].
Qed.

Lemma is_valid_bishop_move_mono (f f' : nat) (g : ChessVar) (sr sc er ec : Z)
  (o : outcome bool) :
  is_valid_bishop_move f g sr sc er ec = o ->
  o <> OutOfFuel ->
  (f <= f')%nat ->
  is_valid_bishop_move f' g sr sc er ec = o.
Proof.
  unfold is_valid_bishop_move. intros H Ho Hle.
  destruct (negb (Z.abs (sr - er) =? Z.abs (sc - ec))); [exact H|].
  eapply bishop_scan_mono; eassumption.
Qed.

Lemma bind_settled {A B : Type} (m : outcome A) (k : A -> outcome B) :
  outcome_bind m k <> OutOfFuel -> m <> OutOfFuel.
Proof. destruct m; simpl; congruence. Qed.

Lemma is_valid_queen_move_mono (f f' : nat) (g : ChessVar) (sr sc er ec : Z)
  (o : outcome bool) :
  is_valid_queen_move f g sr sc er ec = o ->
  o <> OutOfFuel ->
  (f <= f')%nat ->
  is_valid_queen_move f' g sr sc er ec = o.
Proof.
  unfold is_valid_queen_move. intros H Ho Hle. subst o.
  rewrite (is_valid_bishop_move_mono f f' g sr sc er ec _ eq_refl); [reflexivity| |exact Hle].
  eapply bind_settled, Ho.
Qed.

Lemma is_valid_move_mono (f f' : nat) (g : ChessVar) (sr sc er ec : Z) (o : outcome bool) :
  is_valid_move f g sr sc er ec = o ->
  o <> OutOfFuel ->
  (f <= f')%nat ->
  is_valid_move f' g sr sc er ec = o.
Proof.
  unfold is_valid_move. intros H Ho Hle.
  destruct (negb _); [exact H|].
  destruct (negb _); [exact H|].
  destruct (board_get (_game_board g) sr sc) as [piece| |]; simpl in *; try exact H.
  destruct (piece =? ".")%char; [exact H|].
  destruct (_ || _); [exact H|].
  destruct (Py.lower piece =? "p")%char; [exact H|].
  destruct (Py.lower piece =? "n")%char; [exact H|].
  destruct (Py.lower piece =? "b")%char;
    [eapply is_valid_bishop_move_mono; eassumption|].
  destruct (Py.lower piece =? "r")%char; [exact H|].
  destruct (Py.lower piece =? "q")%char; [|exact H].
  eapply is_valid_queen_move_mono; eassumption.
Qed.

Lemma make_move_mono (f f' : nat) (g : ChessVar) (a b : string)
  (o : outcome (bool * ChessVar)) :
  make_move f g a b = o ->
  o <> OutOfFuel ->
  (f <= f')%nat ->
  make_move f' g a b = o.
Proof.
  unfold make_move. intros H Ho Hle. subst o.
  destruct (negb (game_state_eqb (_game_state g) UNFINISHED)); [reflexivity|].
  destruct (chess_notation_to_index a) as [[sr sc]| |]; simpl in *; try reflexivity.
  destruct (chess_notation_to_index b) as [[er ec]| |]; simpl in *; try reflexivity.
  rewrite (is_valid_move_mono f f' g sr sc er ec _ eq_refl); [reflexivity| |exact Hle].
  eapply bind_settled, Ho.
Qed.

Lemma play_mono (f f' : nat) (moves : list (string * string)) (g : ChessVar)
  (r : list bool * ChessVar) :
  play f g moves = Ret r ->
  (f <= f')%nat ->
  play f' g moves = Ret r.
Proof.
  revert g r. induction moves as [|[a b] moves IH]; simpl; intros g r H Hle; [exact H|].
  bind_inv H. destruct x as [v g1]. bind_inv H. destruct x as [vs g2].
  rewrite (make_move_mono f f' g a b _ Hx) by (congruence || exact Hle). simpl.
  rewrite (IH _ _ Hx0 Hle). simpl. exact H.
Qed.

(** ** Every returning call of [make_move] follows one of the five paths *)

Lemma game_state_eqb_eq (p q : game_state) : game_state_eqb p q = true <-> p = q.
Proof. destruct p, q; simpl; split; congruence. Qed.

Lemma make_move_paths (fuel : nat) (g : ChessVar) (a b : string) (v : bool) (g' : ChessVar) :
  make_move fuel g a b = Ret (v, g') -> make_move_path fuel g a b v g'.
Proof.
  unfold make_move. intros H.
  destruct (game_state_eqb (_game_state g) UNFINISHED) eqn:Hst; simpl in H.
  2:{ injection H as <- <-. apply path_game_over. intros E.
      apply game_state_eqb_eq in E. congruence. }
  apply game_state_eqb_eq in Hst.
  bind_inv H. destruct x as [sr sc]. bind_inv H. destruct x as [er ec].
  bind_inv H. destruct x as [|]; simpl in H.
  2:{ injection H as <- <-. eapply path_illegal; eassumption. }
  bind_inv H. rename x into moving. bind_inv H. rename x into captured.
  bind_inv H. rename x into b1. bind_inv H. rename x into b2.
  destruct (captured =? ".")%char eqn:Hcap; simpl in H.
  - apply char_eqb_true in Hcap. subst captured.
    eapply path_quiet; eassumption.
  - apply char_eqb_false in Hcap.
    bind_inv H. destruct x as [|]; simpl in H.
    + bind_inv H. eapply path_exploded; eassumption.
    + bind_inv H. bind_inv H. injection H as <- <-.
      eapply path_reverted; eassumption.
Qed.

Lemma finish_move_spec (g : ChessVar) (v : bool) (g' : ChessVar) :
  finish_move g = Ret (v, g') ->
  v = true /\
  _game_board g' = _game_board g /\
  _game_state g' = _game_state (update_game_state g) /\
  _current_player g' =
    (if game_state_eqb (_game_state g') UNFINISHED
     then other (_current_player g) else _current_player g).
Proof.
  unfold finish_move. intros H. injection H as <- <-.
  destruct (game_state_eqb (_game_state (update_game_state g)) UNFINISHED) eqn:E; simpl;
    rewrite ?E, ?update_game_state_board, ?update_game_state_player; auto.
Qed.

(** ** The opening of the source's closing comment *)

(** C4: from a new game, d2-d4, g7-g5 and c1xg5 are each accepted, and the
    game is still unfinished after the third call; the capture on g5 removes
    the bishop and the pawn it took and nothing else. *)
Theorem opening_sequence_accepted (fuel : nat) :
  (4 <= fuel)%nat ->
  exists g1 g2 g3,
    make_move fuel init "d2" "d4" = Ret (true, g1) /\
    make_move fuel g1 "g7" "g5" = Ret (true, g2) /\
    make_move fuel g2 "c1" "g5" = Ret (true, g3) /\
    get_game_state g3 = UNFINISHED /\
    _game_board g3 =
      map row_of_string
        ["rnbqkbnr"; "pppppp.p"; "........"; "........";
         "...P...."; "........"; "PPP.PPPP"; "RN.QKBNR"]%string.
Proof.
  intros Hfuel.
  destruct (make_move 4 init "d2" "d4") as [[v1 g1]| |] eqn:E1; try (vm_compute in E1; discriminate).
  destruct (make_move 4 g1 "g7" "g5") as [[v2 g2]| |] eqn:E2;
    try (vm_compute in E1; injection E1 as <- <-; vm_compute in E2; discriminate).
  destruct (make_move 4 g2 "c1" "g5") as [[v3 g3]| |] eqn:E3;
    try (vm_compute in E1; injection E1 as <- <-; vm_compute in E2; injection E2 as <- <-;
         vm_compute in E3; discriminate).
  exists g1, g2, g3.
  assert (Hv : v1 = true /\ v2 = true /\ v3 = true /\ get_game_state g3 = UNFINISHED /\
               _game_board g3 =
               map row_of_string
                 ["rnbqkbnr"; "pppppp.p"; "........"; "........";
                  "...P...."; "........"; "PPP.PPPP"; "RN.QKBNR"]%string).
  { pose proof E1 as F1. pose proof E2 as F2. pose proof E3 as F3.
    vm_compute in F1. injection F1 as <- <-.
    vm_compute in F2. injection F2 as <- <-.
    vm_compute in F3. injection F3 as <- <-.
    vm_compute. auto. }
  destruct Hv as (-> & -> & -> & Hst & Hb).
  refine (conj _ (conj _ (conj _ (conj Hst Hb)))).
  - eapply make_move_mono; [exact E1 | discriminate | exact Hfuel].
  - eapply make_move_mono; [exact E2 | discriminate | exact Hfuel].
  - eapply make_move_mono; [exact E3 | discriminate | exact Hfuel].
Qed.

Lemma opening_sequence_accepted_witness :
  (4 <= 4)%nat /\
  exists g1 g2 g3,
    make_move 4 init "d2" "d4" = Ret (true, g1) /\
    make_move 4 g1 "g7" "g5" = Ret (true, g2) /\
    make_move 4 g2 "c1" "g5" = Ret (true, g3) /\
    get_game_state g3 = UNFINISHED /\
    _game_board g3 =
      map row_of_string
        ["rnbqkbnr"; "pppppp.p"; "........"; "........";
         "...P...."; "........"; "PPP.PPPP"; "RN.QKBNR"]%string.
Proof. split; [lia | apply (opening_sequence_accepted 4); lia]. Defined.

(** ** The end of the game *)



(** ** Whose turn it is *)

Lemma other_opposite (p : player) : other p = opposite p.
Proof. destruct p; reflexivity. Qed.

(** C8: after an accepted move the turn has passed to the opposite colour
    when the game is still unfinished, and has stayed where it was when the
    game is over. *)
Theorem turn_after_accepted_move (fuel : nat) (g : ChessVar) (a b : string) (g' : ChessVar) :
  make_move fuel g a b = Ret (true, g') ->
  (_game_state g' = UNFINISHED -> _current_player g' = opposite (_current_player g)) /\
  (_game_state g' <> UNFINISHED -> _current_player g' = _current_player g).
Proof.
  intros H. apply make_move_paths in H.
  assert (G : exists g3, finish_move g3 = Ret (true, g') /\
                         _current_player g3 = _current_player g).
  { inversion H; subst.
    - eexists; split; [eassumption | reflexivity].
    - eexists; split; [eassumption|].
      destruct r as [v3 g3]. simpl.
      match goal with E : explode _ _ _ = Ret _ |- _ => apply explode_player in E; exact E end. }
  destruct G as (g3 & Hfin & Hp).
  apply finish_move_spec in Hfin. destruct Hfin as (_ & _ & _ & Hturn).
  rewrite Hp in Hturn. split; intros Hst.
  - rewrite Hturn, Hst. simpl. apply other_opposite.
  - rewrite Hturn. destruct (game_state_eqb (_game_state g') UNFINISHED) eqn:E; [|reflexivity].
    apply game_state_eqb_eq in E. contradiction.
Qed.

Lemma turn_after_accepted_move_witness :
  exists g',
    make_move 4 init "d2" "d4" = Ret (true, g') /\
    (_game_state g' = UNFINISHED -> _current_player g' = opposite (_current_player init)) /\
    (_game_state g' <> UNFINISHED -> _current_player g' = _current_player init).
Proof.
  eexists. split; [vm_compute; reflexivity|].
  apply (turn_after_accepted_move 4 init "d2" "d4"). vm_compute. reflexivity.
Defined.

(** ** Moving the opponent's piece *)

(** C6: a call whose start square holds a piece of the colour that is not
    to move returns [False] and changes nothing, wherever the end square is. *)
Theorem opponent_piece_rejected (fuel : nat) (g : ChessVar) (a b : string)
  (sr sc : Z) (e : Z * Z) (piece : ascii) :
  chess_notation_to_index a = Ret (sr, sc) ->
  chess_notation_to_index b = Ret e ->
  is_on_board sr sc = true ->
  board_get (_game_board g) sr sc = Ret piece ->
  color_of piece = Some (opposite (_current_player g)) ->
  make_move fuel g a b = Ret (false, g).
Proof.
  intros Ha Hb Hon Hget Hcol. unfold make_move.
  destruct (negb (game_state_eqb (_game_state g) UNFINISHED)); [reflexivity|].
  rewrite Ha. simpl. rewrite Hb. destruct e as [er ec]. simpl.
  assert (Hv : is_valid_move fuel g sr sc er ec = Ret false).
  { unfold is_valid_move. unfold is_on_board in Hon. rewrite Hon. simpl.
    destruct (negb _); [reflexivity|].
    rewrite Hget. simpl.
    destruct (piece =? ".")%char; [reflexivity|].
    unfold color_of in Hcol.
    destruct (_current_player g); simpl in *.
    - destruct (Py.isupper piece); [discriminate|].
      destruct (Py.islower piece); [reflexivity | discriminate].
    - destruct (Py.isupper piece); [reflexivity|].
      destruct (Py.islower piece); discriminate. }
  rewrite Hv. reflexivity.
Qed.

Lemma opponent_piece_rejected_witness :
  make_move 8 init "e7" "e5" = Ret (false, init).
Proof.
  apply (opponent_piece_rejected 8 init "e7" "e5" 1 4 (3, 4) "p"); reflexivity.
Defined.

(** ** The king *)

Lemma is_king_occupied (k : ascii) : is_king k = true -> k <> "."%char.
Proof. intros H ->. vm_compute in H. discriminate. Qed.

Lemma is_king_letter (k : ascii) : is_king k = true -> k = "K"%char \/ k = "k"%char.
Proof.
  unfold is_king. rewrite lower_is_k, orb_true_iff, !char_eqb_true. tauto.
Qed.

(** For the king of the side to move, on the board, [is_valid_move] is the
    king's rule. *)
Lemma is_valid_move_king (fuel : nat) (g : ChessVar) (sr sc er ec : Z) (k : ascii) :
  is_on_board sr sc = true ->
  is_on_board er ec = true ->
  board_get (_game_board g) sr sc = Ret k ->
  is_king k = true ->
  color_of k = Some (_current_player g) ->
  is_valid_move fuel g sr sc er ec = is_valid_king_move g sr sc er ec.
Proof.
  intros Hs He Hk Hking Hcol. unfold is_valid_move.
  unfold is_on_board in Hs, He. rewrite Hs, He. simpl. rewrite Hk. simpl.
  destruct (is_king_letter k Hking) as [-> | ->];
    destruct (_current_player g); try discriminate Hcol; reflexivity.
Qed.

(** C5: a king's move is legal exactly when it goes at most one row and one
    column away, not to its own square, onto an empty cell; onto an occupied
    cell it is never legal, so a king never captures.  The last part says
    that this rule is the whole judgment of [is_valid_move] for the king of
    the side to move. *)
Theorem king_move_rule (g : ChessVar) (sr sc er ec : Z) (k d : ascii) :
  board_get (_game_board g) sr sc = Ret k ->
  is_king k = true ->
  board_get (_game_board g) er ec = Ret d ->
  (is_valid_king_move g sr sc er ec = Ret true <->
   Z.abs (sr - er) <= 1 /\ Z.abs (sc - ec) <= 1 /\ (sr, sc) <> (er, ec) /\ d = "."%char) /\
  (is_valid_king_move g sr sc er ec = Ret true \/
   is_valid_king_move g sr sc er ec = Ret false) /\
  (d <> "."%char -> is_valid_king_move g sr sc er ec = Ret false) /\
  (forall fuel,
     is_on_board sr sc = true -> is_on_board er ec = true ->
     color_of k = Some (_current_player g) ->
     is_valid_move fuel g sr sc er ec = is_valid_king_move g sr sc er ec).
Proof.
  intros Hk Hking Hd.
  assert (Hlast : forall fuel,
     is_on_board sr sc = true -> is_on_board er ec = true ->
     color_of k = Some (_current_player g) ->
     is_valid_move fuel g sr sc er ec = is_valid_king_move g sr sc er ec)
    by (intros; apply (is_valid_move_king fuel g sr sc er ec k); assumption).
  unfold is_valid_king_move in *.
  destruct (Z.leb_spec (Z.abs (sr - er)) 1) as [Hr|Hr];
    destruct (Z.leb_spec (Z.abs (sc - ec)) 1) as [Hc|Hc]; simpl in *;
    try (split; [split; [discriminate | lia] | auto]).
  rewrite Hd in *. simpl in *.
  destruct (d =? ".")%char eqn:E.
  - apply char_eqb_true in E. subst d. split; [|split; [auto | split; [congruence | exact Hlast]]].
    split; [intros _|reflexivity]. repeat split; try assumption.
    intros Heq. injection Heq as <- <-.
    rewrite Hk in Hd. injection Hd as Hkd.
    apply is_king_occupied in Hking. congruence.
  - apply char_eqb_false in E. split; [|auto].
    split; [discriminate | tauto].
Qed.

Lemma king_move_rule_witness :
  is_valid_king_move init 7 4 6 4 = Ret false /\
  is_valid_move 8 init 7 4 6 4 = is_valid_king_move init 7 4 6 4.
Proof.
  split.
  - apply (king_move_rule init 7 4 6 4 "K" "P"); [reflexivity .. | discriminate].
  - apply (king_move_rule init 7 4 6 4 "K" "P"); reflexivity.
Defined.

(** ** The pawn's double step *)

(** For a pawn of the side to move, on the board, [is_valid_move] is the
    pawn's rule. *)
Lemma is_valid_move_pawn (fuel : nat) (g : ChessVar) (sr sc er ec : Z) (piece : ascii) :
  is_on_board sr sc = true ->
  is_on_board er ec = true ->
  board_get (_game_board g) sr sc = Ret piece ->
  piece = "p"%char \/ piece = "P"%char ->
  color_of piece = Some (_current_player g) ->
  is_valid_move fuel g sr sc er ec = is_valid_pawn_move g sr sc er ec.
Proof.
  intros Hs He Hp Hpiece Hcol. unfold is_valid_move.
  unfold is_on_board in Hs, He. rewrite Hs, He. simpl. rewrite Hp. simpl.
  destruct Hpiece as [-> | ->];
    destruct (_current_player g); try discriminate Hcol; reflexivity.
Qed.

(** C9: a pawn's two-step move straight ahead through two empty cells is
    legal exactly when the pawn stands on its home row (row 1 for Black, row
    6 for White); from any other row it is rejected.  The last part says that
    this is the judgment of [is_valid_move] when the pawn's side is to move. *)
Theorem pawn_double_step_rule (g : ChessVar) (sr sc er ec : Z) (piece : ascii) :
  is_on_board sr sc = true ->
  is_on_board er ec = true ->
  board_get (_game_board g) sr sc = Ret piece ->
  piece = "p"%char \/ piece = "P"%char ->
  ec = sc ->
  er = sr + 2 * forward piece ->
  board_get (_game_board g) (sr + forward piece) sc = Ret "."%char ->
  board_get (_game_board g) er ec = Ret "."%char ->
  (is_valid_pawn_move g sr sc er ec = Ret true <-> sr = home_row piece) /\
  (sr <> home_row piece -> is_valid_pawn_move g sr sc er ec = Ret false) /\
  (forall fuel,
     color_of piece = Some (_current_player g) ->
     is_valid_move fuel g sr sc er ec = is_valid_pawn_move g sr sc er ec).
Proof.
  intros Hs He Hp Hpiece -> -> Hmid Hdst.
  assert (Hlast : forall fuel,
     color_of piece = Some (_current_player g) ->
     is_valid_move fuel g sr sc (sr + 2 * forward piece) sc
     = is_valid_pawn_move g sr sc (sr + 2 * forward piece) sc)
    by (intros; apply (is_valid_move_pawn fuel g sr sc _ sc piece); assumption).
  unfold is_on_board in Hs, He.
  apply andb_prop in He as [He _]. apply andb_prop in He as [He _].
  apply andb_prop in He as [He1 He2].
  apply andb_prop in Hs as [Hs _]. apply andb_prop in Hs as [Hs _].
  apply andb_prop in Hs as [Hs1 Hs2].
  apply Z.leb_le in He1, Hs1. apply Z.ltb_lt in He2, Hs2.
  assert (Hdir : forward piece = (if Py.islower piece then 1 else -1)) by reflexivity.
  assert (Hrun : is_valid_pawn_move g sr sc (sr + 2 * forward piece) sc
                 = Ret ((sr =? 1) || (sr =? 6))).
  { unfold is_valid_pawn_move. rewrite Hp. simpl. rewrite <- Hdir.
    rewrite Z.eqb_refl, Hdst. simpl.
    replace (sr + forward piece =? sr + 2 * forward piece) with false
      by (symmetry; apply Z.eqb_neq; destruct Hpiece as [-> | ->]; vm_compute (forward _); lia).
    rewrite Z.eqb_refl. simpl.
    destruct ((sr =? 1) || (sr =? 6)) eqn:E.
    - rewrite Hmid. reflexivity.
    - simpl. rewrite Z.sub_diag. reflexivity. }
  rewrite Hrun.
  assert (Hhome : ((sr =? 1) || (sr =? 6)) = (sr =? home_row piece)).
  { destruct Hpiece as [-> | ->]; vm_compute (home_row _); vm_compute (forward _) in He1, He2;
      destruct (Z.eqb_spec sr 1), (Z.eqb_spec sr 6); simpl; try reflexivity; lia. }
  rewrite Hhome. split; [|split].
  - split; [intros H; injection H as H; apply Z.eqb_eq in H; exact H|].
    intros <-. rewrite Z.eqb_refl. reflexivity.
  - intros Hne. apply Z.eqb_neq in Hne. rewrite Hne. reflexivity.
  - intros fuel Hcol. rewrite (Hlast fuel Hcol), Hrun, Hhome. reflexivity.
Qed.

Lemma pawn_double_step_rule_witness :
  (is_valid_pawn_move init 6 3 4 3 = Ret true <-> 6 = home_row "P") /\
  (6 <> home_row "P" -> is_valid_pawn_move init 6 3 4 3 = Ret false) /\
  (forall fuel,
     color_of "P" = Some (_current_player init) ->
     is_valid_move fuel init 6 3 4 3 = is_valid_pawn_move init 6 3 4 3).
Proof.
  apply (pawn_double_step_rule init 6 3 4 3 "P"); try reflexivity. right. reflexivity.
Defined.

(** ** Rejected moves *)

Lemma is_on_board_bounds (r c : Z) : is_on_board r c = true <-> 0 <= r < 8 /\ 0 <= c < 8.
Proof. unfold is_on_board. rewrite !andb_true_iff, !Z.leb_le, !Z.ltb_lt. lia. Qed.

Lemma is_valid_move_on_board (fuel : nat) (g : ChessVar) (sr sc er ec : Z) :
  is_valid_move fuel g sr sc er ec = Ret true ->
  is_on_board sr sc = true /\ is_on_board er ec = true.
Proof.
  unfold is_valid_move, is_on_board. intros H.
  destruct ((0 <=? sr) && (sr <? 8) && (0 <=? sc) && (sc <? 8)); [|discriminate].
  destruct ((0 <=? er) && (er <? 8) && (0 <=? ec) && (ec <? 8)); [|discriminate].
  auto.
Qed.

Lemma board_get_cell (b : board) (r c : Z) (x : ascii) :
  0 <= r -> 0 <= c ->
  board_get b r c = Ret x <-> cell b (Z.to_nat r) (Z.to_nat c) = Some x.
Proof.
  intros Hr Hc. rewrite board_get_nonneg by assumption.
  destruct (cell b (Z.to_nat r) (Z.to_nat c)); split; congruence.
Qed.

Lemma board_set_put (b b' : board) (r c : Z) (x : ascii) :
  0 <= r -> 0 <= c ->
  board_set b r c x = Ret b' ->
  is_Some (cell b (Z.to_nat r) (Z.to_nat c)) /\ b' = put b (Z.to_nat r) (Z.to_nat c) x.
Proof.
  intros Hr Hc. rewrite board_set_nonneg by assumption.
  destruct (cell b (Z.to_nat r) (Z.to_nat c)); [|discriminate].
  intros H. injection H as <-. split; [eauto | reflexivity].
Qed.

(** Taking a tentative move back restores the board. *)
Lemma revert_restores (b b1 b2 b3 b4 : board) (sr sc er ec : Z) (moving captured : ascii) :
  is_on_board sr sc = true ->
  is_on_board er ec = true ->
  board_get b sr sc = Ret moving ->
  board_get b er ec = Ret captured ->
  board_set b sr sc "." = Ret b1 ->
  board_set b1 er ec moving = Ret b2 ->
  board_set b2 sr sc moving = Ret b3 ->
  board_set b3 er ec captured = Ret b4 ->
  b4 = b.
Proof.
  intros Hs He Hm Hc H1 H2 H3 H4.
  apply is_on_board_bounds in Hs, He.
  apply board_get_cell in Hm, Hc; try lia.
  apply board_set_put in H1 as [[y1 C1] ->]; try lia.
  apply board_set_put in H2 as [[y2 C2] ->]; try lia.
  apply board_set_put in H3 as [[y3 C3] ->]; try lia.
  apply board_set_put in H4 as [[y4 C4] ->]; try lia.
  apply board_ext.
  - rewrite !shape_put. reflexivity.
  - intros r c.
    rewrite (cell_put _ _ _ r c _ _ C4), (cell_put _ _ _ r c _ _ C3),
            (cell_put _ _ _ r c _ _ C2), (cell_put _ _ _ r c _ _ C1).
    repeat case_decide; destruct_and?; subst; congruence.
Qed.

Lemma set_board_same (g : ChessVar) (b2 : board) :
  set_board (set_board g b2) (_game_board g) = g.
Proof. destruct g; reflexivity. Qed.

Lemma make_move_rejected_same (fuel : nat) (g : ChessVar) (a b : string) (g' : ChessVar) :
  make_move fuel g a b = Ret (false, g') -> g' = g.
Proof.
  intros H. pose proof (make_move_paths _ _ _ _ _ _ H) as P.
  inversion P as
    [ | | sr sc er ec moving b1 b2 v g1 Hst Ha Hb Hv Hm Hc H1 H2 Hfin
      | sr sc er ec moving captured b1 b2 b3 b4 Hst Ha Hb Hv Hm Hc Hne H1 H2 Hsim H3 H4
      | sr sc er ec moving captured b1 b2 r v g1 Hst Ha Hb Hv Hm Hc Hne H1 H2 Hsim Hex Hfin ];
    subst; try reflexivity.
  - pose proof (finish_move_spec _ _ _ Hfin) as [F _]. discriminate F.
  - apply is_valid_move_on_board in Hv as [Hs He].
    rewrite (revert_restores (_game_board g) b1 b2 b3 b4 sr sc er ec moving captured
               Hs He Hm Hc H1 H2 H3 H4).
    apply set_board_same.
  - pose proof (finish_move_spec _ _ _ Hfin) as [F _]. discriminate F.
Qed.

(** C3: when [make_move] returns [False], the board, the player to move and
    the game state are what they were before the call; so the same call,
    made again, returns [False] again and still changes nothing. *)
Theorem rejected_move_is_noop (fuel : nat) (g : ChessVar) (a b : string) (g' : ChessVar) :
  make_move fuel g a b = Ret (false, g') ->
  g' = g /\ make_move fuel g' a b = Ret (false, g').
Proof.
  intros H. pose proof (make_move_rejected_same _ _ _ _ _ H) as E.
  subst g'. auto.
Qed.

Lemma rejected_move_is_noop_witness :
  init = init /\ make_move 8 init "e2" "e5" = Ret (false, init).
Proof. apply (rejected_move_is_noop 8 init "e2" "e5" init). vm_compute. reflexivity. Defined.

(** ** A capture that destroys both kings *)

(** C1 fails on the code: after e4, e5, Ke2, Ke7, Ke3, Ke6, Kf4, Kf5 the
    two kings stand on f4 and f5, both inside the blast radius of f5.
    White's pawn takes the king on f5: the call returns [True], both kings
    are gone and Black is declared the winner. *)
Theorem king_capture_beside_own_king_accepted :
  play 8 init [("e2","e4"); ("e7","e5"); ("e1","e2"); ("e8","e7");
               ("e2","e3"); ("e7","e6"); ("e3","f4"); ("e6","f5")]%string
  = Ret ([true; true; true; true; true; true; true; true], position_kings_adjacent) /\
  chess_notation_to_index "f5" = Ret (3, 5) /\
  board_get (_game_board position_kings_adjacent) 3 5 = Ret "k"%char /\
  board_get (_game_board position_kings_adjacent) 4 5 = Ret "K"%char /\
  In 3 (blast_rows 3) /\ In 4 (blast_rows 3) /\ In 5 (blast_cols 5) /\
  exists g',
    make_move 8 position_kings_adjacent "e4" "f5" = Ret (true, g') /\
    _game_state g' = BLACK_WON /\
    has_piece (_game_board g') "K" = false /\
    has_piece (_game_board g') "k" = false /\
    g' <> position_kings_adjacent.
Proof.
  split; [vm_compute; reflexivity|].
  split; [reflexivity|].
  split; [reflexivity|].
  split; [reflexivity|].
  split; [vm_compute; tauto|].
  split; [vm_compute; tauto|].
  split; [vm_compute; tauto|].
  eexists.
  split; [vm_compute; reflexivity|].
  split; [reflexivity|].
  split; [reflexivity|].
  split; [reflexivity|].
  discriminate.
Qed.

(** ** The explosion *)

Lemma for_each_ext {A S : Type} (body1 body2 : S -> A -> outcome S) (l : list A) (s : S) :
  (forall s x, body1 s x = body2 s x) ->
  for_each body1 l s = for_each body2 l s.
Proof.
  intros Hext. revert s. induction l as [|x l IH]; intros s; simpl; [reflexivity|].
  rewrite Hext. destruct (body2 s x); simpl; auto.
Qed.

(** The king scan at the head of [explode] computes the flags of
    [simulate_explosion]. *)
Lemma explode_scan_simulate (b : board) (row col : Z) :
  explode_scan b row col = simulate_scan b row col.
Proof.
  unfold explode_scan, simulate_scan.
  apply for_each_ext. intros fl r. apply for_each_ext. intros [w k] c.
  destruct (board_get b r c) as [p| |]; simpl; try reflexivity.
  rewrite lower_is_k.
  destruct (p =? "K")%char eqn:EK, (p =? "k")%char eqn:Ek; simpl; try reflexivity.
  apply char_eqb_true in EK, Ek. congruence.
Qed.

Lemma explode_after_simulate (g : ChessVar) (row col : Z) (r : bool * ChessVar) :
  simulate_explosion g row col = Ret true ->
  explode g row col = Ret r ->
  r.1 = true /\ explode_apply g row col = Ret r.2.
Proof.
  unfold simulate_explosion, explode. rewrite explode_scan_simulate.
  intros Hsim H. bind_inv Hsim. rewrite Hx in H. simpl in H.
  injection Hsim as Hfl. apply negb_true_iff in Hfl. rewrite Hfl in H.
  bind_inv H. injection H as <-. simpl. auto.
Qed.

Lemma explode_cell_clears (r c : Z) (g g1 : ChessVar) :
  0 <= r -> 0 <= c ->
  explode_cell r g c = Ret g1 ->
  board_get (_game_board g1) r c = Ret "."%char /\
  (forall r' c', 0 <= r' -> 0 <= c' ->
     board_get (_game_board g) r' c' = Ret "."%char ->
     board_get (_game_board g1) r' c' = Ret "."%char).
Proof.
  intros Hr Hc H. unfold explode_cell in H. bind_inv H. rename x into piece.
  destruct (piece =? ".")%char eqn:E; simpl in H.
  - injection H as <-. apply char_eqb_true in E. subst piece. auto.
  - bind_inv H. injection H as <-. simpl.
    assert (Hb : board_set (_game_board g) r c "." = Ret x).
    { destruct (is_king piece); [destruct (piece =? "K")%char|]; exact Hx0. }
    apply board_set_put in Hb as [[y Hy] ->]; try assumption.
    split.
    + apply board_get_cell; try assumption.
      rewrite (cell_put _ _ _ _ _ _ _ Hy). rewrite decide_True by auto. reflexivity.
    + intros r' c' Hr' Hc' Hdot.
      apply board_get_cell in Hdot; try assumption. apply board_get_cell; try assumption.
      rewrite (cell_put _ _ _ _ _ _ _ Hy). case_decide; [reflexivity | exact Hdot].
Qed.

Lemma explode_row_clears (r : Z) (cols : list Z) :
  0 <= r ->
  (forall c, In c cols -> 0 <= c) ->
  forall g g1,
    for_each (explode_cell r) cols g = Ret g1 ->
    (forall c, In c cols -> board_get (_game_board g1) r c = Ret "."%char) /\
    (forall r' c', 0 <= r' -> 0 <= c' ->
       board_get (_game_board g) r' c' = Ret "."%char ->
       board_get (_game_board g1) r' c' = Ret "."%char).
Proof.
  intros Hr. induction cols as [|c cols IH]; intros Hpos g g1 H; simpl in H.
  - injection H as <-. split; [intros c []|auto].
  - bind_inv H.
    assert (Hc : 0 <= c) by (apply Hpos; left; reflexivity).
    destruct (explode_cell_clears r c g x Hr Hc Hx) as [Hhere Hkeep].
    destruct (IH (fun c' Hc' => Hpos c' (or_intror Hc')) x g1 H) as [Hrest Hkeep'].
    split.
    + intros c' [<-|Hin]; [|apply Hrest, Hin].
      apply Hkeep'; assumption.
    + intros r' c' Hr' Hc' Hdot. apply Hkeep', Hkeep; assumption.
Qed.

Lemma explode_apply_clears (rows cols : list Z) :
  (forall r, In r rows -> 0 <= r) ->
  (forall c, In c cols -> 0 <= c) ->
  forall g g1,
    for_each (fun g r => for_each (explode_cell r) cols g) rows g = Ret g1 ->
    (forall r c, In r rows -> In c cols -> board_get (_game_board g1) r c = Ret "."%char) /\
    (forall r' c', 0 <= r' -> 0 <= c' ->
       board_get (_game_board g) r' c' = Ret "."%char ->
       board_get (_game_board g1) r' c' = Ret "."%char).
Proof.
  intros Hrows Hcols. induction rows as [|r rows IH]; intros g g1 H; simpl in H.
  - injection H as <-. split; [intros r c []|auto].
  - bind_inv H.
    assert (Hr : 0 <= r) by (apply Hrows; left; reflexivity).
    destruct (explode_row_clears r cols Hr Hcols g x Hx) as [Hhere Hkeep].
    destruct (IH (fun r' Hr' => Hrows r' (or_intror Hr')) x g1 H) as [Hrest Hkeep'].
    split.
    + intros r' c [<-|Hin] Hc; [|apply Hrest; assumption].
      apply Hkeep'; auto.
    + intros r' c' Hr' Hc' Hdot. apply Hkeep', Hkeep; assumption.
Qed.

(** C7: after an accepted capture every cell of the clipped 3x3
    neighbourhood of the destination is empty, whatever stood there: pawns
    and the capturing piece are cleared like the rest. *)
Theorem accepted_capture_clears_blast (fuel : nat) (g : ChessVar) (a b : string)
  (g' : ChessVar) (er ec : Z) (captured : ascii) (r c : Z) :
  make_move fuel g a b = Ret (true, g') ->
  chess_notation_to_index b = Ret (er, ec) ->
  board_get (_game_board g) er ec = Ret captured ->
  captured <> "."%char ->
  0 <= r < 8 -> 0 <= c < 8 ->
  Z.abs (r - er) <= 1 -> Z.abs (c - ec) <= 1 ->
  board_get (_game_board g') r c = Ret "."%char.
Proof.
  intros H Hb Hcap Hne Hr Hc Hdr Hdc.
  apply make_move_paths in H.
  inversion H as
    [ | | sr sc er' ec' moving b1 b2 v g1 Hst Ha Hb' Hv Hm Hc' H1 H2 Hfin
      | | sr sc er' ec' moving captured' b1 b2 res v g1 Hst Ha Hb' Hv Hm Hc' Hne' H1 H2
          Hsim Hex Hfin ]; subst.
  - rewrite Hb in Hb'. injection Hb' as <- <-. congruence.
  - rewrite Hb in Hb'. injection Hb' as <- <-.
    destruct (explode_after_simulate _ _ _ _ Hsim Hex) as [_ Happ].
    apply finish_move_spec in Hfin. destruct Hfin as (_ & -> & _).
    unfold explode_apply in Happ.
    assert (Hrows : forall r', In r' (blast_rows er) -> 0 <= r')
      by (intros r' Hin; apply in_blast_rows in Hin; lia).
    assert (Hcols : forall c', In c' (blast_cols ec) -> 0 <= c')
      by (intros c' Hin; apply in_blast_cols in Hin; lia).
    destruct (explode_apply_clears _ _ Hrows Hcols _ _ Happ) as [Hclear _].
    apply Hclear; [apply blast_rows_in | apply blast_cols_in]; assumption.
Qed.

Lemma accepted_capture_clears_blast_witness :
  play 4 init [("d2","d4"); ("g7","g5")]%string = Ret ([true; true], position_bishop_takes) /\
  exists g',
    make_move 4 position_bishop_takes "c1" "g5" = Ret (true, g') /\
    board_get (_game_board g') 3 6 = Ret "."%char /\
    board_get (_game_board g') 2 7 = Ret "."%char.
Proof.
  split; [vm_compute; reflexivity|].
  eexists. split; [vm_compute; reflexivity|]. split.
  - apply (accepted_capture_clears_blast 4 position_bishop_takes "c1" "g5" _ 3 6 "p" 3 6);
      solve [vm_compute; reflexivity | discriminate | lia].
  - apply (accepted_capture_clears_blast 4 position_bishop_takes "c1" "g5" _ 3 6 "p" 2 7);
      solve [vm_compute; reflexivity | discriminate | lia].
Defined.

(** ** The class invariant *)

Lemma forallb_Forall {A : Type} (f : A -> bool) (l : list A) :
  forallb f l = true <-> Forall (fun x => f x = true) l.
Proof.
  induction l as [|x l IH]; simpl.
  - split; [constructor | reflexivity].
  - rewrite andb_true_iff, IH. split.
    + intros [Hx Hl]. constructor; assumption.
    + intros H. inversion H; subst. auto.
Qed.

Lemma wf_row_spec (row : list ascii) :
  wf_row row = true <-> length row = 8%nat /\ Forall (fun x => is_cell x = true) row.
Proof. unfold wf_row. rewrite andb_true_iff, Nat.eqb_eq, forallb_Forall. reflexivity. Qed.

Lemma wf_board_spec (b : board) :
  wf_board b = true <-> length b = 8%nat /\ Forall (fun row => wf_row row = true) b.
Proof. unfold wf_board. rewrite andb_true_iff, Nat.eqb_eq, forallb_Forall. reflexivity. Qed.

Lemma wf_board_row (b : board) (r : nat) :
  wf_board b = true -> (r < 8)%nat ->
  exists row, b !! r = Some row /\ wf_row row = true.
Proof.
  intros Hwf Hr. apply wf_board_spec in Hwf as [Hlen Hrows].
  destruct (lookup_lt_is_Some_2 b r) as [row Hrow]; [lia|].
  exists row. split; [exact Hrow|]. eapply Forall_lookup_1 in Hrows; eauto.
Qed.

Lemma wf_cell (b : board) (r c : nat) :
  wf_board b = true -> (r < 8)%nat -> (c < 8)%nat ->
  exists x, cell b r c = Some x /\ is_cell x = true.
Proof.
  intros Hwf Hr Hc. destruct (wf_board_row b r Hwf Hr) as (row & Hrow & Hwr).
  apply wf_row_spec in Hwr as [Hlen Hcells].
  destruct (lookup_lt_is_Some_2 row c) as [x Hx]; [lia|].
  exists x. unfold cell. rewrite Hrow. split; [exact Hx|].
  eapply Forall_lookup_1 in Hcells; eauto.
Qed.

Lemma wf_put (b : board) (r c : nat) (x : ascii) :
  wf_board b = true -> is_cell x = true -> wf_board (put b r c x) = true.
Proof.
  intros Hwf Hx. unfold put. destruct (b !! r) as [row|] eqn:Hrow; [|exact Hwf].
  apply wf_board_spec in Hwf as [Hlen Hrows]. apply wf_board_spec.
  rewrite length_insert. split; [exact Hlen|].
  apply Forall_insert; [exact Hrows|].
  eapply Forall_lookup_1 in Hrows; [|exact Hrow]. simpl in Hrows.
  apply wf_row_spec in Hrows as [Hl Hc]. apply wf_row_spec.
  rewrite length_insert. split; [exact Hl|]. apply Forall_insert; assumption.
Qed.

Lemma wf_get (b : board) (r c : Z) :
  wf_board b = true -> 0 <= r < 8 -> 0 <= c < 8 ->
  exists x, board_get b r c = Ret x /\ is_cell x = true.
Proof.
  intros Hwf Hr Hc.
  destruct (wf_cell b (Z.to_nat r) (Z.to_nat c) Hwf) as (x & Hx & Hcell); try lia.
  exists x. split; [|exact Hcell]. apply board_get_cell; [lia | lia | exact Hx].
Qed.

Lemma wf_set (b : board) (r c : Z) (x : ascii) :
  wf_board b = true -> 0 <= r < 8 -> 0 <= c < 8 -> is_cell x = true ->
  exists b', board_set b r c x = Ret b' /\ wf_board b' = true.
Proof.
  intros Hwf Hr Hc Hx.
  destruct (wf_cell b (Z.to_nat r) (Z.to_nat c) Hwf) as (y & Hy & _); try lia.
  rewrite board_set_nonneg by lia. rewrite Hy.
  eexists. split; [reflexivity|]. apply wf_put; assumption.
Qed.

Lemma wf_set_inv (b b' : board) (r c : Z) (x : ascii) :
  wf_board b = true -> 0 <= r -> 0 <= c -> is_cell x = true ->
  board_set b r c x = Ret b' -> wf_board b' = true.
Proof.
  intros Hwf Hr Hc Hx H. apply board_set_put in H as [_ ->]; try assumption.
  apply wf_put; assumption.
Qed.

Lemma wf_get_inv (b : board) (r c : Z) (x : ascii) :
  wf_board b = true -> 0 <= r -> 0 <= c ->
  board_get b r c = Ret x -> is_cell x = true.
Proof.
  intros Hwf Hr Hc H. apply board_get_cell in H; try assumption.
  unfold cell in H. destruct (_ !! Z.to_nat r) as [row|] eqn:Hrow; [|discriminate].
  apply wf_board_spec in Hwf as [_ Hrows].
  eapply Forall_lookup_1 in Hrows; [|exact Hrow]. simpl in Hrows.
  apply wf_row_spec in Hrows as [_ Hcells].
  eapply Forall_lookup_1 in Hcells; eauto.
Qed.

(** On an 8x8 board the indices -8 .. 7 are all valid, and index [i - 8]
    names the same cell as index [i]. *)
Lemma wf_get_wrapped (b : board) (r c : Z) :
  wf_board b = true -> -8 <= r < 8 -> -8 <= c < 8 ->
  exists x, board_get b r c = Ret x.
Proof.
  intros Hwf Hr Hc. unfold board_get.
  pose proof Hwf as Hwf'. apply wf_board_spec in Hwf' as [Hlen Hrows].
  destruct (getitem_valid b r) as [row Hrow]; [lia|]. rewrite Hrow. simpl.
  assert (Hwr : wf_row row = true).
  { destruct (Z.ltb_spec r 0).
    - rewrite getitem_wrap, getitem_nonneg in Hrow by lia.
      destruct (b !! _) eqn:E; [|discriminate]. injection Hrow as ->.
      eapply Forall_lookup_1 in Hrows; eauto.
    - rewrite getitem_nonneg in Hrow by lia.
      destruct (b !! _) eqn:E; [|discriminate]. injection Hrow as ->.
      eapply Forall_lookup_1 in Hrows; eauto. }
  apply wf_row_spec in Hwr as [Hl _]. apply getitem_valid. lia.
Qed.

Lemma wf_get_shifted (b : board) (r c : Z) :
  wf_board b = true -> 0 <= r < 8 -> 0 <= c < 8 ->
  board_get b (r - 8) (c - 8) = board_get b r c.
Proof.
  intros Hwf Hr Hc. unfold board_get.
  pose proof Hwf as Hwf'. apply wf_board_spec in Hwf' as [Hlen Hrows].
  rewrite getitem_wrap by lia. rewrite Hlen.
  replace (r - 8 + Z.of_nat 8) with r by lia.
  destruct (wf_board_row b (Z.to_nat r) Hwf) as (row & Hrow & Hwr); [lia|].
  rewrite getitem_nonneg by lia. rewrite Hrow. simpl.
  apply wf_row_spec in Hwr as [Hl _].
  rewrite getitem_wrap by lia. rewrite Hl.
  replace (c - 8 + Z.of_nat 8) with c by lia. reflexivity.
Qed.

Lemma wf_init : wf init.
Proof. reflexivity. Qed.

(** ** No call raises: the loops *)

Lemma for_each_returns {A S : Type} (I : S -> Prop) (body : S -> A -> outcome S) (l : list A) :
  (forall s x, In x l -> I s -> exists s', body s x = Ret s' /\ I s') ->
  forall s, I s -> exists s', for_each body l s = Ret s' /\ I s'.
Proof.
  induction l as [|x l IH]; simpl; intros Hbody s Hs.
  - exists s. auto.
  - destruct (Hbody s x (or_introl eq_refl) Hs) as (s1 & -> & Hs1). simpl.
    apply IH; [|exact Hs1]. intros s2 y Hy. apply Hbody. right. exact Hy.
Qed.

Lemma simulate_scan_returns (b : board) (row col : Z) :
  wf_board b = true -> exists fl, simulate_scan b row col = Ret fl.
Proof.
  intros Hwf. unfold simulate_scan.
  destruct (for_each_returns (fun _ : flags => True)
              (fun fl r =>
                 for_each (fun (fl : flags) c =>
                   let* piece := board_get b r c in
                   if (piece =? "K")%char then Ret (true, fl.2)
                   else if (piece =? "k")%char then Ret (fl.1, true)
                   else Ret fl) (blast_cols col) fl)
              (blast_rows row)) with (s := (false, false)) as (fl & Hfl & _);
    [ | exact I | eauto].
  intros fl r Hr _. apply in_blast_rows in Hr as [Hr _].
  apply for_each_returns; [|exact I].
  intros fl' c Hc _. apply in_blast_cols in Hc as [Hc _].
  destruct (wf_get b r c Hwf Hr Hc) as (x & -> & _). simpl.
  destruct (x =? "K")%char; [eauto|]. destruct (x =? "k")%char; eauto.
Qed.

Lemma simulate_explosion_returns (g : ChessVar) (row col : Z) :
  wf g -> exists v, simulate_explosion g row col = Ret v.
Proof.
  intros Hwf. unfold simulate_explosion.
  destruct (simulate_scan_returns (_game_board g) row col Hwf) as [fl ->]. simpl. eauto.
Qed.

Lemma is_cell_dot : is_cell "." = true.
Proof. reflexivity. Qed.

Lemma explode_cell_returns (r c : Z) (g : ChessVar) :
  wf g -> 0 <= r < 8 -> 0 <= c < 8 ->
  exists g', explode_cell r g c = Ret g' /\ wf g'.
Proof.
  intros Hwf Hr Hc. unfold explode_cell.
  destruct (wf_get _ r c Hwf Hr Hc) as (x & -> & _). simpl.
  destruct (negb (x =? ".")%char); [|eauto].
  destruct (wf_set (_game_board g) r c "." Hwf Hr Hc is_cell_dot) as (b' & Hb' & Hwf').
  assert (E : forall g1, _game_board g1 = _game_board g ->
                         exists g', (let* b' := board_set (_game_board g1) r c "." in
                                     Ret (set_board g1 b')) = Ret g' /\ wf g').
  { intros g1 ->. rewrite Hb'. simpl. eexists. split; [reflexivity | exact Hwf']. }
  destruct (is_king x); [destruct (x =? "K")%char|]; apply E; reflexivity.
Qed.

Lemma explode_apply_returns (g : ChessVar) (row col : Z) :
  wf g -> exists g', explode_apply g row col = Ret g' /\ wf g'.
Proof.
  intros Hwf. unfold explode_apply.
  apply (for_each_returns wf); [|exact Hwf].
  intros g1 r Hr Hwf1. apply in_blast_rows in Hr as [Hr _].
  apply (for_each_returns wf); [|exact Hwf1].
  intros g2 c Hc Hwf2. apply in_blast_cols in Hc as [Hc _].
  apply explode_cell_returns; assumption.
Qed.

Lemma explode_returns (g : ChessVar) (row col : Z) :
  wf g -> exists r, explode g row col = Ret r /\ wf r.2.
Proof.
  intros Hwf. unfold explode. rewrite explode_scan_simulate.
  destruct (simulate_scan_returns (_game_board g) row col Hwf) as [fl ->]. simpl.
  destruct (fl.1 && fl.2).
  - eexists. split; [reflexivity | exact Hwf].
  - destruct (explode_apply_returns g row col Hwf) as (g' & -> & Hwf'). simpl.
    eexists. split; [reflexivity | exact Hwf'].
Qed.

Lemma path_clear_returns (b : board) (cells : list (Z * Z)) :
  wf_board b = true ->
  (forall r c, In (r, c) cells -> 0 <= r < 8 /\ 0 <= c < 8) ->
  exists v, path_clear b cells = Ret v.
Proof.
  intros Hwf. induction cells as [|[r c] cells IH]; simpl; intros Hin; [eauto|].
  destruct (Hin r c (or_introl eq_refl)) as [Hr Hc].
  destruct (wf_get b r c Hwf Hr Hc) as (x & -> & _). simpl.
  destruct (negb (x =? ".")%char); [eauto|].
  apply IH. intros r' c' H. apply Hin. right. exact H.
Qed.

Lemma in_range3_up (start stop x : Z) :
  In x (Py.range3 start stop 1) <-> start <= x < stop.
Proof.
  unfold Py.range3. simpl. rewrite in_map_iff, Z.div_1_r. split.
  - intros (k & <- & Hk). apply in_seq in Hk. lia.
  - intros Hx. exists (Z.to_nat (x - start)). split; [lia|]. apply in_seq. lia.
Qed.

Lemma in_range3_down (start stop x : Z) :
  In x (Py.range3 start stop (-1)) <-> stop < x <= start.
Proof.
  unfold Py.range3. simpl. rewrite in_map_iff, Z.div_1_r. split.
  - intros (k & <- & Hk). apply in_seq in Hk. lia.
  - intros Hx. exists (Z.to_nat (start - x)). split; [lia|]. apply in_seq. lia.
Qed.

(** ** No call raises: the legality rules *)

Lemma is_valid_pawn_move_returns (g : ChessVar) (sr sc er ec : Z) :
  wf g -> 0 <= sr < 8 -> 0 <= sc < 8 -> 0 <= er < 8 -> 0 <= ec < 8 ->
  exists v, is_valid_pawn_move g sr sc er ec = Ret v.
Proof.
  intros Hwf Hsr Hsc Her Hec. unfold is_valid_pawn_move.
  destruct (wf_get _ sr sc Hwf Hsr Hsc) as (piece & -> & _). simpl.
  destruct (wf_get _ er ec Hwf Her Hec) as (d & Hd & _).
  set (direction := if Py.islower piece then 1 else -1).
  assert (Hdir : direction = 1 \/ direction = -1)
    by (unfold direction; destruct (Py.islower piece); auto).
  assert (Hguard : exists qg,
    (if sc =? ec
     then let* d := board_get (_game_board g) er ec in Ret (d =? ".")%char
     else Ret false) = Ret qg).
  { destruct (sc =? ec); [rewrite Hd|]; simpl; eauto. }
  destruct Hguard as [qg ->]. simpl.
  assert (Hquiet : exists q,
    (if qg then
       if sr + direction =? er then Ret true
       else if (sr + 2 * direction =? er) && ((sr =? 1) || (sr =? 6))
            then let* m := board_get (_game_board g) (sr + direction) sc in
                 Ret (m =? ".")%char
            else Ret false
     else Ret false) = Ret q).
  { destruct qg; [|eauto].
    destruct (sr + direction =? er); [eauto|].
    destruct (Z.eqb_spec (sr + 2 * direction) er) as [E|_]; simpl; [|eauto].
    destruct ((sr =? 1) || (sr =? 6)); [|eauto].
    destruct (wf_get _ (sr + direction) sc Hwf) as (m & -> & _); [lia | lia |].
    simpl. eauto. }
  destruct Hquiet as [q ->]. simpl.
  destruct q; [eauto|].
  destruct ((Z.abs (sc - ec) =? 1) && (sr + direction =? er)); [|eauto].
  rewrite Hd. simpl. destruct (_ || _); eauto.
Qed.

Lemma is_valid_rook_move_returns (g : ChessVar) (sr sc er ec : Z) :
  wf g -> 0 <= sr < 8 -> 0 <= sc < 8 -> 0 <= er < 8 -> 0 <= ec < 8 ->
  exists v, is_valid_rook_move g sr sc er ec = Ret v.
Proof.
  intros Hwf Hsr Hsc Her Hec. unfold is_valid_rook_move.
  destruct (negb (sr =? er) && negb (sc =? ec)); [eauto|].
  cbv zeta.
  match goal with
  | |- context [outcome_bind ?m _] => assert (Hclear : exists v : bool, m = Ret v)
  end.
  { destruct (sr =? er); simpl; apply path_clear_returns; try exact Hwf;
      intros r c Hin; apply in_map_iff in Hin as (x & Hx & Hin); injection Hx as <- <-.
    - destruct (Z.gtb_spec ec sc);
        [apply in_range3_up in Hin | apply in_range3_down in Hin]; lia.
    - destruct (Z.gtb_spec er sr);
        [apply in_range3_up in Hin | apply in_range3_down in Hin]; lia. }
  destruct Hclear as [v ->]. simpl.
  destruct (negb v); [eauto|].
  destruct (wf_get _ er ec Hwf Her Hec) as (d & -> & _). simpl.
  destruct (negb (d =? ".")%char); [destruct (_ || _)|]; eauto.
Qed.

Lemma is_valid_king_move_returns (g : ChessVar) (sr sc er ec : Z) :
  wf g -> 0 <= er < 8 -> 0 <= ec < 8 ->
  exists v, is_valid_king_move g sr sc er ec = Ret v.
Proof.
  intros Hwf Her Hec. unfold is_valid_king_move.
  destruct (_ && _); [|eauto].
  destruct (wf_get _ er ec Hwf Her Hec) as (d & -> & _). simpl. eauto.
Qed.

(** ** No call raises: the diagonal scan *)

(** The scan returns as soon as, after [n] readable squares, it meets the
    end row or column or an occupied square. *)
Lemma bishop_scan_stops (b : board) (er ec dr dc : Z) (n : nat) :
  forall (fuel : nat) (cr cc : Z),
    (n < fuel)%nat ->
    (forall k : nat, (k < n)%nat ->
       exists p, board_get b (cr + Z.of_nat k * dr) (cc + Z.of_nat k * dc) = Ret p) ->
    (cr + Z.of_nat n * dr = er \/ cc + Z.of_nat n * dc = ec \/
     exists p, board_get b (cr + Z.of_nat n * dr) (cc + Z.of_nat n * dc) = Ret p /\
               p <> "."%char) ->
    exists v, bishop_scan fuel b er ec dr dc cr cc = Ret v.
Proof.
  induction n as [|n IH]; intros fuel cr cc Hfuel Hread Hstop;
    (destruct fuel as [|fuel]; [lia|]); simpl.
  - destruct (Z.eqb_spec cr er) as [|Hr]; simpl; [eauto|].
    destruct (Z.eqb_spec cc ec) as [|Hc]; simpl; [eauto|].
    destruct Hstop as [H|[H|(p & Hp & Hne)]]; [lia | lia |].
    replace (cr + Z.of_nat 0 * dr) with cr in Hp by lia.
    replace (cc + Z.of_nat 0 * dc) with cc in Hp by lia.
    rewrite Hp. simpl. apply char_eqb_false in Hne. rewrite Hne. simpl. eauto.
  - destruct (negb (cr =? er) && negb (cc =? ec)); [|eauto].
    destruct (Hread 0%nat) as [p Hp]; [lia|].
    replace (cr + Z.of_nat 0 * dr) with cr in Hp by lia.
    replace (cc + Z.of_nat 0 * dc) with cc in Hp by lia.
    rewrite Hp. simpl. destruct (negb (p =? ".")%char); [eauto|].
    apply IH; [lia | | ].
    + intros k Hk. destruct (Hread (S k)) as [q Hq]; [lia|]. exists q.
      rewrite <- Hq. f_equal; lia.
    + replace (cr + dr + Z.of_nat n * dr) with (cr + Z.of_nat (S n) * dr) by lia.
      replace (cc + dc + Z.of_nat n * dc) with (cc + Z.of_nat (S n) * dc) by lia.
      exact Hstop.
Qed.

(** When the scan walks away from the end square it can only stop at an
    occupied square, and then it answers [False]. *)
Lemma bishop_scan_blocked (b : board) (er ec dr dc : Z) (n : nat) :
  forall (fuel : nat) (cr cc : Z),
    (n < fuel)%nat ->
    (forall k : nat, (k <= n)%nat ->
       cr + Z.of_nat k * dr <> er /\ cc + Z.of_nat k * dc <> ec) ->
    (forall k : nat, (k < n)%nat ->
       exists p, board_get b (cr + Z.of_nat k * dr) (cc + Z.of_nat k * dc) = Ret p) ->
    (exists p, board_get b (cr + Z.of_nat n * dr) (cc + Z.of_nat n * dc) = Ret p /\
               p <> "."%char) ->
    bishop_scan fuel b er ec dr dc cr cc = Ret false.
Proof.
  induction n as [|n IH]; intros fuel cr cc Hfuel Haway Hread Hstop;
    (destruct fuel as [|fuel]; [lia|]); simpl;
    (destruct (Haway 0%nat) as [Hr Hc]; [lia|]);
    replace (cr + Z.of_nat 0 * dr) with cr in Hr by lia;
    replace (cc + Z.of_nat 0 * dc) with cc in Hc by lia;
    apply Z.eqb_neq in Hr, Hc; rewrite Hr, Hc; simpl.
  - destruct Hstop as (p & Hp & Hne).
    replace (cr + Z.of_nat 0 * dr) with cr in Hp by lia.
    replace (cc + Z.of_nat 0 * dc) with cc in Hp by lia.
    rewrite Hp. simpl. apply char_eqb_false in Hne. rewrite Hne. reflexivity.
  - destruct (Hread 0%nat) as [p Hp]; [lia|].
    replace (cr + Z.of_nat 0 * dr) with cr in Hp by lia.
    replace (cc + Z.of_nat 0 * dc) with cc in Hp by lia.
    rewrite Hp. simpl. destruct (negb (p =? ".")%char); [reflexivity|].
    apply IH; [lia | | | ].
    + intros k Hk. destruct (Haway (S k)) as [H1 H2]; [lia|]. split; lia.
    + intros k Hk. destruct (Hread (S k)) as [q Hq]; [lia|]. exists q.
      rewrite <- Hq. f_equal; lia.
    + destruct Hstop as (q & Hq & Hne). exists q. split; [|exact Hne].
      rewrite <- Hq. f_equal; lia.
Qed.

(** A bishop or queen "moved" to its own square: the scan runs down the
    diagonal, wraps round through the negative indices and, eight steps on
    at the latest, reads the piece itself. *)
Lemma is_valid_bishop_move_same_square (fuel : nat) (g : ChessVar) (r c : Z) (p : ascii) :
  wf g -> 0 <= r < 8 -> 0 <= c < 8 ->
  board_get (_game_board g) r c = Ret p -> p <> "."%char ->
  (8 <= fuel)%nat ->
  is_valid_bishop_move fuel g r c r c = Ret false.
Proof.
  intros Hwf Hr Hc Hp Hne Hfuel. unfold is_valid_bishop_move.
  rewrite !Z.sub_diag. simpl.
  assert (E1 : (r >? r) = false) by lia. assert (E2 : (c >? c) = false) by lia.
  rewrite E1, E2.
  apply (bishop_scan_blocked _ r c (-1) (-1) 7); [lia | | | ].
  - intros k Hk. lia.
  - intros k Hk. apply wf_get_wrapped; [exact Hwf | lia | lia].
  - exists p. split; [|exact Hne]. rewrite <- Hp, <- (wf_get_shifted _ r c Hwf Hr Hc).
    f_equal; lia.
Qed.

Lemma is_valid_bishop_move_returns (fuel : nat) (g : ChessVar) (sr sc er ec : Z) (p : ascii) :
  wf g -> 0 <= sr < 8 -> 0 <= sc < 8 -> 0 <= er < 8 -> 0 <= ec < 8 ->
  board_get (_game_board g) sr sc = Ret p -> p <> "."%char ->
  (8 <= fuel)%nat ->
  exists v, is_valid_bishop_move fuel g sr sc er ec = Ret v.
Proof.
  intros Hwf Hsr Hsc Her Hec Hp Hne Hfuel.
  destruct (Z.eq_dec sr er) as [<-|Hrow].
  { destruct (Z.eq_dec sc ec) as [<-|Hcol].
    - exists false. eapply is_valid_bishop_move_same_square; eassumption.
    - exists false. unfold is_valid_bishop_move.
      replace (Z.abs (sr - sr) =? Z.abs (sc - ec)) with false; [reflexivity|].
      symmetry. apply Z.eqb_neq. lia. }
  unfold is_valid_bishop_move.
  destruct (Z.eqb_spec (Z.abs (sr - er)) (Z.abs (sc - ec))) as [Habs|_]; simpl; [|eauto].
  set (dr := if er >? sr then 1 else -1). set (dc := if ec >? sc then 1 else -1).
  assert (Hdr : (er > sr /\ dr = 1) \/ (er < sr /\ dr = -1))
    by (unfold dr; destruct (Z.gtb_spec er sr); lia).
  assert (Hdc : (ec > sc /\ dc = 1) \/ (ec < sc /\ dc = -1))
    by (unfold dc; destruct (Z.gtb_spec ec sc); lia).
  apply (bishop_scan_stops _ er ec dr dc (Z.to_nat (Z.abs (sr - er) - 1))); [lia | | ].
  - intros k Hk.
    destruct (wf_get (_game_board g) (sr + dr + Z.of_nat k * dr) (sc + dc + Z.of_nat k * dc))
      as (x & Hx & _); [exact Hwf | lia | lia | eauto].
  - left. lia.
Qed.

Lemma is_valid_queen_move_returns (fuel : nat) (g : ChessVar) (sr sc er ec : Z) (p : ascii) :
  wf g -> 0 <= sr < 8 -> 0 <= sc < 8 -> 0 <= er < 8 -> 0 <= ec < 8 ->
  board_get (_game_board g) sr sc = Ret p -> p <> "."%char ->
  (8 <= fuel)%nat ->
  exists v, is_valid_queen_move fuel g sr sc er ec = Ret v.
Proof.
  intros Hwf Hsr Hsc Her Hec Hp Hne Hfuel. unfold is_valid_queen_move.
  destruct (is_valid_bishop_move_returns fuel g sr sc er ec p) as [v ->]; try assumption.
  simpl. destruct v; [eauto|]. apply is_valid_rook_move_returns; assumption.
Qed.

Lemma is_valid_move_returns (fuel : nat) (g : ChessVar) (sr sc er ec : Z) :
  wf g -> (8 <= fuel)%nat ->
  exists v, is_valid_move fuel g sr sc er ec = Ret v.
Proof.
  intros Hwf Hfuel. unfold is_valid_move.
  destruct ((0 <=? sr) && (sr <? 8) && (0 <=? sc) && (sc <? 8)) eqn:Hs; simpl; [|eauto].
  destruct ((0 <=? er) && (er <? 8) && (0 <=? ec) && (ec <? 8)) eqn:He; simpl; [|eauto].
  apply (is_on_board_bounds sr sc) in Hs as [Hsr Hsc].
  apply (is_on_board_bounds er ec) in He as [Her Hec].
  destruct (wf_get _ sr sc Hwf Hsr Hsc) as (piece & Hp & _). rewrite Hp. simpl.
  destruct (piece =? ".")%char eqn:Hdot; [eauto|]. apply char_eqb_false in Hdot.
  destruct (_ || _); [eauto|].
  destruct (Py.lower piece =? "p")%char; [apply is_valid_pawn_move_returns; assumption|].
  destruct (Py.lower piece =? "n")%char; [eauto|].
  destruct (Py.lower piece =? "b")%char;
    [eapply is_valid_bishop_move_returns; eassumption|].
  destruct (Py.lower piece =? "r")%char; [apply is_valid_rook_move_returns; assumption|].
  destruct (Py.lower piece =? "q")%char;
    [eapply is_valid_queen_move_returns; eassumption|].
  destruct (Py.lower piece =? "k")%char; [apply is_valid_king_move_returns; assumption|].
  eauto.
Qed.

(** ** No call raises: [make_move] *)

Lemma chess_notation_to_index_square (s : string) :
  is_square s = true ->
  exists r c, chess_notation_to_index s = Ret (r, c) /\ 0 <= r < 8 /\ 0 <= c < 8.
Proof.
  destruct s as [|file [|rank [|]]]; simpl; try discriminate.
  rewrite !andb_true_iff, !Z.leb_le. intros [[[Hf1 Hf2] Hr1] Hr2].
  change (Py.ord "a") with 97 in *. change (Py.ord "h") with 104 in *.
  change (Py.ord "1") with 49 in *. change (Py.ord "8") with 56 in *.
  unfold Py.int.
  assert (E : ((48 <=? Py.ord rank) && (Py.ord rank <=? 57)) = true)
    by (apply andb_true_iff; split; apply Z.leb_le; lia).
  rewrite E. simpl. eexists. eexists. split; [reflexivity|]. lia.
Qed.

Lemma finish_move_wf (g : ChessVar) (v : bool) (g' : ChessVar) :
  wf g -> finish_move g = Ret (v, g') -> wf g'.
Proof.
  intros Hwf H. apply finish_move_spec in H as (_ & Hb & _).
  unfold wf. rewrite Hb. exact Hwf.
Qed.

Lemma make_move_wf (fuel : nat) (g : ChessVar) (a b : string) (v : bool) (g' : ChessVar) :
  wf g -> make_move fuel g a b = Ret (v, g') -> wf g'.
Proof.
  intros Hwf H. destruct v; [|apply make_move_rejected_same in H; subst; exact Hwf].
  apply make_move_paths in H.
  inversion H as
    [ | | sr sc er ec moving b1 b2 v g1 Hst Ha Hb Hv Hm Hc H1 H2 Hfin
      | | sr sc er ec moving captured b1 b2 r v g1 Hst Ha Hb Hv Hm Hc Hne H1 H2 Hsim Hex Hfin ];
    subst;
    apply is_valid_move_on_board in Hv as [Hs He];
    apply is_on_board_bounds in Hs, He;
    assert (Hmoving : is_cell moving = true)
      by (eapply wf_get_inv; [exact Hwf | | | exact Hm]; lia);
    assert (Hb1 : wf_board b1 = true)
      by (eapply wf_set_inv; [exact Hwf | | | | exact H1]; (lia || reflexivity));
    assert (Hb2 : wf_board b2 = true)
      by (eapply wf_set_inv; [exact Hb1 | | | | exact H2]; (lia || assumption)).
  - eapply finish_move_wf; [|exact Hfin]. exact Hb2.
  - eapply finish_move_wf; [|exact Hfin].
    destruct (explode_returns (set_board g b2) er ec Hb2) as (r' & Hr' & Hwf').
    rewrite Hex in Hr'. injection Hr' as <-. exact Hwf'.
Qed.

Lemma reachable_wf (g : ChessVar) : reachable g -> wf g.
Proof.
  induction 1 as [|fuel g a b v g' _ IH H]; [exact wf_init|].
  eapply make_move_wf; eassumption.
Qed.

Lemma make_move_returns (fuel : nat) (g : ChessVar) (a b : string) (s e : Z * Z) :
  wf g -> (8 <= fuel)%nat ->
  chess_notation_to_index a = Ret s ->
  chess_notation_to_index b = Ret e ->
  exists v g', make_move fuel g a b = Ret (v, g').
Proof.
  intros Hwf Hfuel Ha Hb. unfold make_move.
  destruct (negb (game_state_eqb (_game_state g) UNFINISHED)); [eauto|].
  rewrite Ha, Hb. destruct s as [sr sc], e as [er ec]. simpl.
  destruct (is_valid_move_returns fuel g sr sc er ec Hwf Hfuel) as [v Hv].
  rewrite Hv. simpl. destruct v; simpl; [|eauto].
  apply is_valid_move_on_board in Hv as [Hs He].
  apply is_on_board_bounds in Hs as [Hsr Hsc], He as [Her Hec].
  destruct (wf_get _ sr sc Hwf Hsr Hsc) as (moving & -> & Hmoving). simpl.
  destruct (wf_get _ er ec Hwf Her Hec) as (captured & -> & Hcaptured). simpl.
  destruct (wf_set _ sr sc "." Hwf Hsr Hsc is_cell_dot) as (b1 & -> & Hb1). simpl.
  destruct (wf_set _ er ec moving Hb1 Her Hec Hmoving) as (b2 & -> & Hb2). simpl.
  destruct (negb (captured =? ".")%char); [|unfold finish_move; eauto].
  destruct (simulate_explosion_returns (set_board g b2) er ec Hb2) as [ok ->]. simpl.
  destruct ok; simpl.
  - destruct (explode_returns (set_board g b2) er ec Hb2) as (r & -> & _). simpl.
    unfold finish_move. eauto.
  - destruct (wf_set _ sr sc moving Hb2 Hsr Hsc Hmoving) as (b3 & -> & Hb3). simpl.
    destruct (wf_set _ er ec captured Hb3 Her Hec Hcaptured) as (b4 & -> & _). simpl.
    eauto.
Qed.

(** ** "Moving" a piece to its own square *)

Lemma range3_empty_down (c : Z) : Py.range3 (c + -1) c (-1) = [].
Proof.
  unfold Py.range3. simpl.
  replace ((c + -1 - c - -1 - 1) / - -1) with (-1) by (simpl; rewrite Z.div_1_r; lia).
  reflexivity.
Qed.

Lemma is_valid_move_same_square (fuel : nat) (g : ChessVar) (r c : Z) :
  wf g -> (8 <= fuel)%nat -> is_valid_move fuel g r c r c = Ret false.
Proof.
  intros Hwf Hfuel. unfold is_valid_move.
  destruct ((0 <=? r) && (r <? 8) && (0 <=? c) && (c <? 8)) eqn:Hs; simpl; [|reflexivity].
  apply (is_on_board_bounds r c) in Hs as [Hr Hc].
  destruct (wf_get _ r c Hwf Hr Hc) as (piece & Hp & _). rewrite Hp. simpl.
  destruct (piece =? ".")%char eqn:Hdot; [reflexivity|].
  destruct (_ || _) eqn:Hcol; [reflexivity|].
  assert (E1 : (r >? r) = false) by lia. assert (E2 : (c >? c) = false) by lia.
  assert (Hrook : is_valid_rook_move g r c r c = Ret false).
  { unfold is_valid_rook_move. rewrite !Z.eqb_refl, E2. simpl.
    rewrite range3_empty_down. simpl. rewrite Hp. simpl. rewrite Hdot, Hcol. reflexivity. }
  assert (Hbishop : is_valid_bishop_move fuel g r c r c = Ret false).
  { eapply is_valid_bishop_move_same_square; try eassumption.
    apply char_eqb_false. exact Hdot. }
  destruct (Py.lower piece =? "p")%char.
  { unfold is_valid_pawn_move. rewrite Hp. simpl. rewrite Z.eqb_refl. simpl.
    rewrite Hdot. simpl. rewrite Z.sub_diag. reflexivity. }
  destruct (Py.lower piece =? "n")%char.
  { unfold is_valid_knight_move. rewrite !Z.sub_diag. reflexivity. }
  destruct (Py.lower piece =? "b")%char; [exact Hbishop|].
  destruct (Py.lower piece =? "r")%char; [exact Hrook|].
  destruct (Py.lower piece =? "q")%char.
  { unfold is_valid_queen_move. rewrite Hbishop. simpl. exact Hrook. }
  destruct (Py.lower piece =? "k")%char; [|reflexivity].
  unfold is_valid_king_move. rewrite !Z.sub_diag. simpl. rewrite Hp. simpl.
  rewrite Hdot. reflexivity.
Qed.

(** How the scan stops in such a call: for Black's bishop on c8 (row 0,
    column 2) the first square read has row index -1, which Python takes
    from the far end of the list: it is b1, where White's knight stands. *)
Example same_square_scan_wraps :
  make_move 4 init "d2" "d4" = Ret (true, position_after_d4) /\
  chess_notation_to_index "c8" = Ret (0, 2) /\
  is_valid_bishop_move 1 position_after_d4 0 2 0 2 = Ret false /\
  board_get (_game_board position_after_d4) (0 + -1) (2 + -1) = Ret "N"%char /\
  board_get (_game_board position_after_d4) 7 1 = Ret "N"%char /\
  make_move 8 position_after_d4 "c8" "c8" = Ret (false, position_after_d4).
Proof. repeat split; reflexivity. Qed.

(** No call raises: in every reachable state and for every pair of squares
    a1 .. h8, [make_move] returns a boolean: no [IndexError] (the fate of
    any index outside -8 .. 7), no [ValueError], and the diagonal scan
    terminates.  In particular a call with the same square twice returns
    [False], also for a bishop or a queen, where the scan runs away from its
    end square.  Which cells the scan reads on the way is another matter:
    see [same_square_scan_reads_off_board]. *)
Theorem make_move_never_raises (fuel : nat) (g : ChessVar) (a b : string) :
  reachable g ->
  is_square a = true ->
  is_square b = true ->
  (8 <= fuel)%nat ->
  exists v g',
    make_move fuel g a b = Ret (v, g') /\
    (a = b -> v = false /\ g' = g).
Proof.
  intros Hreach Ha Hb Hfuel. apply reachable_wf in Hreach.
  destruct (chess_notation_to_index_square a Ha) as (sr & sc & Hda & _).
  destruct (chess_notation_to_index_square b Hb) as (er & ec & Hdb & _).
  destruct (make_move_returns fuel g a b _ _ Hreach Hfuel Hda Hdb) as (v & g' & H).
  exists v, g'. split; [exact H|].
  intros <-. rewrite Hda in Hdb. injection Hdb as <- <-.
  assert (E : make_move fuel g a a = Ret (false, g)).
  { unfold make_move. destruct (negb _); [reflexivity|].
    rewrite Hda. simpl. rewrite (is_valid_move_same_square fuel g sr sc Hreach Hfuel).
    reflexivity. }
  rewrite E in H. injection H as <- <-. auto.
Qed.

Lemma make_move_never_raises_witness :
  exists v g',
    make_move 8 position_bishop_takes "c1" "c1" = Ret (v, g') /\
    ("c1"%string = "c1"%string -> v = false /\ g' = position_bishop_takes).
Proof.
  apply (make_move_never_raises 8 position_bishop_takes "c1" "c1");
    [ | reflexivity | reflexivity | lia].
  apply (reachable_move 4 position_after_d4 "g7" "g5" true).
  - apply (reachable_move 4 init "d2" "d4" true); [constructor | reflexivity].
  - reflexivity.
Defined.

(** ** The cells the same-square scan reads *)

(** The list of reads follows the scan: when the scan has an answer, every
    index pair on the list was a valid index for Python. *)
Lemma bishop_scan_reads_readable (b : board) (er ec dr dc : Z) (fuel : nat) :
  forall (cr cc : Z) (v : bool),
    bishop_scan fuel b er ec dr dc cr cc = Ret v ->
    Forall (fun rc : Z * Z => exists p, board_get b rc.1 rc.2 = Ret p)
           (bishop_scan_reads fuel b er ec dr dc cr cc).
Proof.
  induction fuel as [|fuel IH]; intros cr cc v H; simpl in *; [constructor|].
  destruct (negb (cr =? er) && negb (cc =? ec)); [|constructor].
  destruct (board_get b cr cc) as [p| |] eqn:Hp; simpl in H; try discriminate.
  constructor; [exists p; exact Hp|].
  destruct (negb (p =? ".")%char); [constructor|]. eapply IH, H.
Qed.

(** With start and end on the same square the first cell read is the one up
    and to the left of it, whether or not that is a cell of the board. *)
Lemma same_square_first_read (fuel : nat) (g : ChessVar) (r c : Z) :
  hd_error (is_valid_bishop_move_reads (S fuel) g r c r c) = Some (r - 1, c - 1).
Proof.
  unfold is_valid_bishop_move_reads. rewrite !Z.sub_diag. simpl.
  assert (E1 : (r >? r) = false) by lia. assert (E2 : (c >? c) = false) by lia.
  rewrite E1, E2. simpl.
  assert (E3 : (r + -1 =? r) = false) by (apply Z.eqb_neq; lia).
  assert (E4 : (c + -1 =? c) = false) by (apply Z.eqb_neq; lia).
  rewrite E3, E4. simpl. f_equal.
Qed.

(** On the top row or the left column that cell is off the board. *)
Lemma same_square_scan_leaves_board (fuel : nat) (g : ChessVar) (r c : Z) :
  r = 0 \/ c = 0 ->
  exists cell,
    In cell (is_valid_bishop_move_reads (S fuel) g r c r c) /\
    is_on_board cell.1 cell.2 = false.
Proof.
  intros Hedge. exists (r - 1, c - 1). split.
  - pose proof (same_square_first_read fuel g r c) as H.
    destruct (is_valid_bishop_move_reads (S fuel) g r c r c) as [|x l]; [discriminate|].
    injection H as ->. left. reflexivity.
  - simpl. unfold is_on_board.
    destruct Hedge as [-> | ->]; simpl; rewrite ?andb_false_r; reflexivity.
Qed.

(** C2 fails on the code in its second half.  After d2-d4 it is Black's
    move and Black's bishop stands on c8 (row 0, column 2).  The call
    make_move('c8','c8') passes the tests of [is_valid_move] and reaches the
    bishop's scan, which starts one step up and to the left of c8: it reads
    [_game_board[-1][1]], an index pair that is no cell of the board.
    Python takes row -1 from the far end of the list, finds White's knight
    of b1 there, and the call returns [False] without raising.  So the call
    does return a boolean (as in every reachable state, see
    [make_move_never_raises]), but not without an out-of-bounds access. *)
Theorem same_square_scan_reads_off_board :
  reachable position_after_d4 /\
  is_square "c8" = true /\
  chess_notation_to_index "c8" = Ret (0, 2) /\
  board_get (_game_board position_after_d4) 0 2 = Ret "b"%char /\
  is_valid_move 8 position_after_d4 0 2 0 2
  = is_valid_bishop_move 8 position_after_d4 0 2 0 2 /\
  is_valid_bishop_move_reads 8 position_after_d4 0 2 0 2 = [(-1, 1)] /\
  is_on_board (-1) 1 = false /\
  board_get (_game_board position_after_d4) (-1) 1 = Ret "N"%char /\
  board_get (_game_board position_after_d4) 7 1 = Ret "N"%char /\
  make_move 8 position_after_d4 "c8" "c8" = Ret (false, position_after_d4).
Proof.
  split.
  { apply (reachable_move 4 init "d2" "d4" true); [constructor | reflexivity]. }
  repeat split; reflexivity.
Qed.

(** ** The double-king guard, where it does work *)

Lemma scan_row_sees (b : board) (r : Z) (cols : list Z) :
  forall fl fl' : flags,
    for_each (fun (fl : flags) c =>
      let* piece := board_get b r c in
      if (piece =? "K")%char then Ret (true, fl.2)
      else if (piece =? "k")%char then Ret (fl.1, true)
      else Ret fl) cols fl = Ret fl' ->
    (fl.1 = true -> fl'.1 = true) /\
    (fl.2 = true -> fl'.2 = true) /\
    (forall c, In c cols -> board_get b r c = Ret "K"%char -> fl'.1 = true) /\
    (forall c, In c cols -> board_get b r c = Ret "k"%char -> fl'.2 = true).
Proof.
  induction cols as [|c cols IH]; intros fl fl' H; simpl in H.
  - injection H as <-. repeat split; auto; intros c [].
  - bind_inv H. bind_inv Hx. rename x0 into p.
    destruct (IH _ _ H) as (M1 & M2 & S1 & S2).
    assert (Hstep : (fl.1 = true -> x.1 = true) /\ (fl.2 = true -> x.2 = true) /\
                    (p = "K"%char -> x.1 = true) /\ (p = "k"%char -> x.2 = true)).
    { destruct (p =? "K")%char eqn:EK; [|destruct (p =? "k")%char eqn:Ek];
        injection Hx as <-; simpl; repeat split; auto; intros ->; discriminate. }
    destruct Hstep as (N1 & N2 & T1 & T2).
    repeat split; auto.
    + intros c' [<-|Hin] Hc'; [|eauto]. rewrite Hx0 in Hc'. injection Hc' as ->. auto.
    + intros c' [<-|Hin] Hc'; [|eauto]. rewrite Hx0 in Hc'. injection Hc' as ->. auto.
Qed.

Lemma simulate_scan_sees (b : board) (row col : Z) (fl : flags) :
  simulate_scan b row col = Ret fl ->
  (forall r c, In r (blast_rows row) -> In c (blast_cols col) ->
     board_get b r c = Ret "K"%char -> fl.1 = true) /\
  (forall r c, In r (blast_rows row) -> In c (blast_cols col) ->
     board_get b r c = Ret "k"%char -> fl.2 = true).
Proof.
  unfold simulate_scan. generalize (blast_rows row) as rows. generalize (false, false).
  intros fl0 rows. revert fl0 fl.
  enough (G : forall fl0 fl : flags,
    for_each (fun fl r =>
      for_each (fun (fl : flags) c =>
        let* piece := board_get b r c in
        if (piece =? "K")%char then Ret (true, fl.2)
        else if (piece =? "k")%char then Ret (fl.1, true)
        else Ret fl) (blast_cols col) fl) rows fl0 = Ret fl ->
    (fl0.1 = true -> fl.1 = true) /\ (fl0.2 = true -> fl.2 = true) /\
    (forall r c, In r rows -> In c (blast_cols col) ->
       board_get b r c = Ret "K"%char -> fl.1 = true) /\
    (forall r c, In r rows -> In c (blast_cols col) ->
       board_get b r c = Ret "k"%char -> fl.2 = true))
    by (intros fl0 fl H; destruct (G fl0 fl H) as (_ & _ & S1 & S2); auto).
  induction rows as [|r rows IH]; intros fl0 fl H; simpl in H.
  - injection H as <-. repeat split; auto; intros r c [].
  - bind_inv H. destruct (scan_row_sees _ _ _ _ _ Hx) as (N1 & N2 & T1 & T2).
    destruct (IH _ _ H) as (M1 & M2 & S1 & S2).
    repeat split; auto.
    + intros r' c [<-|Hin] Hc Hk; eauto.
    + intros r' c [<-|Hin] Hc Hk; eauto.
Qed.

(** A king never captures: [is_valid_move] refuses it an occupied square. *)
Lemma capturing_piece_not_king (fuel : nat) (g : ChessVar) (sr sc er ec : Z)
  (moving captured : ascii) :
  is_valid_move fuel g sr sc er ec = Ret true ->
  board_get (_game_board g) sr sc = Ret moving ->
  board_get (_game_board g) er ec = Ret captured ->
  captured <> "."%char ->
  is_king moving = false.
Proof.
  intros Hv Hm Hc Hne. destruct (is_king moving) eqn:Hking; [exfalso|reflexivity].
  unfold is_king in Hking. apply char_eqb_true in Hking.
  unfold is_valid_move in Hv.
  destruct (negb _); [discriminate|]. destruct (negb _); [discriminate|].
  rewrite Hm in Hv. simpl in Hv.
  destruct (moving =? ".")%char; [discriminate|].
  destruct (_ || _); [discriminate|].
  rewrite Hking in Hv. simpl in Hv.
  unfold is_valid_king_move in Hv. destruct (_ && _); [|discriminate].
  rewrite Hc in Hv. simpl in Hv. injection Hv as Hv.
  apply char_eqb_true in Hv. contradiction.
Qed.

(** The guard as coded: when the piece taken is not itself a king and both
    kings stand in the blast radius, the capture is refused and nothing
    changes. *)
Lemma double_king_blast_rejected (fuel : nat) (g : ChessVar) (a b : string)
  (sr sc er ec rK cK rk ck : Z) (captured : ascii) :
  wf g ->
  _game_state g = UNFINISHED ->
  chess_notation_to_index a = Ret (sr, sc) ->
  chess_notation_to_index b = Ret (er, ec) ->
  is_valid_move fuel g sr sc er ec = Ret true ->
  board_get (_game_board g) er ec = Ret captured ->
  captured <> "."%char ->
  is_king captured = false ->
  In rK (blast_rows er) -> In cK (blast_cols ec) ->
  board_get (_game_board g) rK cK = Ret "K"%char ->
  In rk (blast_rows er) -> In ck (blast_cols ec) ->
  board_get (_game_board g) rk ck = Ret "k"%char ->
  make_move fuel g a b = Ret (false, g).
Proof.
  intros Hwf Hst Ha Hb Hv Hcap Hne Hnk HrK HcK HK Hrk Hck Hk.
  pose proof (is_valid_move_on_board _ _ _ _ _ _ Hv) as [Hs He].
  apply is_on_board_bounds in Hs as [Hsr Hsc], He as [Her Hec].
  destruct (wf_get _ sr sc Hwf Hsr Hsc) as (moving & Hm & Hmoving).
  pose proof (capturing_piece_not_king _ _ _ _ _ _ _ _ Hv Hm Hcap Hne) as Hmk.
  destruct (wf_set _ sr sc "." Hwf Hsr Hsc is_cell_dot) as (b1 & H1 & Hb1).
  destruct (wf_set _ er ec moving Hb1 Her Hec Hmoving) as (b2 & H2 & Hb2).
  assert (Hcaptured : is_cell captured = true)
    by (eapply wf_get_inv; [exact Hwf | | | exact Hcap]; lia).
  destruct (wf_set _ sr sc moving Hb2 Hsr Hsc Hmoving) as (b3 & H3 & Hb3).
  destruct (wf_set _ er ec captured Hb3 Her Hec Hcaptured) as (b4 & H4 & _).
  (* the kings are still where they were after the tentative move *)
  assert (Hkeep : forall r c x, 0 <= r -> 0 <= c -> is_king x = true ->
                    board_get (_game_board g) r c = Ret x -> board_get b2 r c = Ret x).
  { intros r c x Hr Hc Hx Hget.
    pose proof H1 as P1. pose proof H2 as P2.
    apply board_set_put in P1 as [[y1 C1] ->]; try lia.
    apply board_set_put in P2 as [[y2 C2] ->]; try lia.
    apply board_get_cell; try assumption.
    rewrite (cell_put _ _ _ _ _ _ _ C2), (cell_put _ _ _ _ _ _ _ C1).
    apply board_get_cell in Hget; try assumption.
    apply board_get_cell in Hm, Hcap; try lia.
    repeat case_decide; destruct_and?; try assumption.
    - replace r with er in Hget by lia. replace c with ec in Hget by lia. congruence.
    - replace r with sr in Hget by lia. replace c with sc in Hget by lia. congruence. }
  apply in_blast_rows in HrK as HrK', Hrk as Hrk'.
  apply in_blast_cols in HcK as HcK', Hck as Hck'.
  assert (Hsim : simulate_explosion (set_board g b2) er ec = Ret false).
  { unfold simulate_explosion. simpl.
    destruct (simulate_scan_returns b2 er ec Hb2) as [fl Hfl]. rewrite Hfl. simpl.
    destruct (simulate_scan_sees _ _ _ _ Hfl) as [S1 S2].
    rewrite (S1 rK cK), (S2 rk ck); try assumption; [reflexivity | |];
      apply Hkeep; try lia; try assumption; reflexivity. }
  unfold make_move. rewrite Hst. simpl. rewrite Ha. simpl. rewrite Hb. simpl.
  rewrite Hv. simpl. rewrite Hm. simpl. rewrite Hcap. simpl. rewrite H1. simpl.
  rewrite H2. simpl.
  apply char_eqb_false in Hne. rewrite Hne. simpl. rewrite Hsim. simpl.
  rewrite H3. simpl. rewrite H4. simpl.
  rewrite (revert_restores (_game_board g) b1 b2 b3 b4 sr sc er ec moving captured);
    try assumption; try (apply is_on_board_bounds; lia).
  rewrite set_board_same. reflexivity.
Qed.

Example double_king_blast_rejected_example :
  play 8 init [("e2","e4"); ("e7","e5"); ("e1","e2"); ("e8","e7");
               ("e2","e3"); ("e7","e6"); ("e3","f4"); ("e6","f5");
               ("d2","d4"); ("a7","a6")]%string
  = Ret ([true; true; true; true; true; true; true; true; true; true],
         position_pawn_beside_kings) /\
  make_move 8 position_pawn_beside_kings "d4" "e5"
  = Ret (false, position_pawn_beside_kings).
Proof.
  split; [vm_compute; reflexivity|].
  apply (double_king_blast_rejected 8 position_pawn_beside_kings "d4" "e5"
           4 3 3 4 4 5 3 5 "p");
    solve [reflexivity | discriminate | vm_compute; tauto].
Qed.

(** ** Eight units of fuel are always enough *)

Lemma chess_notation_to_index_settled (s : string) : chess_notation_to_index s <> OutOfFuel.
Proof.
  destruct s as [|file [|rank [|]]]; simpl; try discriminate.
  unfold Py.int. destruct (_ && _); simpl; discriminate.
Qed.

Lemma make_move_settled (g : ChessVar) (a b : string) :
  wf g -> make_move 8 g a b <> OutOfFuel.
Proof.
  intros Hwf.
  destruct (chess_notation_to_index a) as [s| |] eqn:Ha.
  - destruct (chess_notation_to_index b) as [e| |] eqn:Hb.
    + destruct (make_move_returns 8 g a b s e Hwf (le_n 8) Ha Hb) as (v & g' & ->).
      discriminate.
    + unfold make_move. destruct (negb _); [discriminate|].
      rewrite Ha. destruct s. simpl. rewrite Hb. simpl. discriminate.
    + exfalso. eapply chess_notation_to_index_settled, Hb.
  - unfold make_move. destruct (negb _); [discriminate|]. rewrite Ha. simpl. discriminate.
  - exfalso. eapply chess_notation_to_index_settled, Ha.
Qed.

(** In a well-formed state the answer of [make_move] (a pair, or the
    [ValueError] of a malformed coordinate) is the same for every fuel from
    eight on. *)
Lemma make_move_fuel_independent (fuel : nat) (g : ChessVar) (a b : string) :
  wf g -> (8 <= fuel)%nat -> make_move fuel g a b = make_move 8 g a b.
Proof.
  intros Hwf Hfuel.
  apply (make_move_mono 8 fuel g a b); [reflexivity | apply make_move_settled, Hwf | exact Hfuel].
Qed.

(** * Further properties of the source *)

(** ** Coordinates *)

Lemma ord_bounds (c : ascii) : 0 <= Py.ord c < 256.
Proof. unfold Py.ord. pose proof (N_ascii_bounded c). lia. Qed.

Lemma ord_of_code (n : Z) : 0 <= n < 256 -> Py.ord (ascii_of_N (Z.to_N n)) = n.
Proof. intros Hn. unfold Py.ord. rewrite N_ascii_embedding by lia. lia. Qed.

Lemma code_of_ord (c : ascii) : ascii_of_N (Z.to_N (Py.ord c)) = c.
Proof. unfold Py.ord. rewrite N2Z.id. apply ascii_N_embedding. Qed.

(** X1: a square named a1 .. h8 decodes to a row and a column of the board,
    and the square is recovered from them: two different squares never
    decode to the same cell. *)
Theorem square_decodes_on_board (s : string) :
  is_square s = true ->
  exists r c,
    chess_notation_to_index s = Ret (r, c) /\
    is_on_board r c = true /\
    square_of_index r c = s.
Proof.
  destruct s as [|file [|rank [|]]]; simpl; try discriminate.
  rewrite !andb_true_iff, !Z.leb_le. intros [[[Hf1 Hf2] Hr1] Hr2].
  change (Py.ord "a") with 97 in *. change (Py.ord "h") with 104 in *.
  change (Py.ord "1") with 49 in *. change (Py.ord "8") with 56 in *.
  unfold Py.int.
  assert (E : ((48 <=? Py.ord rank) && (Py.ord rank <=? 57)) = true)
    by (apply andb_true_iff; split; apply Z.leb_le; lia).
  rewrite E. simpl. eexists. eexists. split; [reflexivity|]. split.
  - apply is_on_board_bounds. lia.
  - unfold square_of_index.
    replace (97 + (Py.ord file - 97)) with (Py.ord file) by lia.
    replace (56 - (8 - (Py.ord rank - 48))) with (Py.ord rank) by lia.
    rewrite !code_of_ord. reflexivity.
Qed.

Lemma square_decodes_on_board_witness :
  exists r c,
    chess_notation_to_index "g5" = Ret (r, c) /\
    is_on_board r c = true /\
    square_of_index r c = "g5"%string.
Proof. apply (square_decodes_on_board "g5"). reflexivity. Defined.

(** X2: every cell of the board has a name: the square built from a row
    and a column on the board is one of a1 .. h8 and decodes to them. *)
Theorem index_has_square (r c : Z) :
  is_on_board r c = true ->
  is_square (square_of_index r c) = true /\
  chess_notation_to_index (square_of_index r c) = Ret (r, c).
Proof.
  intros H. apply is_on_board_bounds in H as [Hr Hc].
  unfold square_of_index, is_square, chess_notation_to_index, Py.int.
  rewrite !ord_of_code by lia.
  change (Py.ord "a") with 97. change (Py.ord "h") with 104.
  change (Py.ord "1") with 49. change (Py.ord "8") with 56.
  assert (E1 : ((97 <=? 97 + c) && (97 + c <=? 104) && (49 <=? 56 - r) && (56 - r <=? 56)) = true)
    by (rewrite !andb_true_iff, !Z.leb_le; lia).
  assert (E2 : ((48 <=? 56 - r) && (56 - r <=? 57)) = true)
    by (rewrite !andb_true_iff, !Z.leb_le; lia).
  rewrite E1, E2. simpl. split; [reflexivity|]. f_equal. f_equal; lia.
Qed.

Lemma index_has_square_witness :
  is_square (square_of_index 3 6) = true /\
  chess_notation_to_index (square_of_index 3 6) = Ret (3, 6).
Proof. apply (index_has_square 3 6). reflexivity. Defined.

Lemma chess_notation_to_index_cases (s : string) :
  (well_formed_notation s = false /\ chess_notation_to_index s = Raise ValueError) \/
  (well_formed_notation s = true /\
   exists file rank,
     s = String file (String rank EmptyString) /\
     chess_notation_to_index s = Ret (8 - (Py.ord rank - 48), Py.ord file - 97)).
Proof.
  destruct s as [|file [|rank [|]]]; simpl; auto.
  unfold Py.int, is_digit.
  destruct ((48 <=? Py.ord rank) && (Py.ord rank <=? 57)) eqn:E; simpl; auto.
  right. split; [reflexivity|]. exists file, rank. split; reflexivity.
Qed.

(** X3: on an ASCII string [chess_notation_to_index] raises [ValueError]
    exactly when the string is not two characters long or its second
    character is not a digit; on any other ASCII string it returns, the row
    between -1 and 8 and the column between -97 and 30, with no check
    against the board. *)
Theorem chess_notation_to_index_outcome (s : string) :
  is_ascii_string s = true ->
  (well_formed_notation s = false /\ chess_notation_to_index s = Raise ValueError) \/
  (well_formed_notation s = true /\
   exists r c, chess_notation_to_index s = Ret (r, c) /\ -1 <= r <= 8 /\ -97 <= c <= 30).
Proof.
  intros Hascii.
  destruct (chess_notation_to_index_cases s) as [H|(W & file & rank & -> & D)]; [auto|].
  right. split; [exact W|]. eexists. eexists. split; [exact D|].
  unfold is_ascii_string in Hascii. simpl in Hascii.
  apply andb_true_iff in Hascii as [Hf _]. apply Z.ltb_lt in Hf.
  simpl in W. unfold is_digit in W.
  apply andb_true_iff in W as [W1 W2]. apply Z.leb_le in W1, W2.
  pose proof (ord_bounds file). lia.
Qed.

Lemma chess_notation_to_index_outcome_witness :
  (well_formed_notation "z0" = false /\ chess_notation_to_index "z0" = Raise ValueError) \/
  (well_formed_notation "z0" = true /\
   exists r c, chess_notation_to_index "z0" = Ret (r, c) /\ -1 <= r <= 8 /\ -97 <= c <= 30).
Proof. apply (chess_notation_to_index_outcome "z0"). reflexivity. Defined.

(** ** Calls that [make_move] refuses before looking at the pieces *)

(** X4: while the game is unfinished, an ASCII start coordinate that is
    malformed (not two characters, or no digit in second place) makes
    [make_move] raise [ValueError], and so does a malformed ASCII end
    coordinate after a well-formed ASCII start. *)
Theorem make_move_malformed_raises (fuel : nat) (g : ChessVar) (a b : string) :
  _game_state g = UNFINISHED ->
  is_ascii_string a = true ->
  well_formed_notation a = false \/
  (well_formed_notation a = true /\ is_ascii_string b = true /\
   well_formed_notation b = false) ->
  make_move fuel g a b = Raise ValueError.
Proof.
  intros Hst _ H. unfold make_move. rewrite Hst. simpl.
  destruct (chess_notation_to_index_cases a) as [[Wa Da]|[Wa (fa & ra & _ & Da)]];
    rewrite Da; simpl; [reflexivity|].
  destruct H as [H|(_ & _ & Wb)]; [congruence|].
  destruct (chess_notation_to_index_cases b) as [[_ Db]|[Wb' _]];
    [rewrite Db; reflexivity | congruence].
Qed.

Lemma make_move_malformed_raises_witness :
  make_move 8 init "e2" "e" = Raise ValueError.
Proof.
  apply (make_move_malformed_raises 8 init "e2" "e"); [reflexivity | reflexivity |].
  right. repeat split; reflexivity.
Defined.

(** X5: coordinates that decode to a cell off the board (a9, i1, a0, ...)
    are refused: [make_move] returns [False] and changes nothing. *)
Theorem make_move_off_board_rejected (fuel : nat) (g : ChessVar) (a b : string)
  (sr sc er ec : Z) :
  chess_notation_to_index a = Ret (sr, sc) ->
  chess_notation_to_index b = Ret (er, ec) ->
  is_on_board sr sc = false \/ is_on_board er ec = false ->
  make_move fuel g a b = Ret (false, g).
Proof.
  intros Ha Hb H. unfold make_move.
  destruct (negb (game_state_eqb (_game_state g) UNFINISHED)); [reflexivity|].
  rewrite Ha. simpl. rewrite Hb. simpl.
  assert (Hv : is_valid_move fuel g sr sc er ec = Ret false).
  { unfold is_valid_move. unfold is_on_board in H.
    destruct ((0 <=? sr) && (sr <? 8) && (0 <=? sc) && (sc <? 8)); simpl; [|reflexivity].
    destruct H as [H|H]; [discriminate|]. rewrite H. reflexivity. }
  rewrite Hv. reflexivity.
Qed.

Lemma make_move_off_board_rejected_witness :
  make_move 8 init "e2" "e9" = Ret (false, init).
Proof.
  apply (make_move_off_board_rejected 8 init "e2" "e9" 6 4 (-1) 4);
    [reflexivity | reflexivity | right; reflexivity].
Defined.

(** X6: once the game is won, every later call returns [False] and leaves
    the object as it is, whatever the two strings are: a finished game
    never raises and never changes again. *)
Theorem finished_game_absorbs (fuel : nat) (g : ChessVar) (moves : list (string * string)) :
  _game_state g <> UNFINISHED ->
  play fuel g moves = Ret (map (fun _ => false) moves, g).
Proof.
  intros Hst. induction moves as [|[a b] moves IH]; simpl; [reflexivity|].
  assert (E : make_move fuel g a b = Ret (false, g)).
  { unfold make_move. destruct (game_state_eqb (_game_state g) UNFINISHED) eqn:F;
      [apply game_state_eqb_eq in F; contradiction | reflexivity]. }
  rewrite E. simpl. rewrite IH. reflexivity.
Qed.

Lemma finished_game_absorbs_witness :
  play 8 (set_state init BLACK_WON) [("e2", "e4"); ("", "zz")]%string
  = Ret ([false; false], set_state init BLACK_WON).
Proof.
  apply (finished_game_absorbs 8 (set_state init BLACK_WON)
           [("e2", "e4"); ("", "zz")]%string).
  discriminate.
Defined.

(** ** What [is_valid_move] never accepts *)

Lemma upper_not_lower (p : ascii) : Py.isupper p = true -> Py.islower p = false.
Proof.
  unfold Py.isupper, Py.islower. rewrite andb_true_iff, !Z.leb_le. intros [H1 H2].
  apply andb_false_iff. left. apply Z.leb_gt. lia.
Qed.

Lemma lower_of_upper_is_lower (p : ascii) : Py.isupper p = true -> Py.islower (Py.lower p) = true.
Proof.
  intros H. unfold Py.lower. rewrite H. revert H. unfold Py.isupper, Py.islower, Py.ord.
  rewrite !andb_true_iff, !Z.leb_le. intros [H1 H2].
  rewrite N_ascii_embedding by lia. lia.
Qed.

(** A letter the dispatch of [is_valid_move] knows is a letter of one of
    the two cases. *)
Lemma dispatched_letter_has_color (p x : ascii) :
  In x (list_ascii_of_string "pnbrqk") ->
  (Py.lower p =? x)%char = true ->
  Py.isupper p = true \/ Py.islower p = true.
Proof.
  intros Hx Hp. apply char_eqb_true in Hp.
  destruct (Py.isupper p) eqn:U; [auto|]. right.
  unfold Py.lower in Hp. rewrite U in Hp. subst p.
  simpl in Hx. repeat (destruct Hx as [<-|Hx]; [reflexivity|]). destruct Hx.
Qed.

Lemma is_valid_move_own_piece (fuel : nat) (g : ChessVar) (sr sc er ec : Z) :
  is_valid_move fuel g sr sc er ec = Ret true ->
  is_on_board sr sc = true /\
  is_on_board er ec = true /\
  exists piece,
    board_get (_game_board g) sr sc = Ret piece /\
    piece <> "."%char /\
    color_of piece = Some (_current_player g).
Proof.
  intros H. pose proof (is_valid_move_on_board _ _ _ _ _ _ H) as [Hs He].
  split; [exact Hs|]. split; [exact He|].
  unfold is_valid_move in H. unfold is_on_board in Hs, He. rewrite Hs, He in H. simpl in H.
  destruct (board_get (_game_board g) sr sc) as [piece| |]; simpl in H; try discriminate.
  exists piece. split; [reflexivity|].
  destruct (piece =? ".")%char eqn:Hdot; [discriminate|]. apply char_eqb_false in Hdot.
  split; [exact Hdot|].
  destruct (_ || _) eqn:Hcol; [discriminate|].
  assert (Hletter : Py.isupper piece = true \/ Py.islower piece = true).
  { destruct (Py.lower piece =? "p")%char eqn:E1;
      [eapply dispatched_letter_has_color; [|exact E1]; simpl; tauto|].
    destruct (Py.lower piece =? "n")%char eqn:E2;
      [eapply dispatched_letter_has_color; [|exact E2]; simpl; tauto|].
    destruct (Py.lower piece =? "b")%char eqn:E3;
      [eapply dispatched_letter_has_color; [|exact E3]; simpl; tauto|].
    destruct (Py.lower piece =? "r")%char eqn:E4;
      [eapply dispatched_letter_has_color; [|exact E4]; simpl; tauto|].
    destruct (Py.lower piece =? "q")%char eqn:E5;
      [eapply dispatched_letter_has_color; [|exact E5]; simpl; tauto|].
    destruct (Py.lower piece =? "k")%char eqn:E6;
      [eapply dispatched_letter_has_color; [|exact E6]; simpl; tauto|].
    discriminate. }
  unfold color_of. destruct Hletter as [U|L].
  - rewrite U in *. simpl in Hcol. destruct (_current_player g); simpl in *; congruence.
  - destruct (Py.isupper piece) eqn:U; [apply upper_not_lower in U; congruence|].
    rewrite L in *. simpl in Hcol. destruct (_current_player g); simpl in *; congruence.
Qed.

(** X7: whenever [is_valid_move] answers [True], both squares are on the
    board and the start square holds a piece of the side to move: an empty
    square, an opponent's piece or a cell off the board is never accepted. *)
Theorem is_valid_move_gates (fuel : nat) (g : ChessVar) (sr sc er ec : Z) :
  is_valid_move fuel g sr sc er ec = Ret true ->
  is_on_board sr sc = true /\
  is_on_board er ec = true /\
  exists piece,
    board_get (_game_board g) sr sc = Ret piece /\
    piece <> "."%char /\
    color_of piece = Some (_current_player g).
Proof. apply is_valid_move_own_piece. Qed.

Lemma is_valid_move_gates_witness :
  is_on_board 6 3 = true /\
  is_on_board 4 3 = true /\
  exists piece,
    board_get (_game_board init) 6 3 = Ret piece /\
    piece <> "."%char /\
    color_of piece = Some (_current_player init).
Proof. apply (is_valid_move_gates 8 init 6 3 4 3). reflexivity. Defined.

(** ** The knight *)

(** X8: for a knight of the side to move, [is_valid_move] looks at the
    displacement only: any cell of the board two rows and one column away,
    or one row and two columns away, is accepted, whatever stands on it or
    on the way; every other cell is refused. *)
Theorem knight_move_rule (fuel : nat) (g : ChessVar) (sr sc er ec : Z) (piece : ascii) :
  is_on_board sr sc = true ->
  is_on_board er ec = true ->
  board_get (_game_board g) sr sc = Ret piece ->
  piece = "n"%char \/ piece = "N"%char ->
  color_of piece = Some (_current_player g) ->
  exists v,
    is_valid_move fuel g sr sc er ec = Ret v /\
    (v = true <->
     (Z.abs (sr - er) = 2 /\ Z.abs (sc - ec) = 1) \/
     (Z.abs (sr - er) = 1 /\ Z.abs (sc - ec) = 2)).
Proof.
  intros Hs He Hp Hpiece Hcol.
  exists (is_valid_knight_move sr sc er ec). split.
  - unfold is_valid_move. unfold is_on_board in Hs, He. rewrite Hs, He. simpl.
    rewrite Hp. simpl.
    destruct Hpiece as [-> | ->];
      destruct (_current_player g); try discriminate Hcol; reflexivity.
  - unfold is_valid_knight_move.
    rewrite orb_true_iff, !andb_true_iff, !Z.eqb_eq. reflexivity.
Qed.

Lemma knight_move_rule_witness :
  exists v,
    is_valid_move 8 init 7 1 5 2 = Ret v /\
    (v = true <->
     (Z.abs (7 - 5) = 2 /\ Z.abs (1 - 2) = 1) \/
     (Z.abs (7 - 5) = 1 /\ Z.abs (1 - 2) = 2)).
Proof.
  apply (knight_move_rule 8 init 7 1 5 2 "N"); try reflexivity. right. reflexivity.
Defined.

(** ** The rook *)

Lemma path_clear_spec (b : board) (cells : list (Z * Z)) :
  wf_board b = true ->
  (forall r c, In (r, c) cells -> 0 <= r < 8 /\ 0 <= c < 8) ->
  exists v,
    path_clear b cells = Ret v /\
    (v = true <-> forall r c, In (r, c) cells -> board_get b r c = Ret "."%char).
Proof.
  intros Hwf. induction cells as [|[r c] cells IH]; simpl; intros Hin.
  - exists true. split; [reflexivity|]. split; [intros _ r c [] | reflexivity].
  - destruct (Hin r c (or_introl eq_refl)) as [Hr Hc].
    destruct (wf_get b r c Hwf Hr Hc) as (x & Hx & _). rewrite Hx. simpl.
    destruct (x =? ".")%char eqn:E; simpl.
    + apply char_eqb_true in E. subst x.
      destruct IH as (v & Hv & Hiff); [intros r' c' H; apply Hin; right; exact H|].
      exists v. split; [exact Hv|]. rewrite Hiff. split.
      * intros H r' c' [Heq|Hin']; [injection Heq as <- <-; exact Hx | apply H, Hin'].
      * intros H r' c' Hin'. apply H. right. exact Hin'.
    + apply char_eqb_false in E. exists false. split; [reflexivity|].
      split; [discriminate|]. intros H.
      specialize (H r c (or_introl eq_refl)). rewrite Hx in H. injection H as H.
      contradiction.
Qed.

Lemma opposing_piece_test (d : ascii) (cp : player) :
  (Py.isupper d && player_eqb cp BLACK) || (Py.islower d && player_eqb cp WHITE) = true <->
  color_of d = Some (opposite cp).
Proof.
  unfold color_of.
  destruct (Py.isupper d) eqn:U; [rewrite (upper_not_lower d U)|];
    destruct (Py.islower d) eqn:L; destruct cp; simpl; split; congruence.
Qed.

Lemma in_range3_step (start stop x : Z) (up : bool) :
  In x (Py.range3 (start + (if up then 1 else -1)) stop (if up then 1 else -1)) <->
  (if up then start < x < stop else stop < x < start).
Proof.
  destruct up; [rewrite in_range3_up | rewrite in_range3_down]; lia.
Qed.

(** X9: a rook's move is legal exactly when it stays on its row or on its
    column, every cell strictly between start and end is empty, and the end
    cell is empty or holds a piece of the side that is not to move. *)
Theorem rook_move_rule (g : ChessVar) (sr sc er ec : Z) (d : ascii) :
  wf g ->
  is_on_board sr sc = true ->
  is_on_board er ec = true ->
  board_get (_game_board g) er ec = Ret d ->
  exists v,
    is_valid_rook_move g sr sc er ec = Ret v /\
    (v = true <->
     (sr = er \/ sc = ec) /\
     (forall c, sr = er -> strictly_between sc c ec ->
        board_get (_game_board g) sr c = Ret "."%char) /\
     (forall r, sr <> er -> strictly_between sr r er ->
        board_get (_game_board g) r sc = Ret "."%char) /\
     (d = "."%char \/ color_of d = Some (opposite (_current_player g)))).
Proof.
  intros Hwf Hs He Hd.
  apply is_on_board_bounds in Hs as [Hsr Hsc], He as [Her Hec].
  unfold is_valid_rook_move.
  destruct (Z.eqb_spec sr er) as [Hrow|Hrow]; simpl.
  - (* along the row *)
    set (up := ec >? sc).
    destruct (path_clear_spec (_game_board g)
                (map (fun col => (sr, col))
                     (Py.range3 (sc + (if up then 1 else -1)) ec (if up then 1 else -1))) Hwf)
      as (v & Hv & Hiff).
    { intros r c Hin. apply in_map_iff in Hin as (x & Hx & Hin). injection Hx as <- <-.
      apply in_range3_step in Hin. destruct up; lia. }
    rewrite Hv. simpl. destruct v; simpl.
    + rewrite Hd. simpl.
      assert (Hpath : forall c, sr = er -> strictly_between sc c ec ->
                                board_get (_game_board g) sr c = Ret "."%char).
      { intros c _ Hc. apply (proj1 Hiff eq_refl). apply in_map_iff. exists c.
        split; [reflexivity|]. apply in_range3_step. unfold strictly_between in Hc.
        unfold up. destruct (Z.gtb_spec ec sc); lia. }
      destruct (d =? ".")%char eqn:E; simpl.
      * exists true. split; [reflexivity|]. split; [intros _|reflexivity].
        apply char_eqb_true in E. repeat split; auto. intros r Hne. contradiction.
      * apply char_eqb_false in E.
        exists ((Py.isupper d && player_eqb (_current_player g) BLACK)
                || (Py.islower d && player_eqb (_current_player g) WHITE)).
        split; [destruct (_ || _); reflexivity|].
        rewrite opposing_piece_test. split.
        -- intros Ht. repeat split; auto. intros r Hne. contradiction.
        -- intros (_ & _ & _ & [Hx|Hx]); [contradiction | exact Hx].
    + exists false. split; [reflexivity|]. split; [discriminate|].
      intros (_ & Hpath & _). assert (Hc : false = true); [|discriminate Hc].
      apply Hiff. intros r c Hin. apply in_map_iff in Hin as (x & Hx & Hin).
      injection Hx as <- <-. apply Hpath; [exact Hrow|].
      apply in_range3_step in Hin. unfold strictly_between. destruct up; lia.
  - destruct (Z.eqb_spec sc ec) as [Hcol|Hcol]; simpl.
    2:{ exists false. split; [reflexivity|]. split; [discriminate|]. intros ([|] & _); contradiction. }
    set (up := er >? sr).
    destruct (path_clear_spec (_game_board g)
                (map (fun row => (row, sc))
                     (Py.range3 (sr + (if up then 1 else -1)) er (if up then 1 else -1))) Hwf)
      as (v & Hv & Hiff).
    { intros r c Hin. apply in_map_iff in Hin as (x & Hx & Hin). injection Hx as <- <-.
      apply in_range3_step in Hin. destruct up; lia. }
    rewrite Hv. simpl. destruct v; simpl.
    + rewrite Hd. simpl.
      assert (Hpath : forall r, sr <> er -> strictly_between sr r er ->
                                board_get (_game_board g) r sc = Ret "."%char).
      { intros r _ Hr. apply (proj1 Hiff eq_refl). apply in_map_iff. exists r.
        split; [reflexivity|]. apply in_range3_step. unfold strictly_between in Hr.
        unfold up. destruct (Z.gtb_spec er sr); lia. }
      destruct (d =? ".")%char eqn:E; simpl.
      * exists true. split; [reflexivity|]. split; [intros _|reflexivity].
        apply char_eqb_true in E. repeat split; auto. intros c Heq. contradiction.
      * apply char_eqb_false in E.
        exists ((Py.isupper d && player_eqb (_current_player g) BLACK)
                || (Py.islower d && player_eqb (_current_player g) WHITE)).
        split; [destruct (_ || _); reflexivity|].
        rewrite opposing_piece_test. split.
        -- intros Ht. repeat split; auto. intros c Heq. contradiction.
        -- intros (_ & _ & _ & [Hx|Hx]); [contradiction | exact Hx].
    + exists false. split; [reflexivity|]. split; [discriminate|].
      intros (_ & _ & Hpath & _). assert (Hc : false = true); [|discriminate Hc].
      apply Hiff. intros r c Hin. apply in_map_iff in Hin as (x & Hx & Hin).
      injection Hx as <- <-. apply Hpath; [exact Hrow|].
      apply in_range3_step in Hin. unfold strictly_between. destruct up; lia.
Qed.

Lemma rook_move_rule_witness :
  exists v,
    is_valid_rook_move init 7 0 5 0 = Ret v /\
    (v = true <->
     (7 = 5 \/ 0 = 0) /\
     (forall c, 7 = 5 -> strictly_between 0 c 0 ->
        board_get (_game_board init) 7 c = Ret "."%char) /\
     (forall r, 7 <> 5 -> strictly_between 7 r 5 ->
        board_get (_game_board init) r 0 = Ret "."%char) /\
     ("."%char = "."%char \/ color_of "." = Some (opposite (_current_player init)))).
Proof. apply (rook_move_rule init 7 0 5 0 "."); reflexivity. Defined.

(** ** The bishop *)

(** The scan towards an end square [n] diagonal steps away answers [True]
    exactly when the [n] squares before it are empty. *)
Lemma bishop_scan_toward (b : board) (er ec dr dc : Z) (n : nat) :
  dr <> 0 -> dc <> 0 ->
  forall (fuel : nat) (cr cc : Z),
    (n < fuel)%nat ->
    cr + Z.of_nat n * dr = er ->
    cc + Z.of_nat n * dc = ec ->
    (forall k : nat, (k < n)%nat ->
       exists p, board_get b (cr + Z.of_nat k * dr) (cc + Z.of_nat k * dc) = Ret p) ->
    exists v,
      bishop_scan fuel b er ec dr dc cr cc = Ret v /\
      (v = true <->
       forall k : nat, (k < n)%nat ->
         board_get b (cr + Z.of_nat k * dr) (cc + Z.of_nat k * dc) = Ret "."%char).
Proof.
  intros Hdr Hdc. induction n as [|n IH]; intros fuel cr cc Hfuel Her Hec Hread;
    (destruct fuel as [|fuel]; [lia|]); simpl.
  - replace cr with er by lia. rewrite Z.eqb_refl. simpl.
    exists true. split; [reflexivity|]. split; [intros _ k Hk; lia | reflexivity].
  - assert (Hr : (cr =? er) = false) by (apply Z.eqb_neq; nia).
    assert (Hc : (cc =? ec) = false) by (apply Z.eqb_neq; nia).
    rewrite Hr, Hc. simpl.
    destruct (Hread 0%nat) as [p Hp]; [lia|].
    replace (cr + Z.of_nat 0 * dr) with cr in Hp by lia.
    replace (cc + Z.of_nat 0 * dc) with cc in Hp by lia.
    rewrite Hp. simpl.
    destruct (p =? ".")%char eqn:E; simpl.
    + apply char_eqb_true in E. subst p.
      destruct (IH fuel (cr + dr) (cc + dc)) as (v & Hv & Hiff); [lia | lia | lia | |].
      { intros k Hk. destruct (Hread (S k)) as [q Hq]; [lia|]. exists q.
        rewrite <- Hq. f_equal; lia. }
      exists v. split; [exact Hv|]. rewrite Hiff. split.
      * intros H k Hk. destruct k as [|k].
        -- rewrite <- Hp. f_equal; lia.
        -- rewrite <- (H k) by lia. f_equal; lia.
      * intros H k Hk. rewrite <- (H (S k)) by lia. f_equal; lia.
    + apply char_eqb_false in E. exists false. split; [reflexivity|].
      split; [discriminate|]. intros H. specialize (H 0%nat ltac:(lia)).
      replace (cr + Z.of_nat 0 * dr) with cr in H by lia.
      replace (cc + Z.of_nat 0 * dc) with cc in H by lia.
      rewrite Hp in H. injection H as H. contradiction.
Qed.

(** X10: a bishop's move is legal exactly when it goes the same number of
    rows and columns, at least one, and every cell strictly between start
    and end on that diagonal is empty; what stands on the end cell plays no
    part, so a bishop may land on a piece of either colour. *)
Theorem bishop_move_rule (fuel : nat) (g : ChessVar) (sr sc er ec : Z) (p : ascii) :
  wf g ->
  is_on_board sr sc = true ->
  is_on_board er ec = true ->
  board_get (_game_board g) sr sc = Ret p ->
  p <> "."%char ->
  (8 <= fuel)%nat ->
  exists v,
    is_valid_bishop_move fuel g sr sc er ec = Ret v /\
    (v = true <->
     Z.abs (sr - er) = Z.abs (sc - ec) /\
     sr <> er /\
     forall k, 0 < k < Z.abs (sr - er) ->
       board_get (_game_board g) (sr + k * Z.sgn (er - sr)) (sc + k * Z.sgn (ec - sc))
       = Ret "."%char).
Proof.
  intros Hwf Hs He Hp Hne Hfuel.
  apply is_on_board_bounds in Hs as [Hsr Hsc], He as [Her Hec].
  destruct (Z.eq_dec sr er) as [Hrow|Hrow].
  { exists false. split; [|split; [discriminate | intros (_ & H & _); contradiction]].
    subst er. destruct (Z.eq_dec sc ec) as [<-|Hcol].
    - eapply is_valid_bishop_move_same_square; eassumption.
    - unfold is_valid_bishop_move.
      replace (Z.abs (sr - sr) =? Z.abs (sc - ec)) with false; [reflexivity|].
      symmetry. apply Z.eqb_neq. lia. }
  unfold is_valid_bishop_move.
  destruct (Z.eqb_spec (Z.abs (sr - er)) (Z.abs (sc - ec))) as [Habs|Habs]; simpl.
  2:{ exists false. split; [reflexivity|]. split; [discriminate|]. intros (H & _). contradiction. }
  set (dr := if er >? sr then 1 else -1). set (dc := if ec >? sc then 1 else -1).
  assert (Hdr : dr = Z.sgn (er - sr)) by (unfold dr; destruct (Z.gtb_spec er sr); lia).
  assert (Hdc : dc = Z.sgn (ec - sc)) by (unfold dc; destruct (Z.gtb_spec ec sc); lia).
  assert (Hdr' : (er > sr /\ dr = 1) \/ (er < sr /\ dr = -1))
    by (unfold dr; destruct (Z.gtb_spec er sr); lia).
  assert (Hdc' : (ec > sc /\ dc = 1) \/ (ec < sc /\ dc = -1))
    by (unfold dc; destruct (Z.gtb_spec ec sc); lia).
  destruct (bishop_scan_toward (_game_board g) er ec dr dc
              (Z.to_nat (Z.abs (sr - er) - 1)) ltac:(lia) ltac:(lia)
              fuel (sr + dr) (sc + dc)) as (v & Hv & Hiff); [lia | lia | lia | |].
  { intros k Hk.
    destruct (wf_get (_game_board g) (sr + dr + Z.of_nat k * dr) (sc + dc + Z.of_nat k * dc))
      as (x & Hx & _); [exact Hwf | lia | lia | eauto]. }
  exists v. split; [exact Hv|]. rewrite Hiff. rewrite <- Hdr, <- Hdc. split.
  - intros H. split; [exact Habs|]. split; [exact Hrow|].
    intros k Hk. rewrite <- (H (Z.to_nat (k - 1))) by lia. f_equal; lia.
  - intros (_ & _ & H) k Hk. rewrite <- (H (Z.of_nat k + 1)) by lia. f_equal; lia.
Qed.

Lemma bishop_move_rule_witness :
  exists v,
    is_valid_bishop_move 8 position_bishop_takes 7 2 3 6 = Ret v /\
    (v = true <->
     Z.abs (7 - 3) = Z.abs (2 - 6) /\
     7 <> 3 /\
     forall k, 0 < k < Z.abs (7 - 3) ->
       board_get (_game_board position_bishop_takes)
         (7 + k * Z.sgn (3 - 7)) (2 + k * Z.sgn (6 - 2))
       = Ret "."%char).
Proof.
  apply (bishop_move_rule 8 position_bishop_takes 7 2 3 6 "B");
    solve [reflexivity | discriminate | lia].
Defined.

(** ** The queen *)

(** X11: on a diagonal displacement the queen is judged as a bishop (so she
    too may land on a piece of either colour), on any other displacement as
    a rook. *)
Theorem queen_move_rule (fuel : nat) (g : ChessVar) (sr sc er ec : Z) (p : ascii) :
  wf g ->
  is_on_board sr sc = true ->
  is_on_board er ec = true ->
  board_get (_game_board g) sr sc = Ret p ->
  p <> "."%char ->
  (8 <= fuel)%nat ->
  (Z.abs (sr - er) = Z.abs (sc - ec) -> sr <> er ->
   is_valid_queen_move fuel g sr sc er ec = is_valid_bishop_move fuel g sr sc er ec) /\
  (Z.abs (sr - er) <> Z.abs (sc - ec) ->
   is_valid_queen_move fuel g sr sc er ec = is_valid_rook_move g sr sc er ec).
Proof.
  intros Hwf Hs He Hp Hne Hfuel. split.
  - intros Habs Hrow. unfold is_valid_queen_move.
    pose proof Hs as Hs'. pose proof He as He'.
    apply is_on_board_bounds in Hs' as [Hsr Hsc], He' as [Her Hec].
    destruct (is_valid_bishop_move_returns fuel g sr sc er ec p Hwf Hsr Hsc Her Hec Hp Hne Hfuel)
      as [v Hv].
    rewrite Hv. simpl. destruct v; [reflexivity|].
    unfold is_valid_rook_move.
    assert (E1 : (sr =? er) = false) by (apply Z.eqb_neq; exact Hrow).
    assert (E2 : (sc =? ec) = false) by (apply Z.eqb_neq; lia).
    rewrite E1, E2. reflexivity.
  - intros Habs. unfold is_valid_queen_move, is_valid_bishop_move.
    apply Z.eqb_neq in Habs. rewrite Habs. reflexivity.
Qed.

Lemma queen_move_rule_witness :
  (Z.abs (7 - 6) = Z.abs (3 - 4) -> 7 <> 6 ->
   is_valid_queen_move 8 init 7 3 6 4 = is_valid_bishop_move 8 init 7 3 6 4) /\
  (Z.abs (7 - 6) <> Z.abs (3 - 4) ->
   is_valid_queen_move 8 init 7 3 6 4 = is_valid_rook_move init 7 3 6 4).
Proof.
  apply (queen_move_rule 8 init 7 3 6 4 "Q"); solve [reflexivity | discriminate | lia].
Defined.

(** ** The pawn *)

(** X12: a pawn's move is legal exactly in three cases: one step straight
    ahead onto an empty cell; two steps straight ahead from row 1 or row 6
    through an empty cell onto an empty cell; one step diagonally ahead onto
    an occupied cell.  The colour of the piece taken is never looked at, so
    a pawn may take a piece of its own side. *)
Theorem pawn_move_rule (g : ChessVar) (sr sc er ec : Z) (piece d : ascii) :
  wf g ->
  is_on_board sr sc = true ->
  is_on_board er ec = true ->
  board_get (_game_board g) sr sc = Ret piece ->
  board_get (_game_board g) er ec = Ret d ->
  exists v,
    is_valid_pawn_move g sr sc er ec = Ret v /\
    (v = true <->
     (ec = sc /\ d = "."%char /\
      (er = sr + forward piece \/
       (er = sr + 2 * forward piece /\ (sr = 1 \/ sr = 6) /\
        board_get (_game_board g) (sr + forward piece) sc = Ret "."%char))) \/
     (Z.abs (sc - ec) = 1 /\ er = sr + forward piece /\ d <> "."%char)).
Proof.
  intros Hwf Hs He Hp Hd.
  apply is_on_board_bounds in Hs as [Hsr Hsc], He as [Her Hec].
  unfold is_valid_pawn_move. rewrite Hp. simpl.
  change (if Py.islower piece then 1 else -1) with (forward piece).
  assert (Hf : forward piece = 1 \/ forward piece = -1)
    by (unfold forward; destruct (Py.islower piece); auto).
  destruct (Z.eqb_spec sc ec) as [Hcol|Hcol]; simpl.
  - rewrite Hd. simpl.
    assert (Hcap : (Z.abs (sc - ec) =? 1) = false) by (apply Z.eqb_neq; lia).
    destruct (d =? ".")%char eqn:E; simpl.
    + apply char_eqb_true in E.
      destruct (Z.eqb_spec (sr + forward piece) er) as [H1|H1]; simpl.
      * exists true. split; [reflexivity|]. split; [intros _|reflexivity].
        left. repeat split; auto.
      * destruct (Z.eqb_spec (sr + 2 * forward piece) er) as [H2|H2]; simpl.
        -- destruct ((sr =? 1) || (sr =? 6)) eqn:Hhome; simpl.
           ++ destruct (wf_get _ (sr + forward piece) sc Hwf) as (m & Hm & _); [lia | lia |].
              rewrite Hm. simpl. destruct (m =? ".")%char eqn:Em; simpl.
              ** exists true. split; [reflexivity|]. split; [intros _|reflexivity].
                 apply char_eqb_true in Em. subst m.
                 apply orb_true_iff in Hhome. rewrite !Z.eqb_eq in Hhome.
                 left. repeat split; auto.
              ** rewrite Hcap. simpl. exists false. split; [reflexivity|].
                 split; [discriminate|]. apply char_eqb_false in Em.
                 intros [(_ & _ & [H|(_ & _ & H)])|(H & _)]; [lia | | lia].
                 injection H as H. contradiction.
           ++ rewrite Hcap. simpl. exists false. split; [reflexivity|].
              split; [discriminate|].
              apply orb_false_iff in Hhome. rewrite !Z.eqb_neq in Hhome.
              intros [(_ & _ & [H|(_ & H & _)])|(H & _)]; lia.
        -- rewrite Hcap. simpl. exists false. split; [reflexivity|].
           split; [discriminate|].
           intros [(_ & _ & [H|(H & _)])|(H & _)]; lia.
    + rewrite Hcap. simpl. exists false. split; [reflexivity|].
      split; [discriminate|]. apply char_eqb_false in E.
      intros [(_ & H & _)|(H & _)]; [contradiction | lia].
  - destruct ((Z.abs (sc - ec) =? 1) && (sr + forward piece =? er)) eqn:Hcap; simpl.
    + apply andb_true_iff in Hcap as [H1 H2]. apply Z.eqb_eq in H1, H2.
      rewrite Hd. simpl.
      destruct (d =? ".")%char eqn:E; simpl.
      * apply char_eqb_true in E. subst d.
        change (Py.islower ".") with false. change (Py.isupper ".") with false.
        rewrite !andb_false_r. simpl.
        exists false. split; [reflexivity|].
        split; [discriminate|].
        intros [(H & _)|(_ & _ & H)]; [congruence | contradiction].
      * exists true. split; [reflexivity|]. split; [intros _|reflexivity].
        apply char_eqb_false in E. right. auto.
    + exists false. split; [reflexivity|]. split; [discriminate|].
      apply andb_false_iff in Hcap. rewrite !Z.eqb_neq in Hcap.
      intros [(H & _)|(H1 & H2 & _)]; [congruence | lia].
Qed.

Lemma pawn_move_rule_witness :
  exists v,
    is_valid_pawn_move position_kings_adjacent 4 4 3 5 = Ret v /\
    (v = true <->
     (5 = 4 /\ "k"%char = "."%char /\
      (3 = 4 + forward "P" \/
       (3 = 4 + 2 * forward "P" /\ (4 = 1 \/ 4 = 6) /\
        board_get (_game_board position_kings_adjacent) (4 + forward "P") 4 = Ret "."%char))) \/
     (Z.abs (4 - 5) = 1 /\ 3 = 4 + forward "P" /\ "k"%char <> "."%char)).
Proof. apply (pawn_move_rule position_kings_adjacent 4 4 3 5 "P" "k"); reflexivity. Defined.

(** ** The king tests of the explosion *)

Lemma in_blast_iff (row col r c : Z) :
  in_blast row col r c <-> In r (blast_rows row) /\ In c (blast_cols col).
Proof.
  unfold in_blast, blast_rows, blast_cols. rewrite !in_range. lia.
Qed.

Lemma scan_row_only (b : board) (r : Z) (cols : list Z) :
  forall fl fl' : flags,
    for_each (fun (fl : flags) c =>
      let* piece := board_get b r c in
      if (piece =? "K")%char then Ret (true, fl.2)
      else if (piece =? "k")%char then Ret (fl.1, true)
      else Ret fl) cols fl = Ret fl' ->
    (fl'.1 = true -> fl.1 = true \/ exists c, In c cols /\ board_get b r c = Ret "K"%char) /\
    (fl'.2 = true -> fl.2 = true \/ exists c, In c cols /\ board_get b r c = Ret "k"%char).
Proof.
  induction cols as [|c cols IH]; intros fl fl' H; simpl in H.
  - injection H as <-. auto.
  - bind_inv H. bind_inv Hx. rename x0 into p.
    destruct (IH _ _ H) as [I1 I2].
    assert (Hstep : (x.1 = true -> fl.1 = true \/ p = "K"%char) /\
                    (x.2 = true -> fl.2 = true \/ p = "k"%char)).
    { destruct (p =? "K")%char eqn:EK; [|destruct (p =? "k")%char eqn:Ek];
        injection Hx as <-; simpl; rewrite ?char_eqb_true in *; auto. }
    destruct Hstep as [S1 S2]. split; intros Hf.
    + destruct (I1 Hf) as [Hx1|(c' & Hin & Hc')]; [|right; exists c'; split; [right|]; auto].
      destruct (S1 Hx1) as [ | -> ]; [auto|]. right. exists c. split; [left|]; auto.
    + destruct (I2 Hf) as [Hx2|(c' & Hin & Hc')]; [|right; exists c'; split; [right|]; auto].
      destruct (S2 Hx2) as [ | -> ]; [auto|]. right. exists c. split; [left|]; auto.
Qed.

Lemma simulate_scan_only (b : board) (row col : Z) (fl : flags) :
  simulate_scan b row col = Ret fl ->
  (fl.1 = true -> piece_in_blast b row col "K") /\
  (fl.2 = true -> piece_in_blast b row col "k").
Proof.
  unfold simulate_scan, piece_in_blast.
  enough (G : forall rows (fl0 fl : flags),
    for_each (fun fl r =>
      for_each (fun (fl : flags) c =>
        let* piece := board_get b r c in
        if (piece =? "K")%char then Ret (true, fl.2)
        else if (piece =? "k")%char then Ret (fl.1, true)
        else Ret fl) (blast_cols col) fl) rows fl0 = Ret fl ->
    (fl.1 = true -> fl0.1 = true \/
       exists r c, In r rows /\ In c (blast_cols col) /\ board_get b r c = Ret "K"%char) /\
    (fl.2 = true -> fl0.2 = true \/
       exists r c, In r rows /\ In c (blast_cols col) /\ board_get b r c = Ret "k"%char)).
  { intros H. destruct (G _ _ _ H) as [G1 G2]. split; intros Hf.
    - destruct (G1 Hf) as [Hx|(r & c & Hr & Hc & Hk)]; [discriminate Hx|].
      exists r, c. split; [apply in_blast_iff; auto | exact Hk].
    - destruct (G2 Hf) as [Hx|(r & c & Hr & Hc & Hk)]; [discriminate Hx|].
      exists r, c. split; [apply in_blast_iff; auto | exact Hk]. }
  induction rows as [|r rows IH]; intros fl0 fl' H; simpl in H.
  - injection H as <-. auto.
  - bind_inv H. destruct (scan_row_only _ _ _ _ _ Hx) as [S1 S2].
    destruct (IH _ _ H) as [I1 I2]. split; intros Hf.
    + destruct (I1 Hf) as [Hx1|(r' & c & Hr & Hc & Hk)];
        [|right; exists r', c; split; [right|]; auto].
      destruct (S1 Hx1) as [|(c & Hc & Hk)]; [auto|].
      right. exists r, c. split; [left|]; auto.
    + destruct (I2 Hf) as [Hx2|(r' & c & Hr & Hc & Hk)];
        [|right; exists r', c; split; [right|]; auto].
      destruct (S2 Hx2) as [|(c & Hc & Hk)]; [auto|].
      right. exists r, c. split; [left|]; auto.
Qed.

Lemma simulate_scan_flags (b : board) (row col : Z) (fl : flags) :
  simulate_scan b row col = Ret fl ->
  (fl.1 = true <-> piece_in_blast b row col "K") /\
  (fl.2 = true <-> piece_in_blast b row col "k").
Proof.
  intros H. destruct (simulate_scan_only _ _ _ _ H) as [O1 O2].
  destruct (simulate_scan_sees _ _ _ _ H) as [S1 S2].
  split; (split; [auto|]); intros (r & c & Hin & Hk); apply in_blast_iff in Hin as [Hr Hc];
    eauto.
Qed.

(** X13: [simulate_explosion] changes nothing and answers [False] exactly
    when a White king and a Black king both stand in the blast radius of the
    given cell, on the board as it is when the method is called. *)
Theorem simulate_explosion_rule (g : ChessVar) (row col : Z) :
  wf g ->
  exists v,
    simulate_explosion g row col = Ret v /\
    (v = false <->
     piece_in_blast (_game_board g) row col "K" /\
     piece_in_blast (_game_board g) row col "k").
Proof.
  intros Hwf. unfold simulate_explosion.
  destruct (simulate_scan_returns (_game_board g) row col Hwf) as [fl Hfl].
  rewrite Hfl. simpl. eexists. split; [reflexivity|].
  destruct (simulate_scan_flags _ _ _ _ Hfl) as [<- <-].
  rewrite negb_false_iff, andb_true_iff. reflexivity.
Qed.

Lemma simulate_explosion_rule_witness :
  exists v,
    simulate_explosion position_kings_adjacent 3 4 = Ret v /\
    (v = false <->
     piece_in_blast (_game_board position_kings_adjacent) 3 4 "K" /\
     piece_in_blast (_game_board position_kings_adjacent) 3 4 "k").
Proof. apply (simulate_explosion_rule position_kings_adjacent 3 4). reflexivity. Defined.

(** ** What an explosion changes *)

Lemma explode_cell_frame (r c : Z) (g g1 : ChessVar) (r' c' : Z) :
  0 <= r -> 0 <= c -> 0 <= r' -> 0 <= c' ->
  (r', c') <> (r, c) ->
  explode_cell r g c = Ret g1 ->
  board_get (_game_board g1) r' c' = board_get (_game_board g) r' c'.
Proof.
  intros Hr Hc Hr' Hc' Hne H. unfold explode_cell in H. bind_inv H. rename x into piece.
  destruct (negb (piece =? ".")%char); simpl in H; [|injection H as <-; reflexivity].
  bind_inv H. injection H as <-. simpl.
  assert (Hb : board_set (_game_board g) r c "." = Ret x).
  { destruct (is_king piece); [destruct (piece =? "K")%char|]; exact Hx0. }
  apply board_set_put in Hb as [[y Hy] ->]; try assumption.
  rewrite !board_get_nonneg by assumption.
  rewrite (cell_put _ _ _ _ _ _ _ Hy).
  rewrite decide_False; [reflexivity|].
  intros [E1 E2]. apply Hne. f_equal; lia.
Qed.

Lemma explode_apply_frame (g g1 : ChessVar) (row col r' c' : Z) :
  0 <= r' -> 0 <= c' ->
  ~ in_blast row col r' c' ->
  explode_apply g row col = Ret g1 ->
  board_get (_game_board g1) r' c' = board_get (_game_board g) r' c'.
Proof.
  intros Hr' Hc' Hout. unfold explode_apply.
  apply (for_each_inv
           (fun s => board_get (_game_board s) r' c' = board_get (_game_board g) r' c'));
    [|reflexivity].
  intros s r s' Hr Hs.
  apply (for_each_inv
           (fun s => board_get (_game_board s) r' c' = board_get (_game_board g) r' c'));
    [|exact Hs].
  intros s1 c s2 Hc Hs1 Hcell. rewrite <- Hs1.
  pose proof (in_blast_rows _ _ Hr) as [Hr0 _]. pose proof (in_blast_cols _ _ Hc) as [Hc0 _].
  eapply explode_cell_frame; [| | | | |exact Hcell]; try lia.
  intros Heq. injection Heq as -> ->. apply Hout. apply in_blast_iff. auto.
Qed.

(** X14: [explode] refuses, returning [False] and changing nothing, exactly
    when both kings stand in the blast radius.  Otherwise it returns [True],
    every cell of the blast radius is empty afterwards, every other cell of
    the board is as before, and the player to move is as before. *)
Theorem explode_rule (g : ChessVar) (row col : Z) :
  wf g ->
  exists v g',
    explode g row col = Ret (v, g') /\
    (v = false <->
     piece_in_blast (_game_board g) row col "K" /\
     piece_in_blast (_game_board g) row col "k") /\
    (v = false -> g' = g) /\
    (v = true ->
     _current_player g' = _current_player g /\
     forall r c, 0 <= r < 8 -> 0 <= c < 8 ->
       board_get (_game_board g') r c =
       if decide (Z.abs (r - row) <= 1 /\ Z.abs (c - col) <= 1)
       then Ret "."%char
       else board_get (_game_board g) r c).
Proof.
  intros Hwf.
  destruct (explode_returns g row col Hwf) as ([v g'] & Hex & _).
  exists v, g'. split; [exact Hex|].
  pose proof Hex as Hex'. unfold explode in Hex'. rewrite explode_scan_simulate in Hex'.
  bind_inv Hex'. rename x into fl.
  destruct (simulate_scan_flags _ _ _ _ Hx) as [F1 F2].
  destruct (fl.1 && fl.2) eqn:Hboth.
  - injection Hex' as <- <-. apply andb_true_iff in Hboth as [B1 B2].
    split; [|split; [reflexivity | discriminate]].
    split; [intros _|reflexivity]. split; [apply F1 | apply F2]; assumption.
  - bind_inv Hex'. injection Hex' as <- <-.
    split; [|split; [discriminate|]].
    + split; [discriminate|]. intros [K1 K2]. apply F1 in K1. apply F2 in K2.
      rewrite K1, K2 in Hboth. discriminate.
    + intros _. split; [eapply explode_apply_player; eassumption|].
      intros r c Hr Hc. case_decide as Hin.
      * assert (Hrows : forall r', In r' (blast_rows row) -> 0 <= r')
          by (intros r' H'; apply in_blast_rows in H'; lia).
        assert (Hcols : forall c', In c' (blast_cols col) -> 0 <= c')
          by (intros c' H'; apply in_blast_cols in H'; lia).
        destruct (explode_apply_clears _ _ Hrows Hcols _ _ Hx0) as [Hclear _].
        apply Hclear; [apply blast_rows_in | apply blast_cols_in]; lia.
      * eapply explode_apply_frame; [| | |exact Hx0]; try lia.
        unfold in_blast. tauto.
Qed.

Lemma explode_rule_witness :
  exists v g',
    explode position_bishop_takes 3 6 = Ret (v, g') /\
    (v = false <->
     piece_in_blast (_game_board position_bishop_takes) 3 6 "K" /\
     piece_in_blast (_game_board position_bishop_takes) 3 6 "k") /\
    (v = false -> g' = position_bishop_takes) /\
    (v = true ->
     _current_player g' = _current_player position_bishop_takes /\
     forall r c, 0 <= r < 8 -> 0 <= c < 8 ->
       board_get (_game_board g') r c =
       if decide (Z.abs (r - 3) <= 1 /\ Z.abs (c - 6) <= 1)
       then Ret "."%char
       else board_get (_game_board position_bishop_takes) r c).
Proof. apply (explode_rule position_bishop_takes 3 6). reflexivity. Defined.

(** ** [handle_explosion] *)

Lemma handle_scan_simulate (b : board) (row col : Z) :
  handle_scan b row col = simulate_scan b row col.
Proof.
  unfold handle_scan, simulate_scan.
  apply for_each_ext. intros fl r. apply for_each_ext. intros [w k] c.
  destruct (board_get b r c) as [p| |]; simpl; try reflexivity.
  destruct (p =? "K")%char eqn:EK, (p =? "k")%char eqn:Ek; simpl; try reflexivity.
  apply char_eqb_true in EK, Ek. congruence.
Qed.

(** X15: [handle_explosion] does what [explode] does: the same answer and
    the same object afterwards, or the same exception.  Its own test for the
    two kings never decides anything that [explode] would not. *)
Theorem handle_explosion_is_explode (g : ChessVar) (row col : Z) :
  handle_explosion g row col = explode g row col.
Proof.
  unfold handle_explosion. rewrite handle_scan_simulate.
  destruct (simulate_scan (_game_board g) row col) as [fl| |] eqn:Hscan; simpl.
  - destruct (fl.1 && fl.2) eqn:Hboth.
    + unfold explode. rewrite explode_scan_simulate, Hscan. simpl. rewrite Hboth. reflexivity.
    + unfold explode. rewrite explode_scan_simulate, Hscan. simpl. rewrite Hboth.
      destruct (explode_apply g row col); reflexivity.
  - unfold explode. rewrite explode_scan_simulate, Hscan. reflexivity.
  - unfold explode. rewrite explode_scan_simulate, Hscan. reflexivity.
Qed.

(** ** Counting pieces *)

Lemma count_row_insert (row : list ascii) (i : nat) (old y x : ascii) :
  row !! i = Some old ->
  (count_row (<[i := y]> row) x + unit_if (old =? x)%char
   = count_row row x + unit_if (y =? x)%char)%nat.
Proof.
  unfold count_row. revert i. induction row as [|p row IH]; intros i Hi; [discriminate|].
  destruct i as [|i]; simpl in *.
  - injection Hi as ->. destruct (old =? x)%char, (y =? x)%char; simpl; lia.
  - specialize (IH i Hi). destruct (p =? x)%char; simpl; lia.
Qed.

Lemma list_sum_insert {A : Type} (f : A -> nat) (l : list A) (i : nat) (old new : A) :
  l !! i = Some old ->
  (list_sum (map f (<[i := new]> l)) + f old = list_sum (map f l) + f new)%nat.
Proof.
  revert i. induction l as [|a l IH]; intros i Hi; [discriminate|].
  destruct i as [|i]; simpl in *.
  - injection Hi as ->. lia.
  - specialize (IH i Hi). lia.
Qed.

Lemma count_put (b : board) (r c : nat) (old y x : ascii) :
  cell b r c = Some old ->
  (count_piece (put b r c y) x + unit_if (old =? x)%char
   = count_piece b x + unit_if (y =? x)%char)%nat.
Proof.
  unfold cell, put, count_piece. destruct (b !! r) as [row|] eqn:Hrow; [|discriminate].
  intros Hc.
  pose proof (list_sum_insert (fun row => count_row row x) b r row (<[c := y]> row) Hrow) as H1.
  pose proof (count_row_insert row c old y x Hc) as H2. simpl in H1. lia.
Qed.

Lemma has_piece_count (b : board) (x : ascii) :
  has_piece b x = true <-> (0 < count_piece b x)%nat.
Proof.
  unfold has_piece, count_piece.
  assert (Hrow : forall row, existsb (fun p => (p =? x)%char) row = true
                             <-> (0 < count_row row x)%nat).
  { unfold count_row. induction row as [|p row IH]; simpl; [split; [discriminate | lia]|].
    destruct (p =? x)%char; simpl; [split; [lia | reflexivity]|exact IH]. }
  induction b as [|row b IH]; simpl; [split; [discriminate | lia]|].
  rewrite orb_true_iff, Hrow, IH. lia.
Qed.

(** Setting one cell to a letter that is not [x] never raises the count of
    [x]; emptying a cell that held [x] lowers it. *)
Lemma board_set_count (b b' : board) (r c : Z) (old y x : ascii) :
  0 <= r -> 0 <= c ->
  board_get b r c = Ret old ->
  board_set b r c y = Ret b' ->
  (count_piece b' x + unit_if (old =? x)%char
   = count_piece b x + unit_if (y =? x)%char)%nat.
Proof.
  intros Hr Hc Hget Hset. apply board_get_cell in Hget; try assumption.
  apply board_set_put in Hset as [_ ->]; try assumption.
  apply count_put. exact Hget.
Qed.

Lemma explode_cell_count (r c : Z) (g g1 : ChessVar) (x : ascii) :
  0 <= r -> 0 <= c -> x <> "."%char ->
  explode_cell r g c = Ret g1 ->
  (count_piece (_game_board g1) x <= count_piece (_game_board g) x)%nat /\
  (_game_state g1 = _game_state g \/
   (count_piece (_game_board g1) "K" + count_piece (_game_board g1) "k"
    < count_piece (_game_board g) "K" + count_piece (_game_board g) "k")%nat).
Proof.
  intros Hr Hc Hx H. unfold explode_cell in H. bind_inv H. rename x0 into piece.
  destruct (negb (piece =? ".")%char); simpl in H; [|injection H as <-; auto].
  bind_inv H. injection H as <-. simpl.
  assert (Hb : board_set (_game_board g) r c "." = Ret x0)
    by (destruct (is_king piece); [destruct (piece =? "K")%char|]; exact Hx1).
  assert (Hcount : forall y, y <> "."%char ->
            (count_piece x0 y + unit_if (piece =? y)%char = count_piece (_game_board g) y)%nat).
  { intros y Hy. pose proof (board_set_count _ _ _ _ _ _ y Hr Hc Hx0 Hb) as E.
    replace ("." =? y)%char with false in E by (symmetry; apply char_eqb_false; congruence).
    simpl in E. lia. }
  split; [pose proof (Hcount x Hx); lia|].
  destruct (is_king piece) eqn:Hking; [|left; reflexivity]. right.
  pose proof (Hcount "K"%char ltac:(discriminate)) as EK.
  pose proof (Hcount "k"%char ltac:(discriminate)) as Ek.
  destruct (is_king_letter piece Hking) as [-> | ->]; simpl in *; lia.
Qed.

Lemma explode_apply_count (g g1 : ChessVar) (row col : Z) (x : ascii) :
  x <> "."%char ->
  explode_apply g row col = Ret g1 ->
  (count_piece (_game_board g1) x <= count_piece (_game_board g) x)%nat.
Proof.
  intros Hx. unfold explode_apply.
  apply (for_each_inv
           (fun s => (count_piece (_game_board s) x <= count_piece (_game_board g) x)%nat));
    [|lia].
  intros s r s' Hr Hs.
  apply (for_each_inv
           (fun s => (count_piece (_game_board s) x <= count_piece (_game_board g) x)%nat));
    [|exact Hs].
  intros s1 c s2 Hc Hs1 Hcell.
  pose proof (in_blast_rows _ _ Hr) as [Hr0 _]. pose proof (in_blast_cols _ _ Hc) as [Hc0 _].
  destruct (explode_cell_count r c s1 s2 x ltac:(lia) ltac:(lia) Hx Hcell) as [Hle _]. lia.
Qed.

(** The explosion changes the game state only by removing a king. *)
Lemma explode_apply_state (g g1 : ChessVar) (row col : Z) :
  explode_apply g row col = Ret g1 ->
  _game_state g1 = _game_state g \/
  (count_piece (_game_board g1) "K" + count_piece (_game_board g1) "k"
   < count_piece (_game_board g) "K" + count_piece (_game_board g) "k")%nat.
Proof.
  unfold explode_apply.
  set (I := fun s : ChessVar =>
    (count_piece (_game_board s) "K" <= count_piece (_game_board g) "K")%nat /\
    (count_piece (_game_board s) "k" <= count_piece (_game_board g) "k")%nat /\
    (_game_state s = _game_state g \/
     (count_piece (_game_board s) "K" + count_piece (_game_board s) "k"
      < count_piece (_game_board g) "K" + count_piece (_game_board g) "k")%nat)).
  intros H. enough (HI : I g1) by (destruct HI as (_ & _ & HI); exact HI).
  revert H. apply (for_each_inv I); [|unfold I; auto].
  intros s r s' Hr Hs. apply (for_each_inv I); [|exact Hs].
  intros s1 c s2 Hc (L1 & L2 & Hst) Hcell.
  pose proof (in_blast_rows _ _ Hr) as [Hr0 _]. pose proof (in_blast_cols _ _ Hc) as [Hc0 _].
  destruct (explode_cell_count r c s1 s2 "K" ltac:(lia) ltac:(lia) ltac:(discriminate) Hcell)
    as [M1 Hstep].
  destruct (explode_cell_count r c s1 s2 "k" ltac:(lia) ltac:(lia) ltac:(discriminate) Hcell)
    as [M2 _].
  unfold I. split; [lia|]. split; [lia|].
  destruct Hstep as [E|Hlt]; [|right; lia].
  destruct Hst as [E'|Hlt]; [left; congruence | right; lia].
Qed.

(** The tentative move of [make_move]: nothing is added to the board. *)
Lemma tentative_move_count (b b1 b2 : board) (sr sc er ec : Z) (moving captured x : ascii) :
  0 <= sr -> 0 <= sc -> 0 <= er -> 0 <= ec ->
  x <> "."%char ->
  board_get b sr sc = Ret moving ->
  board_get b er ec = Ret captured ->
  board_set b sr sc "." = Ret b1 ->
  board_set b1 er ec moving = Ret b2 ->
  (count_piece b2 x <= count_piece b x)%nat /\
  (captured = "."%char -> count_piece b2 x = count_piece b x).
Proof.
  intros Hsr Hsc Her Hec Hx Hm Hc H1 H2.
  pose proof (board_set_count _ _ _ _ _ _ x Hsr Hsc Hm H1) as E1.
  replace ("." =? x)%char with false in E1 by (symmetry; apply char_eqb_false; congruence).
  assert (Hold : exists old, board_get b1 er ec = Ret old /\
                             (old = captured \/ old = "."%char)).
  { pose proof H1 as P1. apply board_set_put in P1 as [[y Hy] ->]; try assumption.
    apply board_get_cell in Hc; try assumption.
    rewrite board_get_nonneg by assumption. rewrite (cell_put _ _ _ _ _ _ _ Hy).
    case_decide; [exists "."%char | exists captured; rewrite Hc]; auto. }
  destruct Hold as (old & Hold & Hcase).
  pose proof (board_set_count _ _ _ _ _ _ x Her Hec Hold H2) as E2.
  simpl in E1. split.
  - lia.
  - intros ->. assert (old = "."%char) as -> by (destruct Hcase; assumption).
    replace ("." =? x)%char with false in E2 by (symmetry; apply char_eqb_false; congruence).
    simpl in E2. lia.
Qed.

(** ** What a call of [make_move] does to the board *)

Lemma make_move_count (fuel : nat) (g : ChessVar) (a b : string)
  (v : bool) (g' : ChessVar) (x : ascii) :
  make_move fuel g a b = Ret (v, g') ->
  x <> "."%char ->
  (count_piece (_game_board g') x <= count_piece (_game_board g) x)%nat /\
  (forall er ec,
     chess_notation_to_index b = Ret (er, ec) ->
     board_get (_game_board g) er ec = Ret "."%char ->
     count_piece (_game_board g') x = count_piece (_game_board g) x).
Proof.
  intros H Hx. destruct v.
  2:{ apply make_move_rejected_same in H. subst. auto. }
  apply make_move_paths in H.
  inversion H as
    [ | | sr sc er ec moving b1 b2 v g1 Hst Ha Hb Hv Hm Hc H1 H2 Hfin
      | | sr sc er ec moving captured b1 b2 r v g1 Hst Ha Hb Hv Hm Hc Hne H1 H2 Hsim Hex Hfin ];
    subst;
    apply is_valid_move_on_board in Hv as [Hs He];
    apply is_on_board_bounds in Hs as [Hsr Hsc], He as [Her Hec];
    apply finish_move_spec in Hfin as (_ & -> & _).
  - destruct (tentative_move_count (_game_board g) b1 b2 sr sc er ec moving "." x)
      as [Hle Heq]; try assumption; try lia.
    simpl. split; [exact Hle|]. intros _ _ _ _. apply Heq. reflexivity.
  - destruct (tentative_move_count (_game_board g) b1 b2 sr sc er ec moving captured x)
      as [Hle _]; try assumption; try lia.
    destruct (explode_after_simulate _ _ _ _ Hsim Hex) as [_ Happ].
    pose proof (explode_apply_count _ _ _ _ x Hx Happ) as Hle'. simpl in Hle'.
    split; [lia|].
    intros er' ec' Hb' Hempty. rewrite Hb in Hb'. injection Hb' as <- <-. congruence.
Qed.

(** X16: [make_move] never puts a piece on the board: after any call that
    returns, no letter occurs more often than before; after an accepted move
    onto an empty cell every letter occurs exactly as often as before. *)
Theorem make_move_conserves_pieces (fuel : nat) (g : ChessVar) (a b : string)
  (v : bool) (g' : ChessVar) (x : ascii) :
  make_move fuel g a b = Ret (v, g') ->
  x <> "."%char ->
  (count_piece (_game_board g') x <= count_piece (_game_board g) x)%nat /\
  (forall er ec,
     chess_notation_to_index b = Ret (er, ec) ->
     board_get (_game_board g) er ec = Ret "."%char ->
     count_piece (_game_board g') x = count_piece (_game_board g) x).
Proof. apply make_move_count. Qed.

Lemma make_move_conserves_pieces_witness :
  exists g',
    make_move 4 position_bishop_takes "c1" "g5" = Ret (true, g') /\
    (count_piece (_game_board g') "p" <= count_piece (_game_board position_bishop_takes) "p")%nat.
Proof.
  eexists. split; [vm_compute; reflexivity|].
  apply (make_move_conserves_pieces 4 position_bishop_takes "c1" "g5" true _ "p");
    [vm_compute; reflexivity | discriminate].
Defined.

Lemma tentative_move_cells (b b1 b2 : board) (sr sc er ec : Z) (moving : ascii) (r c : Z) :
  0 <= sr -> 0 <= sc -> 0 <= er -> 0 <= ec -> 0 <= r -> 0 <= c ->
  board_set b sr sc "." = Ret b1 ->
  board_set b1 er ec moving = Ret b2 ->
  board_get b2 r c =
  if decide (r = er /\ c = ec) then Ret moving
  else if decide (r = sr /\ c = sc) then Ret "."%char
  else board_get b r c.
Proof.
  intros Hsr Hsc Her Hec Hr Hc H1 H2.
  apply board_set_put in H1 as [[y1 C1] ->]; try assumption.
  apply board_set_put in H2 as [[y2 C2] ->]; try assumption.
  rewrite !board_get_nonneg by assumption.
  rewrite (cell_put _ _ _ _ _ _ _ C2), (cell_put _ _ _ _ _ _ _ C1).
  repeat case_decide; destruct_and?; try reflexivity; exfalso; lia.
Qed.

(** X17: an accepted move onto an empty cell changes exactly two cells: the
    start cell becomes empty and the end cell takes the piece that stood on
    the start cell. *)
Theorem quiet_move_effect (fuel : nat) (g : ChessVar) (a b : string) (g' : ChessVar)
  (sr sc er ec : Z) (moving : ascii) (r c : Z) :
  make_move fuel g a b = Ret (true, g') ->
  chess_notation_to_index a = Ret (sr, sc) ->
  chess_notation_to_index b = Ret (er, ec) ->
  board_get (_game_board g) sr sc = Ret moving ->
  board_get (_game_board g) er ec = Ret "."%char ->
  0 <= r < 8 -> 0 <= c < 8 ->
  board_get (_game_board g') r c =
  if decide (r = er /\ c = ec) then Ret moving
  else if decide (r = sr /\ c = sc) then Ret "."%char
  else board_get (_game_board g) r c.
Proof.
  intros H Ha Hb Hm Hd Hr Hc. apply make_move_paths in H.
  inversion H as
    [ | | sr' sc' er' ec' moving' b1 b2 v g1 Hst Ha' Hb' Hv Hm' Hc' H1 H2 Hfin
      | | sr' sc' er' ec' moving' captured b1 b2 res v g1 Hst Ha' Hb' Hv Hm' Hc' Hne H1 H2
          Hsim Hex Hfin ]; subst;
    rewrite Ha in Ha'; injection Ha' as <- <-; rewrite Hb in Hb'; injection Hb' as <- <-.
  - rewrite Hm in Hm'. injection Hm' as <-.
    apply is_valid_move_on_board in Hv as [Hs He].
    apply is_on_board_bounds in Hs as [Hsr Hsc], He as [Her Hec].
    apply finish_move_spec in Hfin as (_ & -> & _). simpl.
    apply (tentative_move_cells (_game_board g) b1 b2); try assumption; lia.
  - congruence.
Qed.

Lemma quiet_move_effect_witness :
  exists g',
    make_move 4 init "d2" "d4" = Ret (true, g') /\
    board_get (_game_board g') 4 3 =
    if decide (4 = 4 /\ 3 = 3) then Ret "P"%char
    else if decide (4 = 6 /\ 3 = 3) then Ret "."%char
    else board_get (_game_board init) 4 3.
Proof.
  eexists. split; [vm_compute; reflexivity|].
  apply (quiet_move_effect 4 init "d2" "d4" _ 6 3 4 3 "P" 4 3);
    solve [vm_compute; reflexivity | lia].
Defined.

(** X18: an accepted capture leaves the board as follows: the blast radius
    of the end cell is empty, the start cell is empty, and every other cell
    is as before. *)
Theorem capture_effect (fuel : nat) (g : ChessVar) (a b : string) (g' : ChessVar)
  (sr sc er ec : Z) (captured : ascii) (r c : Z) :
  make_move fuel g a b = Ret (true, g') ->
  chess_notation_to_index a = Ret (sr, sc) ->
  chess_notation_to_index b = Ret (er, ec) ->
  board_get (_game_board g) er ec = Ret captured ->
  captured <> "."%char ->
  0 <= r < 8 -> 0 <= c < 8 ->
  board_get (_game_board g') r c =
  if decide (Z.abs (r - er) <= 1 /\ Z.abs (c - ec) <= 1) then Ret "."%char
  else if decide (r = sr /\ c = sc) then Ret "."%char
  else board_get (_game_board g) r c.
Proof.
  intros H Ha Hb Hcap Hne Hr Hc. apply make_move_paths in H.
  inversion H as
    [ | | sr' sc' er' ec' moving' b1 b2 v g1 Hst Ha' Hb' Hv Hm' Hc' H1 H2 Hfin
      | | sr' sc' er' ec' moving' captured' b1 b2 res v g1 Hst Ha' Hb' Hv Hm' Hc' Hne' H1 H2
          Hsim Hex Hfin ]; subst;
    rewrite Ha in Ha'; injection Ha' as <- <-; rewrite Hb in Hb'; injection Hb' as <- <-.
  - congruence.
  - apply is_valid_move_on_board in Hv as [Hs He].
    apply is_on_board_bounds in Hs as [Hsr Hsc], He as [Her Hec].
    apply finish_move_spec in Hfin as (_ & -> & _).
    destruct (explode_after_simulate _ _ _ _ Hsim Hex) as [_ Happ].
    case_decide as Hin.
    + assert (Hrows : forall r', In r' (blast_rows er) -> 0 <= r')
        by (intros r' H'; apply in_blast_rows in H'; lia).
      assert (Hcols : forall c', In c' (blast_cols ec) -> 0 <= c')
        by (intros c' H'; apply in_blast_cols in H'; lia).
      destruct (explode_apply_clears _ _ Hrows Hcols _ _ Happ) as [Hclear _].
      apply Hclear; [apply blast_rows_in | apply blast_cols_in]; lia.
    + rewrite (explode_apply_frame _ _ er ec r c ltac:(lia) ltac:(lia)
                 ltac:(unfold in_blast; tauto) Happ). simpl.
      rewrite (tentative_move_cells (_game_board g) b1 b2 sr sc er ec moving' r c)
        by (assumption || lia).
      rewrite decide_False; [reflexivity|].
      intros [-> ->]. apply Hin. lia.
Qed.

Lemma capture_effect_witness :
  exists g',
    make_move 4 position_bishop_takes "c1" "g5" = Ret (true, g') /\
    board_get (_game_board g') 7 2 =
    if decide (Z.abs (7 - 3) <= 1 /\ Z.abs (2 - 6) <= 1) then Ret "."%char
    else if decide (7 = 7 /\ 2 = 2) then Ret "."%char
    else board_get (_game_board position_bishop_takes) 7 2.
Proof.
  eexists. split; [vm_compute; reflexivity|].
  apply (capture_effect 4 position_bishop_takes "c1" "g5" _ 7 2 3 6 "p" 7 2);
    solve [vm_compute; reflexivity | discriminate | lia].
Defined.

(** ** Invariants of a game *)

(** What every reachable state satisfies: at most one king a side, and a
    game state that is the one the kings on the board dictate. *)
Lemma reachable_kings (g : ChessVar) :
  reachable g ->
  (count_piece (_game_board g) "K" <= 1)%nat /\
  (count_piece (_game_board g) "k" <= 1)%nat /\
  _game_state g = state_of_kings (_game_board g).
Proof.
  induction 1 as [|fuel g a b v g' _ (IK & Ik & IH) H]; [vm_compute; auto|].
  pose proof (make_move_count fuel g a b v g' "K" H ltac:(discriminate)) as [LK _].
  pose proof (make_move_count fuel g a b v g' "k" H ltac:(discriminate)) as [Lk _].
  split; [lia|]. split; [lia|].
  destruct v; [|apply make_move_rejected_same in H; subst; exact IH].
  pose proof H as Hpath. apply make_move_paths in Hpath.
  assert (G : exists g3,
             finish_move g3 = Ret (true, g') /\
             (_game_state g3 = UNFINISHED \/
              (count_piece (_game_board g3) "K" + count_piece (_game_board g3) "k" < 2)%nat)).
  { inversion Hpath as
      [ | | sr sc er ec moving b1 b2 v g1 Hst Ha Hb Hv Hm Hc H1 H2 Hfin
        | | sr sc er ec moving captured b1 b2 r v g1 Hst Ha Hb Hv Hm Hc Hne H1 H2 Hsim Hex Hfin ];
      subst.
    - eexists. split; [exact Hfin|]. left. exact Hst.
    - eexists. split; [exact Hfin|].
      destruct (explode_after_simulate _ _ _ _ Hsim Hex) as [_ Happ].
      apply is_valid_move_on_board in Hv as [Hs He].
      apply is_on_board_bounds in Hs as [Hsr Hsc], He as [Her Hec].
      destruct (tentative_move_count (_game_board g) b1 b2 sr sc er ec moving captured "K")
        as [TK _]; try assumption; try lia; try discriminate.
      destruct (tentative_move_count (_game_board g) b1 b2 sr sc er ec moving captured "k")
        as [Tk _]; try assumption; try lia; try discriminate.
      destruct (explode_apply_state _ _ _ _ Happ) as [E|Hlt]; simpl in *.
      + left. congruence.
      + right. lia. }
  destruct G as (g3 & Hfin & Hg3).
  apply finish_move_spec in Hfin as (_ & Hb & Hs & _).
  rewrite Hs, Hb, update_game_state_spec. unfold state_of_kings.
  destruct (has_piece (_game_board g3) "K") eqn:HK; simpl; [|reflexivity].
  destruct (has_piece (_game_board g3) "k") eqn:Hk; simpl; [|reflexivity].
  destruct Hg3 as [E|Hlt]; [exact E|].
  apply has_piece_count in HK, Hk. lia.
Qed.

(** X19: in every reachable state the game state is the one the kings on
    the board dictate: unfinished while both kings are there, White's win
    when only the Black king is gone, Black's win when the White king is
    gone, whether or not the Black king is gone too. *)
Theorem game_state_follows_kings (g : ChessVar) :
  reachable g ->
  _game_state g = state_of_kings (_game_board g).
Proof. intros H. apply reachable_kings in H as (_ & _ & H). exact H. Qed.

Lemma game_state_follows_kings_witness :
  _game_state init = state_of_kings (_game_board init).
Proof. apply (game_state_follows_kings init). constructor. Defined.

(** X20: no reachable state has two kings of one colour. *)
Theorem at_most_one_king_each (g : ChessVar) :
  reachable g ->
  (count_piece (_game_board g) "K" <= 1)%nat /\
  (count_piece (_game_board g) "k" <= 1)%nat.
Proof. intros H. apply reachable_kings in H as (HK & Hk & _). auto. Qed.

Lemma at_most_one_king_each_witness :
  (count_piece (_game_board init) "K" <= 1)%nat /\
  (count_piece (_game_board init) "k" <= 1)%nat.
Proof. apply (at_most_one_king_each init). constructor. Defined.

(** X21: in every reachable state the board has eight rows of eight cells,
    and every cell holds one of the thirteen characters of the initial
    board. *)
Theorem reachable_board_shape (g : ChessVar) :
  reachable g ->
  length (_game_board g) = 8%nat /\
  Forall (fun row =>
            length row = 8%nat /\
            Forall (fun x => In x (list_ascii_of_string ".pnbrqkPNBRQK")) row)
         (_game_board g).
Proof.
  intros H. apply reachable_wf in H. unfold wf in H.
  apply wf_board_spec in H as [Hlen Hrows]. split; [exact Hlen|].
  eapply Forall_impl; [exact Hrows|]. intros row Hrow. simpl in Hrow.
  apply wf_row_spec in Hrow as [Hl Hcells]. split; [exact Hl|].
  eapply Forall_impl; [exact Hcells|]. intros x Hx. simpl in Hx.
  unfold is_cell in Hx. apply existsb_exists in Hx as (y & Hy & E).
  apply char_eqb_true in E. subst y. exact Hy.
Qed.

Lemma reachable_board_shape_witness :
  length (_game_board init) = 8%nat /\
  Forall (fun row =>
            length row = 8%nat /\
            Forall (fun x => In x (list_ascii_of_string ".pnbrqkPNBRQK")) row)
         (_game_board init).
Proof. apply (reachable_board_shape init). constructor. Defined.

(** ** [update_game_state] *)

(** X22: [update_game_state] touches neither the board nor the player to
    move.  It sets Black's win when no White king is on the board, White's
    win when a White king but no Black king is there, and with both kings on
    the board it leaves the state as it finds it, never putting it back to
    unfinished; applying it twice is applying it once. *)
Theorem update_game_state_rule (g : ChessVar) :
  update_game_state g =
    mkChessVar (_game_board g) (_current_player g)
      (if has_piece (_game_board g) "K"
       then (if has_piece (_game_board g) "k" then _game_state g else WHITE_WON)
       else BLACK_WON) /\
  update_game_state (update_game_state g) = update_game_state g.
Proof.
  assert (E : forall h, update_game_state h =
    mkChessVar (_game_board h) (_current_player h)
      (if has_piece (_game_board h) "K"
       then (if has_piece (_game_board h) "k" then _game_state h else WHITE_WON)
       else BLACK_WON)).
  { intros h. rewrite update_game_state_spec.
    destruct (has_piece (_game_board h) "K"), (has_piece (_game_board h) "k"), h; reflexivity. }
  split; [apply E|]. rewrite (E (update_game_state g)), (E g). simpl.
  destruct (has_piece (_game_board g) "K"), (has_piece (_game_board g) "k"); reflexivity.
Qed.

(** ** The winner [explode] declares *)

Lemma explode_cell_state (r c : Z) (g g1 : ChessVar) (piece x y : ascii) (w : game_state) :
  king_pair x y w ->
  board_get (_game_board g) r c = Ret piece ->
  piece <> y ->
  explode_cell r g c = Ret g1 ->
  _game_state g1 = if (piece =? x)%char then w else _game_state g.
Proof.
  intros Hxy Hget Hy H. unfold explode_cell in H. rewrite Hget in H. simpl in H.
  destruct (piece =? ".")%char eqn:Hdot; simpl in H.
  - injection H as <-. apply char_eqb_true in Hdot. subst piece.
    destruct Hxy; reflexivity.
  - bind_inv H. injection H as <-. simpl. unfold is_king. rewrite lower_is_k.
    destruct Hxy; apply char_eqb_false in Hy;
      destruct (piece =? "K")%char eqn:EK, (piece =? "k")%char eqn:Ek; simpl;
      try reflexivity; congruence.
Qed.

Lemma explode_cell_cells (r c : Z) (g g1 : ChessVar) (r' c' : Z) :
  0 <= r -> 0 <= c -> 0 <= r' -> 0 <= c' ->
  explode_cell r g c = Ret g1 ->
  board_get (_game_board g1) r' c' =
  if decide (r' = r /\ c' = c) then Ret "."%char else board_get (_game_board g) r' c'.
Proof.
  intros Hr Hc Hr' Hc' H. case_decide as E.
  - destruct E as [-> ->].
    destruct (explode_cell_clears r c g g1 Hr Hc H) as [Hhere _]. exact Hhere.
  - eapply explode_cell_frame; [| | | | |exact H]; try assumption.
    intros Heq. injection Heq as -> ->. tauto.
Qed.

Lemma explode_apply_removes (g g' : ChessVar) (row col : Z) (x y : ascii) (w : game_state)
  (r0 c0 : Z) :
  king_pair x y w ->
  in_blast row col r0 c0 ->
  board_get (_game_board g) r0 c0 = Ret x ->
  ~ piece_in_blast (_game_board g) row col y ->
  explode_apply g row col = Ret g' ->
  _game_state g' = w.
Proof.
  intros Hxy Hin Hx Hno Happ.
  set (I := fun s : ChessVar =>
    ~ piece_in_blast (_game_board s) row col y /\
    (_game_state s = w \/ board_get (_game_board s) r0 c0 = Ret x)).
  assert (HI : I g') .
  { revert Happ. unfold explode_apply. apply (for_each_inv I); [|split; auto].
    intros s r s' Hr Hs. apply (for_each_inv I); [|exact Hs].
    intros s1 c s2 Hc [Hno1 Hst] Hcell.
    pose proof (in_blast_rows _ _ Hr) as [Hr0 _]. pose proof (in_blast_cols _ _ Hc) as [Hc0 _].
    assert (Hcells : forall r' c', 0 <= r' -> 0 <= c' ->
              board_get (_game_board s2) r' c' =
              if decide (r' = r /\ c' = c) then Ret "."%char
              else board_get (_game_board s1) r' c')
      by (intros; apply explode_cell_cells; assumption || lia).
    pose proof Hcell as Hcell'. unfold explode_cell in Hcell'. bind_inv Hcell'.
    rename x0 into piece. clear Hcell'.
    assert (Hpy : piece <> y).
    { intros ->. apply Hno1. exists r, c. split; [apply in_blast_iff; auto | exact Hx0]. }
    pose proof (explode_cell_state r c s1 s2 piece x y w Hxy Hx0 Hpy Hcell) as Hstate.
    split.
    - intros (r' & c' & Hin' & Hy'). apply Hno1.
      rewrite Hcells in Hy' by (unfold in_blast in Hin'; lia).
      case_decide; [|exists r', c'; auto].
      injection Hy' as Hy'. destruct Hxy; discriminate Hy'.
    - rewrite Hstate. destruct (piece =? x)%char eqn:E; [left; reflexivity|].
      destruct Hst as [Hw|Hk]; [left; exact Hw|]. right.
      rewrite Hcells by (unfold in_blast in Hin; lia).
      case_decide as D; [|exact Hk].
      destruct D as [-> ->]. rewrite Hx0 in Hk. injection Hk as ->.
      rewrite Ascii.eqb_refl in E. discriminate. }
  destruct HI as [_ [Hw|Hk]]; [exact Hw|].
  assert (Hrows : forall r', In r' (blast_rows row) -> 0 <= r')
    by (intros r' H'; apply in_blast_rows in H'; lia).
  assert (Hcols : forall c', In c' (blast_cols col) -> 0 <= c')
    by (intros c' H'; apply in_blast_cols in H'; lia).
  destruct (explode_apply_clears _ _ Hrows Hcols _ _ Happ) as [Hclear _].
  apply in_blast_iff in Hin as [Hr Hc]. rewrite (Hclear r0 c0 Hr Hc) in Hk.
  injection Hk as Hk. destruct Hxy; discriminate Hk.
Qed.

Lemma explode_apply_no_king (g g' : ChessVar) (row col : Z) :
  ~ piece_in_blast (_game_board g) row col "K" ->
  ~ piece_in_blast (_game_board g) row col "k" ->
  explode_apply g row col = Ret g' ->
  _game_state g' = _game_state g.
Proof.
  intros HnK Hnk.
  set (I := fun s : ChessVar =>
    ~ piece_in_blast (_game_board s) row col "K" /\
    ~ piece_in_blast (_game_board s) row col "k" /\
    _game_state s = _game_state g).
  intros Happ. enough (HI : I g') by (destruct HI as (_ & _ & HI); exact HI).
  revert Happ. unfold explode_apply. apply (for_each_inv I); [|unfold I; auto].
  intros s r s' Hr Hs. apply (for_each_inv I); [|exact Hs].
  intros s1 c s2 Hc (N1 & N2 & Hst) Hcell.
  pose proof (in_blast_rows _ _ Hr) as [Hr0 _]. pose proof (in_blast_cols _ _ Hc) as [Hc0 _].
  assert (Hcells : forall r' c', 0 <= r' -> 0 <= c' ->
            board_get (_game_board s2) r' c' =
            if decide (r' = r /\ c' = c) then Ret "."%char
            else board_get (_game_board s1) r' c')
    by (intros; apply explode_cell_cells; assumption || lia).
  pose proof Hcell as Hcell'. unfold explode_cell in Hcell'. bind_inv Hcell'.
  rename x into piece. clear Hcell'.
  assert (HpK : piece <> "K"%char).
  { intros ->. apply N1. exists r, c. split; [apply in_blast_iff; auto | exact Hx]. }
  assert (Hpk : piece <> "k"%char).
  { intros ->. apply N2. exists r, c. split; [apply in_blast_iff; auto | exact Hx]. }
  pose proof (explode_cell_state r c s1 s2 piece "K" "k" BLACK_WON white_king_lost Hx Hpk Hcell)
    as Hstate.
  apply char_eqb_false in HpK. rewrite HpK in Hstate.
  unfold I. repeat split.
  - intros (r' & c' & Hin' & Hy'). apply N1.
    rewrite Hcells in Hy' by (unfold in_blast in Hin'; lia).
    case_decide; [discriminate Hy' | exists r', c'; auto].
  - intros (r' & c' & Hin' & Hy'). apply N2.
    rewrite Hcells in Hy' by (unfold in_blast in Hin'; lia).
    case_decide; [discriminate Hy' | exists r', c'; auto].
  - congruence.
Qed.

(** X23: when [explode] goes through, it declares the winner by the king it
    removes: Black's win if the White king stood in the blast radius,
    White's win if the Black king stood there, and no change of the game
    state if neither did. *)
Theorem explode_declares_winner (g g' : ChessVar) (row col : Z) :
  wf g ->
  explode g row col = Ret (true, g') ->
  (piece_in_blast (_game_board g) row col "K" -> _game_state g' = BLACK_WON) /\
  (piece_in_blast (_game_board g) row col "k" -> _game_state g' = WHITE_WON) /\
  (~ piece_in_blast (_game_board g) row col "K" ->
   ~ piece_in_blast (_game_board g) row col "k" ->
   _game_state g' = _game_state g).
Proof.
  intros Hwf Hex. pose proof Hex as Hex'.
  unfold explode in Hex'. rewrite explode_scan_simulate in Hex'.
  bind_inv Hex'. rename x into fl.
  destruct (simulate_scan_flags _ _ _ _ Hx) as [F1 F2].
  destruct (fl.1 && fl.2) eqn:Hboth; [discriminate Hex'|].
  bind_inv Hex'. injection Hex' as <-.
  assert (Hnot : ~ (piece_in_blast (_game_board g) row col "K" /\
                    piece_in_blast (_game_board g) row col "k")).
  { intros [K1 K2]. apply F1 in K1. apply F2 in K2. rewrite K1, K2 in Hboth. discriminate. }
  split; [|split].
  - intros (r0 & c0 & Hin & HK).
    eapply (explode_apply_removes g x row col "K" "k" BLACK_WON r0 c0);
      [constructor | exact Hin | exact HK | | exact Hx0].
    intros Hk. apply Hnot. split; [exists r0, c0; auto | exact Hk].
  - intros (r0 & c0 & Hin & Hk).
    eapply (explode_apply_removes g x row col "k" "K" WHITE_WON r0 c0);
      [constructor | exact Hin | exact Hk | | exact Hx0].
    intros HK. apply Hnot. split; [exact HK | exists r0, c0; auto].
  - intros HnK Hnk. eapply explode_apply_no_king; eassumption.
Qed.

Lemma explode_declares_winner_witness :
  exists g',
    explode position_kings_adjacent 5 5 = Ret (true, g') /\
    (piece_in_blast (_game_board position_kings_adjacent) 5 5 "K" ->
     _game_state g' = BLACK_WON).
Proof.
  eexists. split; [vm_compute; reflexivity|].
  apply (explode_declares_winner position_kings_adjacent _ 5 5); reflexivity.
Defined.

(** ** What an accepted move was *)

(** X24: when [make_move] returns [True], the game was unfinished, both
    coordinates named cells of the board, the start cell held a piece of the
    side to move, and [is_valid_move] had accepted the move. *)
Theorem accepted_move_was_legal (fuel : nat) (g : ChessVar) (a b : string) (g' : ChessVar) :
  make_move fuel g a b = Ret (true, g') ->
  _game_state g = UNFINISHED /\
  exists sr sc er ec piece,
    chess_notation_to_index a = Ret (sr, sc) /\
    chess_notation_to_index b = Ret (er, ec) /\
    is_on_board sr sc = true /\
    is_on_board er ec = true /\
    board_get (_game_board g) sr sc = Ret piece /\
    color_of piece = Some (_current_player g) /\
    is_valid_move fuel g sr sc er ec = Ret true.
Proof.
  intros H. apply make_move_paths in H.
  assert (G : _game_state g = UNFINISHED /\
              exists sr sc er ec,
                chess_notation_to_index a = Ret (sr, sc) /\
                chess_notation_to_index b = Ret (er, ec) /\
                is_valid_move fuel g sr sc er ec = Ret true).
  { inversion H as
      [ | | sr sc er ec moving b1 b2 v g1 Hst Ha Hb Hv Hm Hc H1 H2 Hfin
        | | sr sc er ec moving captured b1 b2 r v g1 Hst Ha Hb Hv Hm Hc Hne H1 H2 Hsim Hex Hfin ];
      subst; (split; [assumption|]); exists sr, sc, er, ec; auto. }
  destruct G as (Hst & sr & sc & er & ec & Ha & Hb & Hv).
  split; [exact Hst|].
  destruct (is_valid_move_own_piece _ _ _ _ _ _ Hv) as (Hs & He & piece & Hp & _ & Hcol).
  exists sr, sc, er, ec, piece. repeat split; assumption.
Qed.

Lemma accepted_move_was_legal_witness :
  _game_state init = UNFINISHED /\
  exists sr sc er ec piece,
    chess_notation_to_index "d2" = Ret (sr, sc) /\
    chess_notation_to_index "d4" = Ret (er, ec) /\
    is_on_board sr sc = true /\
    is_on_board er ec = true /\
    board_get (_game_board init) sr sc = Ret piece /\
    color_of piece = Some (_current_player init) /\
    is_valid_move 4 init sr sc er ec = Ret true.
Proof.
  apply (accepted_move_was_legal 4 init "d2" "d4" position_after_d4).
  vm_compute. reflexivity.
Defined.

(** X25: a king never takes: whenever [make_move] accepts a move of a king,
    the end cell was empty, so no explosion follows a king's move. *)
Theorem king_never_captures (fuel : nat) (g : ChessVar) (a b : string) (g' : ChessVar)
  (sr sc er ec : Z) (k : ascii) :
  make_move fuel g a b = Ret (true, g') ->
  chess_notation_to_index a = Ret (sr, sc) ->
  chess_notation_to_index b = Ret (er, ec) ->
  board_get (_game_board g) sr sc = Ret k ->
  is_king k = true ->
  board_get (_game_board g) er ec = Ret "."%char.
Proof.
  intros H Ha Hb Hk Hking. apply make_move_paths in H.
  inversion H as
    [ | | sr' sc' er' ec' moving b1 b2 v g1 Hst Ha' Hb' Hv Hm Hc H1 H2 Hfin
      | | sr' sc' er' ec' moving captured b1 b2 r v g1 Hst Ha' Hb' Hv Hm Hc Hne H1 H2
          Hsim Hex Hfin ]; subst;
    rewrite Ha in Ha'; injection Ha' as <- <-; rewrite Hb in Hb'; injection Hb' as <- <-.
  - exact Hc.
  - rewrite Hk in Hm. injection Hm as <-.
    pose proof (capturing_piece_not_king _ _ _ _ _ _ _ _ Hv Hk Hc Hne). congruence.
Qed.

Lemma king_never_captures_witness :
  board_get (_game_board position_kings_adjacent) 5 5 = Ret "."%char.
Proof.
  apply (king_never_captures 8 position_kings_adjacent "f4" "f3"
           (mkChessVar
              (map row_of_string
                 ["rnbq.bnr"; "pppp.ppp"; "........"; "....pk..";
                  "....P..."; ".....K.."; "PPPP.PPP"; "RNBQ.BNR"]%string)
              BLACK UNFINISHED)
           4 5 5 5 "K"); reflexivity.
Defined.
